(** * Terrain viewer: noise core and node graph

    A shallow embedding of [src/noise.js] (class [NoiseGenerator]) and of
    the [NodeGraph] class of [src/utils.js], with the properties of the
    specification stated and settled against them.

    JavaScript numbers are IEEE 754 binary64 values.  They are modelled
    by [spec_float] with precision 53 and maximal exponent 1024, the
    executable specification of binary64 of the standard library, so
    every rounding of the source is a rounding of the model. *)

From Stdlib Require Import ZArith Bool List Ascii String Lia.
From Stdlib Require Import Floats.SpecFloat.
From stdpp Require Import base tactics option list strings pretty gmap.

Local Open Scope Z_scope.

(** ** JavaScript numbers *)

Module JS.

Definition num := spec_float.

Definition prec : Z := 53.
Definition emax : Z := 1024.

Definition add : num -> num -> num := SFadd prec emax.
Definition sub : num -> num -> num := SFsub prec emax.
Definition mul : num -> num -> num := SFmul prec emax.
Definition div : num -> num -> num := SFdiv prec emax.
Definition sqrt : num -> num := SFsqrt prec emax.
Definition abs : num -> num := SFabs.
Definition ltb : num -> num -> bool := SFltb.
Definition leb : num -> num -> bool := SFleb.
Definition eqb : num -> num -> bool := SFeqb.

(** The number with the integer value [z], rounded to nearest even
    (exact whenever [|z| <= 2^53]). *)
Definition of_Z (z : Z) : num := binary_normalize prec emax z 0 false.

Definition nan : num := S754_nan.
Definition zero : num := S754_zero false.
Definition one : num := of_Z 1.

(** [Math.floor]. *)
Definition floor (x : num) : num :=
  match x with
  | S754_finite s m e =>
      if 0 <=? e then x
      else of_Z (Z.shiftr (cond_Zopp s (Zpos m)) (- e))
  | _ => x
  end.

(** The abstract operation ToInt32 of ECMAScript: truncate toward zero,
    reduce modulo 2^32, read the result as a signed 32-bit integer. *)
Definition trunc (x : num) : Z :=
  match x with
  | S754_finite s m e => cond_Zopp s (Z.shiftl (Zpos m) e)
  | _ => 0
  end.

Definition wrap32 (z : Z) : Z :=
  let r := z mod 2 ^ 32 in
  if r <? 2 ^ 31 then r else r - 2 ^ 32.

Definition ToInt32 (x : num) : Z := wrap32 (trunc x).

(** The operators [&], [^] and [>>]: both operands go through ToInt32,
    the result is a signed 32-bit integer, again a number. *)
Definition band (a b : num) : num := of_Z (Z.land (ToInt32 a) (ToInt32 b)).
Definition bxor (a b : num) : num := of_Z (Z.lxor (ToInt32 a) (ToInt32 b)).
Definition sar (a b : num) : num :=
  of_Z (Z.shiftr (ToInt32 a) (Z.land (ToInt32 b) 31)).

End JS.

Definition num : Type := JS.num.

Declare Scope js_scope.
Delimit Scope js_scope with js.
Infix "+" := JS.add : js_scope.
Infix "-" := JS.sub : js_scope.
Infix "*" := JS.mul : js_scope.
Infix "/" := JS.div : js_scope.
Notation "# z" := (JS.of_Z z) (at level 5, format "# z") : js_scope.

(** ** src/noise.js *)

Definition NOISE_FLAG_DEFAULTS : Z := 1.
Definition NOISE_FLAG_EASED : Z := 2.
Definition NOISE_FLAG_ABSVALUE : Z := 4.

Definition NOISE_MAGIC_X : num := JS.of_Z 1619.
Definition NOISE_MAGIC_Y : num := JS.of_Z 31337.
Definition NOISE_MAGIC_Z : num := JS.of_Z 52591.
Definition NOISE_MAGIC_SEED : num := JS.of_Z 1013.

(** The last two lines of [noise2d] and [noise3d], on the number [n]
    left by the first two. *)
Definition noise_mix (n : num) : num :=
  let n := JS.band
             (n * ((n * n) * #60493 + #19990303) + #1376312589)%js
             (JS.of_Z 0x7fffffff) in
  (JS.one - n / #0x40000000)%js.

Definition noise2d (x y seed : num) : num :=
  let x := JS.floor x in
  let y := JS.floor y in
  let n := JS.band
             (NOISE_MAGIC_X * x + NOISE_MAGIC_Y * y + NOISE_MAGIC_SEED * seed)%js
             (JS.of_Z 0x7fffffff) in
  let n := JS.bxor (JS.sar n (JS.of_Z 13)) n in
  noise_mix n.

Definition noise3d (x y z seed : num) : num :=
  let x := JS.floor x in
  let y := JS.floor y in
  let z := JS.floor z in
  let n := JS.band
             (NOISE_MAGIC_X * x + NOISE_MAGIC_Y * y + NOISE_MAGIC_Z * z
              + NOISE_MAGIC_SEED * seed)%js
             (JS.of_Z 0x7fffffff) in
  let n := JS.bxor (JS.sar n (JS.of_Z 13)) n in
  noise_mix n.

Definition linearInterpolation (v0 v1 t : num) : num :=
  (v0 + (v1 - v0) * t)%js.

Definition easeCurve (t : num) : num :=
  (t * t * t * (t * (#6 * t - #15) + #10))%js.

Definition biLinearInterpolation (v00 v10 v01 v11 x y : num) (eased : bool)
  : num :=
  let x := if eased then easeCurve x else x in
  let y := if eased then easeCurve y else y in
  let u := linearInterpolation v00 v10 x in
  let v := linearInterpolation v01 v11 x in
  linearInterpolation u v y.

Definition triLinearInterpolation
  (v000 v100 v010 v110 v001 v101 v011 v111 x y z : num) (eased : bool)
  : num :=
  let x := if eased then easeCurve x else x in
  let y := if eased then easeCurve y else y in
  let z := if eased then easeCurve z else z in
  let u := biLinearInterpolation v000 v100 v010 v110 x y false in
  let v := biLinearInterpolation v001 v101 v011 v111 x y false in
  linearInterpolation u v z.

Definition noise2d_gradient (x y seed : num) (eased : bool) : num :=
  let x0 := JS.floor x in
  let y0 := JS.floor y in
  let xl := (x - x0)%js in
  let yl := (y - y0)%js in
  let v00 := noise2d x0 y0 seed in
  let v10 := noise2d (x0 + #1)%js y0 seed in
  let v01 := noise2d x0 (y0 + #1)%js seed in
  let v11 := noise2d (x0 + #1)%js (y0 + #1)%js seed in
  biLinearInterpolation v00 v10 v01 v11 xl yl eased.

Definition noise3d_gradient (x y z seed : num) (eased : bool) : num :=
  let x0 := JS.floor x in
  let y0 := JS.floor y in
  let z0 := JS.floor z in
  let xl := (x - x0)%js in
  let yl := (y - y0)%js in
  let zl := (z - z0)%js in
  let v000 := noise3d x0 y0 z0 seed in
  let v100 := noise3d (x0 + #1)%js y0 z0 seed in
  let v010 := noise3d x0 (y0 + #1)%js z0 seed in
  let v110 := noise3d (x0 + #1)%js (y0 + #1)%js z0 seed in
  let v001 := noise3d x0 y0 (z0 + #1)%js seed in
  let v101 := noise3d (x0 + #1)%js y0 (z0 + #1)%js seed in
  let v011 := noise3d x0 (y0 + #1)%js (z0 + #1)%js seed in
  let v111 := noise3d (x0 + #1)%js (y0 + #1)%js (z0 + #1)%js seed in
  triLinearInterpolation v000 v100 v010 v110 v001 v101 v011 v111
    xl yl zl eased.

(** The parameter record [np] of the fractal functions.  [octaves] is a
    loop bound and [flags] a bit set: both are integers (below 2^53, so
    that the loop counter of the source is exact); the other fields are
    numbers. *)
Record NoiseParams := {
  np_offset : num;
  np_scale : num;
  np_spread_x : num;
  np_spread_y : num;
  np_spread_z : num;
  np_seed : num;
  np_octaves : Z;
  np_persist : num;
  np_lacunarity : num;
  np_flags : Z
}.

(** The test [(np.flags & m) !== 0]. *)
Definition flag_test (flags m : Z) : bool := negb (Z.land flags m =? 0).

(** The [for] loop of [NoisePerlin2D]: [k] iterations remain, [i] is the
    loop counter, [a], [f] and [g] the three accumulators. *)
Fixpoint octaves2D (np : NoiseParams) (x y seed : num) (k : nat)
  (i a f g : num) : num :=
  match k with
  | O => a
  | S k' =>
      let noiseval :=
        noise2d_gradient (x * f)%js (y * f)%js (seed + i)%js
          (flag_test (np_flags np)
             (Z.lor NOISE_FLAG_DEFAULTS NOISE_FLAG_EASED)) in
      let noiseval :=
        if flag_test (np_flags np) NOISE_FLAG_ABSVALUE
        then JS.abs noiseval else noiseval in
      let a := (a + g * noiseval)%js in
      let f := (f * np_lacunarity np)%js in
      let g := (g * np_persist np)%js in
      octaves2D np x y seed k' (i + #1)%js a f g
  end.

Definition NoisePerlin2D (np : NoiseParams) (x y seed : num) : num :=
  let x := (x / np_spread_x np)%js in
  let y := (y / np_spread_y np)%js in
  let seed := (seed + np_seed np)%js in
  let a :=
    octaves2D np x y seed (Z.to_nat (np_octaves np))
      JS.zero JS.zero JS.one JS.one in
  (np_offset np + a * np_scale np)%js.

Fixpoint octaves3D (np : NoiseParams) (x y z seed : num) (k : nat)
  (i a f g : num) : num :=
  match k with
  | O => a
  | S k' =>
      let noiseval :=
        noise3d_gradient (x * f)%js (y * f)%js (z * f)%js (seed + i)%js
          (flag_test (np_flags np) NOISE_FLAG_EASED) in
      let noiseval :=
        if flag_test (np_flags np) NOISE_FLAG_ABSVALUE
        then JS.abs noiseval else noiseval in
      let a := (a + g * noiseval)%js in
      let f := (f * np_lacunarity np)%js in
      let g := (g * np_persist np)%js in
      octaves3D np x y z seed k' (i + #1)%js a f g
  end.

Definition NoisePerlin3D (np : NoiseParams) (x y z seed : num) : num :=
  let x := (x / np_spread_x np)%js in
  let y := (y / np_spread_y np)%js in
  let z := (z / np_spread_z np)%js in
  let seed := (seed + np_seed np)%js in
  let a :=
    octaves3D np x y z seed (Z.to_nat (np_octaves np))
      JS.zero JS.zero JS.one JS.one in
  (np_offset np + a * np_scale np)%js.

(** [mandelbrot(x, z, steps)]: the loop runs for [i = 0 .. steps]; [k]
    iterations remain. *)
Fixpoint mandelbrot_loop (x z : num) (k : nat) (i a b : num) : option num :=
  match k with
  | O => None
  | S k' =>
      let old_a := a in
      let a := ((a * a - b * b) + x)%js in
      let b := (#2 * old_a * b + z)%js in
      if JS.ltb (#20)%js (a * a + b * b)%js then Some i
      else mandelbrot_loop x z k' (i + #1)%js a b
  end.

Definition mandelbrot (x z : num) (steps : Z) : num :=
  match mandelbrot_loop x z (Z.to_nat (steps + 1)) JS.zero JS.zero JS.zero with
  | Some i => i
  | None => JS.of_Z steps
  end.

(** *** The lattice hash as the specification words it

    32-bit signed integer arithmetic with wrap-around: every product and
    every sum is reduced to a signed 32-bit integer, then the two masks
    of the specification are applied. *)
Definition int32_mul (a b : Z) : Z := JS.wrap32 (a * b).
Definition int32_add (a b : Z) : Z := JS.wrap32 (a + b).

Definition latticeMix_spec (n : Z) : Z :=
  let n := Z.lxor (Z.shiftr n 13) n in
  Z.land
    (int32_add
       (int32_mul n
          (int32_add (int32_mul (int32_mul n n) 60493) 19990303))
       1376312589)
    0x7fffffff.

Definition latticeHash2D_spec (x y seed : Z) : Z :=
  latticeMix_spec
    (Z.land
       (int32_add (int32_add (int32_mul 1619 x) (int32_mul 31337 y))
          (int32_mul 1013 seed))
       0x7fffffff).

Definition latticeHash3D_spec (x y z seed : Z) : Z :=
  latticeMix_spec
    (Z.land
       (int32_add
          (int32_add (int32_add (int32_mul 1619 x) (int32_mul 31337 y))
             (int32_mul 52591 z))
          (int32_mul 1013 seed))
       0x7fffffff).

(** The value [1 - n / 2^30] of a hash [n]. *)
Definition latticeValue_spec (n : Z) : num := (JS.one - #n / #0x40000000)%js.

(** *** The fractal functions with the easing choice made explicit

    The octave loops with the [eased] argument of every gradient-noise
    call fixed to a given boolean; [NoisePerlin2D] and [NoisePerlin3D]
    are compared with them. *)
Fixpoint octaves2D_eased (eased : bool) (np : NoiseParams) (x y seed : num)
  (k : nat) (i a f g : num) : num :=
  match k with
  | O => a
  | S k' =>
      let noiseval :=
        noise2d_gradient (x * f)%js (y * f)%js (seed + i)%js eased in
      let noiseval :=
        if flag_test (np_flags np) NOISE_FLAG_ABSVALUE
        then JS.abs noiseval else noiseval in
      octaves2D_eased eased np x y seed k' (i + #1)%js
        (a + g * noiseval)%js (f * np_lacunarity np)%js
        (g * np_persist np)%js
  end.

Fixpoint octaves3D_eased (eased : bool) (np : NoiseParams) (x y z seed : num)
  (k : nat) (i a f g : num) : num :=
  match k with
  | O => a
  | S k' =>
      let noiseval :=
        noise3d_gradient (x * f)%js (y * f)%js (z * f)%js (seed + i)%js
          eased in
      let noiseval :=
        if flag_test (np_flags np) NOISE_FLAG_ABSVALUE
        then JS.abs noiseval else noiseval in
      octaves3D_eased eased np x y z seed k' (i + #1)%js
        (a + g * noiseval)%js (f * np_lacunarity np)%js
        (g * np_persist np)%js
  end.

Definition fractal2D_eased (eased : bool) (np : NoiseParams)
  (x y seed : num) : num :=
  (np_offset np
   + octaves2D_eased eased np (x / np_spread_x np) (y / np_spread_y np)
       (seed + np_seed np) (Z.to_nat (np_octaves np))
       JS.zero JS.zero JS.one JS.one
     * np_scale np)%js.

Definition fractal3D_eased (eased : bool) (np : NoiseParams)
  (x y z seed : num) : num :=
  (np_offset np
   + octaves3D_eased eased np (x / np_spread_x np) (y / np_spread_y np)
       (z / np_spread_z np) (seed + np_seed np) (Z.to_nat (np_octaves np))
       JS.zero JS.zero JS.one JS.one
     * np_scale np)%js.

(** Record updates. *)
Definition with_flags (np : NoiseParams) (fl : Z) : NoiseParams :=
  {| np_offset := np_offset np; np_scale := np_scale np;
     np_spread_x := np_spread_x np; np_spread_y := np_spread_y np;
     np_spread_z := np_spread_z np; np_seed := np_seed np;
     np_octaves := np_octaves np; np_persist := np_persist np;
     np_lacunarity := np_lacunarity np; np_flags := fl |}.

Definition with_scale_offset (np : NoiseParams) (s o : num) : NoiseParams :=
  {| np_offset := o; np_scale := s;
     np_spread_x := np_spread_x np; np_spread_y := np_spread_y np;
     np_spread_z := np_spread_z np; np_seed := np_seed np;
     np_octaves := np_octaves np; np_persist := np_persist np;
     np_lacunarity := np_lacunarity np; np_flags := np_flags np |}.

(** The accumulated octave sum, before [offset] and [scale] are applied. *)
Definition octaveSum2D (np : NoiseParams) (x y seed : num) : num :=
  octaves2D np (x / np_spread_x np)%js (y / np_spread_y np)%js
    (seed + np_seed np)%js (Z.to_nat (np_octaves np))
    JS.zero JS.zero JS.one JS.one.

Definition octaveSum3D (np : NoiseParams) (x y z seed : num) : num :=
  octaves3D np (x / np_spread_x np)%js (y / np_spread_y np)%js
    (z / np_spread_z np)%js (seed + np_seed np)%js
    (Z.to_nat (np_octaves np)) JS.zero JS.zero JS.one JS.one.

(** [not_neg v]: the test [v < 0] of the source language is false, that
    is, [v] is [>= 0] or NaN. *)
Definition not_neg (v : num) : Prop := JS.ltb v JS.zero = false.

(** The parameter record of the test suite. *)
Definition np_test (fl : Z) : NoiseParams :=
  {| np_offset := JS.zero; np_scale := JS.one;
     np_spread_x := JS.of_Z 100; np_spread_y := JS.of_Z 100;
     np_spread_z := JS.of_Z 100; np_seed := JS.of_Z 42;
     np_octaves := 3; np_persist := (JS.one / #2)%js;
     np_lacunarity := JS.of_Z 2; np_flags := fl |}.

(** A parameter record with ABSVALUE set and a negative [scale]. *)
Definition np_negative_scale : NoiseParams :=
  with_scale_offset
    (np_test (Z.lor NOISE_FLAG_DEFAULTS NOISE_FLAG_ABSVALUE))
    (JS.of_Z (-1)) JS.zero.

(** A normal number [v] with 2^-1021 <= |v| < 2^1023: doubling it
    neither overflows nor starts from the lowest binade. *)
Definition in_doubling_range (v : num) : bool :=
  match v with
  | S754_finite _ m e =>
      (Zpos (digits2_pos m) =? JS.prec) && (-1074 <? e)
      && (e <? JS.emax - JS.prec)
  | _ => false
  end.

(** ** The graph of src/utils.js: data model

    A node carries its [type] tag together with the parameter record
    that [addNode] seeds for that type (the enumeration of the data
    model).  Node ids are the positive integers handed out by
    [nextNodeId]; strings are sequences of 8-bit code units. *)

Inductive PortType := FLOAT | TERRAIN.

Record Port := {
  port_id : string;
  port_name : string;
  port_type : PortType
}.

Inductive Operator := OpLt | OpLe | OpGt | OpGe | OpEq | OpNe.

Record MandelbrotParams := {
  mb_scale : num;
  mb_offsetX : num;
  mb_offsetZ : num;
  mb_steps : Z;
  mb_remap : bool;
  mb_remapMin : num;
  mb_remapMax : num
}.

Record GaussianParams := {
  centerX : num; centerY : num; centerZ : num; spread : num
}.

Record RemapParams := {
  inMin : num; inMax : num; outMin : num; outMax : num
}.

Record DistanceParams := { pointX : num; pointY : num; pointZ : num }.

Record CompareParams := {
  operator : Operator;
  useTrue : num;
  useFalse : num
}.

Record TerrainParams := {
  terrain_name : string;
  terrain_type : string;
  terrain_color : string
}.

Inductive NodeKind :=
| Noise2d (p : NoiseParams)
| Noise3d (p : NoiseParams)
| Mandelbrot (p : MandelbrotParams)
| Lerp (power : num)
| Coserp
| Add
| Multiply
| Subtract
| Abs
| Gaussian (p : GaussianParams)
| Remap (p : RemapParams)
| Position
| Distance (p : DistanceParams)
| Compare (p : CompareParams)
| TerrainType (p : TerrainParams)
| TerrainOutput.

(** The [type] string of a node. *)
Definition node_type_name (k : NodeKind) : string :=
  match k with
  | Noise2d _ => "noise2d"
  | Noise3d _ => "noise3d"
  | Mandelbrot _ => "mandelbrot"
  | Lerp _ => "lerp"
  | Coserp => "coserp"
  | Add => "add"
  | Multiply => "multiply"
  | Subtract => "subtract"
  | Abs => "abs"
  | Gaussian _ => "gaussian"
  | Remap _ => "remap"
  | Position => "position"
  | Distance _ => "distance"
  | Compare _ => "compare"
  | TerrainType _ => "terrain-type"
  | TerrainOutput => "terrain-output"
  end.

Definition is_terrain_output (k : NodeKind) : bool :=
  match k with TerrainOutput => true | _ => false end.

Definition is_compare (k : NodeKind) : bool :=
  match k with Compare _ => true | _ => false end.

Record Node := {
  node_id : positive;
  node_kind : NodeKind;
  node_x : num;
  node_y : num;
  inputs : list Port;
  outputs : list Port
}.

Record Connection := { from : string; to : string }.

Record NodeGraph := {
  nodes : list Node;
  connections : list Connection;
  nextNodeId : positive
}.

(** The constructor of the class. *)
Definition emptyGraph : NodeGraph :=
  {| nodes := []; connections := []; nextNodeId := 1%positive |}.

(** The template literal [`${id}_suffix`]. *)
Definition portId (id : positive) (suffix : string) : string :=
  pretty id +:+ "_" +:+ suffix.

Definition mkPort (id : positive) (suffix name : string) (t : PortType)
  : Port :=
  {| port_id := portId id suffix; port_name := name; port_type := t |}.

(** The node types [addNode] knows. *)
Inductive NodeTypeTag :=
| T_noise2d | T_noise3d | T_mandelbrot | T_lerp | T_coserp | T_add
| T_multiply | T_subtract | T_abs | T_gaussian | T_remap | T_position
| T_distance | T_compare | T_terrain_type | T_terrain_output.

(** The parameters [addNode] seeds; [rnd] stands for
    [Math.floor(Math.random() * 100000)]. *)
Definition defaultNoise (rnd : num) (spreadZ : num) : NoiseParams :=
  {| np_offset := JS.zero; np_scale := JS.one;
     np_spread_x := JS.of_Z 250; np_spread_y := JS.of_Z 250;
     np_spread_z := spreadZ; np_seed := rnd; np_octaves := 3;
     np_persist := (#6 / #10)%js; np_lacunarity := JS.of_Z 2;
     np_flags := NOISE_FLAG_DEFAULTS |}.

Definition defaultKind (t : NodeTypeTag) (rnd : num) : NodeKind :=
  match t with
  | T_noise2d => Noise2d (defaultNoise rnd JS.nan)
  | T_noise3d => Noise3d (defaultNoise rnd (JS.of_Z 250))
  | T_mandelbrot =>
      Mandelbrot
        {| mb_scale := JS.of_Z 10000000;
           mb_offsetX := (#(-1415) / #2000)%js;
           mb_offsetZ := (#(-706) / #2000)%js;
           mb_steps := 150; mb_remap := true;
           mb_remapMin := JS.zero; mb_remapMax := JS.one |}
  | T_lerp => Lerp JS.one
  | T_coserp => Coserp
  | T_add => Add
  | T_multiply => Multiply
  | T_subtract => Subtract
  | T_abs => Abs
  | T_gaussian =>
      Gaussian {| centerX := JS.zero; centerY := JS.zero;
                  centerZ := JS.zero; spread := JS.of_Z 100 |}
  | T_remap =>
      Remap {| inMin := JS.zero; inMax := JS.one;
               outMin := JS.zero; outMax := JS.one |}
  | T_position => Position
  | T_distance =>
      Distance {| pointX := JS.zero; pointY := JS.zero; pointZ := JS.zero |}
  | T_compare =>
      Compare {| operator := OpLt; useTrue := JS.one; useFalse := JS.zero |}
  | T_terrain_type =>
      TerrainType {| terrain_name := "Stone"; terrain_type := "solid";
                     terrain_color := "#888888" |}
  | T_terrain_output => TerrainOutput
  end.

Definition defaultInputs (t : NodeTypeTag) (id : positive) : list Port :=
  match t with
  | T_lerp | T_coserp =>
      [mkPort id "in1" "A" FLOAT; mkPort id "in2" "B" FLOAT;
       mkPort id "factor" "Factor" FLOAT]
  | T_add | T_multiply | T_subtract =>
      [mkPort id "in1" "A" FLOAT; mkPort id "in2" "B" FLOAT]
  | T_abs | T_remap => [mkPort id "in" "Value" FLOAT]
  | T_gaussian | T_distance =>
      [mkPort id "x" "X" FLOAT; mkPort id "y" "Y" FLOAT;
       mkPort id "z" "Z" FLOAT]
  | T_compare =>
      [mkPort id "in1" "A" FLOAT; mkPort id "in2" "B" FLOAT;
       mkPort id "useTrue" "If True" TERRAIN;
       mkPort id "useFalse" "If False" TERRAIN]
  | T_terrain_output => [mkPort id "in" "Terrain" TERRAIN]
  | _ => []
  end.

Definition defaultOutputs (t : NodeTypeTag) (id : positive) : list Port :=
  match t with
  | T_noise2d | T_noise3d | T_mandelbrot => [mkPort id "out" "Value" FLOAT]
  | T_lerp | T_coserp | T_add | T_multiply | T_subtract | T_abs
  | T_gaussian | T_remap => [mkPort id "out" "Result" FLOAT]
  | T_position =>
      [mkPort id "outX" "X" FLOAT; mkPort id "outY" "Y" FLOAT;
       mkPort id "outZ" "Z" FLOAT]
  | T_distance => [mkPort id "out" "Distance" FLOAT]
  | T_compare => [mkPort id "out" "Result" TERRAIN]
  | T_terrain_type => [mkPort id "out" "Terrain" TERRAIN]
  | T_terrain_output => []
  end.

Definition addNode (t : NodeTypeTag) (x y rnd : num) (g : NodeGraph)
  : Node * NodeGraph :=
  let id := nextNodeId g in
  let node :=
    {| node_id := id; node_kind := defaultKind t rnd;
       node_x := x; node_y := y;
       inputs := defaultInputs t id; outputs := defaultOutputs t id |} in
  (node,
   {| nodes := nodes g ++ [node]; connections := connections g;
      nextNodeId := Pos.succ id |}).

(** ** String helpers of the host language *)

(** [s.startsWith(p)]. *)
Fixpoint startsWith (s p : string) {struct p} : bool :=
  match p with
  | EmptyString => true
  | String b p' =>
      match s with
      | EmptyString => false
      | String a s' => Ascii.eqb a b && startsWith s' p'
      end
  end.

(** [s.split('_')]: [None] when the array has fewer than two parts (no
    underscore in [s]), otherwise the first part. *)
Fixpoint first_part (s : string) : option string :=
  match s with
  | EmptyString => None
  | String c s' =>
      if Ascii.eqb c "_" then Some EmptyString
      else option_map (String c) (first_part s')
  end.

Definition is_whitespace (c : ascii) : bool :=
  let n := nat_of_ascii c in
  existsb (Nat.eqb n) [9; 10; 11; 12; 13; 32; 160]%nat.

Fixpoint skip_whitespace (s : string) : string :=
  match s with
  | String c s' => if is_whitespace c then skip_whitespace s' else s
  | EmptyString => s
  end.

Definition digit_of (c : ascii) : option Z :=
  let n := Z.of_nat (nat_of_ascii c) in
  if (48 <=? n) && (n <=? 57) then Some (n - 48) else None.

(** The longest prefix of decimal digits, as an integer; [acc] is the
    value read so far, [None] before the first digit. *)
Fixpoint parse_digits (s : string) (acc : option Z) : option Z :=
  match s with
  | String c s' =>
      match digit_of c with
      | Some d => parse_digits s' (Some (10 * default 0 acc + d))
      | None => acc
      end
  | EmptyString => acc
  end.

(** [parseInt(s, 10)]; [None] is NaN. *)
Definition parseInt (s : string) : option Z :=
  match skip_whitespace s with
  | String "-" s' => option_map Z.opp (parse_digits s' None)
  | String "+" s' => parse_digits s' None
  | s' => parse_digits s' None
  end.

(** ** The graph of src/utils.js: structural operations *)

(** [this.nodes.some(node => node.id === id)] and
    [this.nodes.find(n => n.id === id)]. *)
Definition hasNode (g : NodeGraph) (id : positive) : bool :=
  existsb (fun n => Pos.eqb (node_id n) id) (nodes g).

Definition findNode (g : NodeGraph) (id : positive) : option Node :=
  List.find (fun n => Pos.eqb (node_id n) id) (nodes g).

Definition getNodeIdFromPortId (g : NodeGraph) (p : string)
  : option positive :=
  match first_part p with
  | None => None
  | Some part =>
      match parseInt part with
      | Some (Zpos nodeId) => if hasNode g nodeId then Some nodeId else None
      | _ => None
      end
  end.

Definition same_id (a b : option positive) : bool :=
  bool_decide (a = b).

(** The loop of [hasPath] over the outgoing connections; [visit] is the
    recursive call.  The set [visited] is the one object all calls
    share, so it is threaded through them: the result is the boolean and
    the set as the loop leaves it. *)
Fixpoint each_connection (g : NodeGraph)
  (visit : option positive -> gset (option positive)
           -> bool * gset (option positive))
  (endNodeId : positive) (l : list Connection)
  (visited : gset (option positive)) : bool * gset (option positive) :=
  match l with
  | [] => (false, visited)
  | conn :: l' =>
      let toNodeId := getNodeIdFromPortId g (to conn) in
      if same_id toNodeId (Some endNodeId) then (true, visited)
      else
        let '(found, visited) := visit toNodeId visited in
        if found then (true, visited)
        else each_connection g visit endNodeId l' visited
  end.

(** [hasPath], by recursion on a bound [fuel] of the nesting depth. *)
Fixpoint hasPath_fuel (fuel : nat) (g : NodeGraph)
  (startNodeId : option positive) (endNodeId : positive)
  (visited : gset (option positive)) : bool * gset (option positive) :=
  match fuel with
  | O => (false, visited)
  | S fuel' =>
      if bool_decide (startNodeId ∈ visited) then (false, visited)
      else
        let visited := {[startNodeId]} ∪ visited in
        let outgoingConnections :=
          List.filter
            (fun conn => same_id (getNodeIdFromPortId g (from conn))
                           startNodeId)
            (connections g) in
        each_connection g
          (fun toNodeId visited =>
             hasPath_fuel fuel' g toNodeId endNodeId visited)
          endNodeId outgoingConnections visited
  end.

(** Every call that goes past the [visited] test adds an id that was not
    in the set, and the ids are those of the nodes or [null]: the nesting
    depth is at most the number of nodes plus one
    (see [hasPath_fuel_enough]). *)
Definition hasPath (g : NodeGraph) (startNodeId : option positive)
  (endNodeId : positive) (visited : gset (option positive)) : bool :=
  fst (hasPath_fuel (S (S (length (nodes g)))) g startNodeId endNodeId
         visited).

Definition wouldCreateCycle (g : NodeGraph) (fromPortId toPortId : string)
  : bool :=
  match getNodeIdFromPortId g fromPortId,
        getNodeIdFromPortId g toPortId with
  | Some fromNodeId, Some toNodeId =>
      if Pos.eqb fromNodeId toNodeId then true
      else hasPath g (Some toNodeId) fromNodeId ∅
  | _, _ => false
  end.

Definition set_connections (g : NodeGraph) (cs : list Connection)
  : NodeGraph :=
  {| nodes := nodes g; connections := cs; nextNodeId := nextNodeId g |}.

(** [addConnection]: the returned boolean and the graph as the call
    leaves it. *)
Definition addConnection (g : NodeGraph) (fromPortId toPortId : string)
  : bool * NodeGraph :=
  let exists_ :=
    existsb (fun conn => String.eqb (to conn) toPortId) (connections g) in
  let g :=
    if exists_
    then set_connections g
           (List.filter (fun conn => negb (String.eqb (to conn) toPortId))
              (connections g))
    else g in
  if wouldCreateCycle g fromPortId toPortId then (false, g)
  else
    (true,
     set_connections g
       (connections g ++ [{| from := fromPortId; to := toPortId |}])).

(** [removeNode]: the returned record ([node], [connections]) and the
    graph as the call leaves it. *)
Definition removeNode (g : NodeGraph) (nodeId : positive)
  : (option Node * list Connection) * NodeGraph :=
  match findNode g nodeId with
  | None => ((None, []), g)
  | Some node =>
      if is_terrain_output (node_kind node) then ((None, []), g)
      else
        let prefix := pretty nodeId +:+ "_" in
        let connectionsToRemove :=
          List.filter
            (fun conn => startsWith (from conn) prefix
                         || startsWith (to conn) prefix)
            (connections g) in
        let kept :=
          List.filter
            (fun conn => negb (startsWith (from conn) prefix)
                         && negb (startsWith (to conn) prefix))
            (connections g) in
        ((Some node, connectionsToRemove),
         {| nodes :=
              List.filter (fun n => negb (Pos.eqb (node_id n) nodeId))
                (nodes g);
            connections := kept;
            nextNodeId := nextNodeId g |})
  end.

(** [l.filter((a, index) => keep(a, index))], the indices counted from
    [index]. *)
Fixpoint filter_index {A} (keep : A -> Z -> bool) (index : Z) (l : list A)
  : list A :=
  match l with
  | [] => []
  | a :: l' =>
      if keep a index then a :: filter_index keep (index + 1) l'
      else filter_index keep (index + 1) l'
  end.

(** The argument of [removeConnection]: a number (the legacy index, the
    form the editor passes) or an object with the properties [from] and
    [to].  A number that is no integer equals no index, as an integer
    out of range does. *)
Inductive ConnectionRef :=
| ByIndex (index : Z)
| ByProperties (connection : Connection).

(** A string is truthy when it is not empty. *)
Definition truthy (s : string) : bool :=
  negb (String.eqb s EmptyString).

(** [removeConnection]; the third branch only warns. *)
Definition removeConnection (g : NodeGraph) (connection : ConnectionRef)
  : NodeGraph :=
  match connection with
  | ByIndex i =>
      set_connections g
        (filter_index (fun _ index => negb (Z.eqb index i)) 0
           (connections g))
  | ByProperties c =>
      if truthy (from c) && truthy (to c)
      then
        set_connections g
          (List.filter
             (fun conn => negb (String.eqb (from conn) (from c)
                                && String.eqb (to conn) (to c)))
             (connections g))
      else g
  end.

(** The two removals by port: the removed connections and the graph as
    the call leaves it. *)

Definition removeConnectionsToPort (g : NodeGraph) (p : string)
  : list Connection * NodeGraph :=
  (List.filter (fun conn => String.eqb (to conn) p) (connections g),
   set_connections g
     (List.filter (fun conn => negb (String.eqb (to conn) p))
        (connections g))).

Definition removeConnectionsFromPort (g : NodeGraph) (p : string)
  : list Connection * NodeGraph :=
  (List.filter (fun conn => String.eqb (from conn) p) (connections g),
   set_connections g
     (List.filter (fun conn => negb (String.eqb (from conn) p))
        (connections g))).

(** ** Validation and the export gate *)

Definition getOutputNode (g : NodeGraph) : option Node :=
  List.find (fun node => is_terrain_output (node_kind node)) (nodes g).

Definition findConnectionTo (g : NodeGraph) (p : string)
  : option Connection :=
  List.find (fun conn => String.eqb (to conn) p) (connections g).

(** The body of the loop over the inputs of a node in
    [findConnectedNodes]; [visit] is the recursive call. *)
Definition visit_input (g : NodeGraph)
  (visit : positive -> gset positive -> gset positive)
  (usedNodes : gset positive) (input : Port) : gset positive :=
  match findConnectionTo g (port_id input) with
  | Some conn =>
      match getNodeIdFromPortId g (from conn) with
      | Some fromNodeId => visit fromNodeId usedNodes
      | None => usedNodes
      end
  | None => usedNodes
  end.

(** [findConnectedNodes], by recursion on a bound of the nesting depth;
    [usedNodes] is the set the calls share, returned as the call leaves
    it. *)
Fixpoint findConnectedNodes_fuel (fuel : nat) (g : NodeGraph)
  (nodeId : positive) (usedNodes : gset positive) : gset positive :=
  match fuel with
  | O => usedNodes
  | S fuel' =>
      if bool_decide (nodeId ∈ usedNodes) then usedNodes
      else
        let usedNodes := {[nodeId]} ∪ usedNodes in
        match findNode g nodeId with
        | None => usedNodes
        | Some node =>
            fold_left (visit_input g (findConnectedNodes_fuel fuel' g))
              (inputs node) usedNodes
        end
  end.

(** Every call past the membership test adds the id of a node that was
    not in the set: the nesting depth is at most the number of nodes
    (see [usedNodesOf_reaches]). *)
Definition findConnectedNodes (g : NodeGraph) (nodeId : positive)
  (usedNodes : gset positive) : gset positive :=
  findConnectedNodes_fuel (S (length (nodes g))) g nodeId usedNodes.

(** The object [validateGraph] returns: it has the two fields [valid]
    and [errors], and no other. *)
Record ValidationResult := {
  valid : bool;
  errors : list string
}.

Definition msg_no_output : string :=
  "No terrain output node found in the graph".
Definition msg_output_unconnected : string :=
  "Terrain output node is not connected to any terrain source".
Definition msg_disconnected_input (node : Node) (input : Port) : string :=
  "Node " +:+ pretty (node_id node) +:+ " ("
  +:+ node_type_name (node_kind node) +:+ ") has disconnected input: "
  +:+ port_name input.
Definition msg_not_connected (node : Node) : string :=
  "Node " +:+ pretty (node_id node) +:+ " ("
  +:+ node_type_name (node_kind node) +:+ ") is not connected to the output".

(** The errors of the first check.  The callback of [find] reads
    [outputNode.inputs[0].id]: when the node has no input, that throws
    as soon as the callback runs, that is, unless there is no connection
    at all.  [None] is the exception. *)
Definition outputErrors (g : NodeGraph) : option (list string) :=
  match getOutputNode g with
  | None => Some [msg_no_output]
  | Some outputNode =>
      match inputs outputNode with
      | [] =>
          match connections g with
          | [] => Some [msg_output_unconnected]
          | _ :: _ => None
          end
      | input :: _ =>
          match findConnectionTo g (port_id input) with
          | None => Some [msg_output_unconnected]
          | Some _ => Some []
          end
      end
  end.

Definition is_optional_input (node : Node) (input : Port) : bool :=
  is_compare (node_kind node)
  && (String.eqb (port_name input) "If True"
      || String.eqb (port_name input) "If False").

Definition disconnectedErrors (g : NodeGraph) : list string :=
  flat_map
    (fun node =>
       flat_map
         (fun input =>
            if is_optional_input node input then []
            else if existsb (fun conn => String.eqb (to conn) (port_id input))
                      (connections g)
                 then []
                 else [msg_disconnected_input node input])
         (inputs node))
    (nodes g).

Definition usedNodesOf (g : NodeGraph) : gset positive :=
  match getOutputNode g with
  | Some outputNode => findConnectedNodes g (node_id outputNode) ∅
  | None => ∅
  end.

Definition is_unused (g : NodeGraph) (node : Node) : bool :=
  negb (bool_decide (node_id node ∈ usedNodesOf g))
  && negb (is_terrain_output (node_kind node)).

Definition unusedErrors (g : NodeGraph) : list string :=
  flat_map
    (fun node => if is_unused g node then [msg_not_connected node] else [])
    (nodes g).

(** [validateGraph]; [None] when it throws. *)
Definition validateGraph (g : NodeGraph) : option ValidationResult :=
  match outputErrors g with
  | None => None
  | Some e1 =>
      let errors := e1 ++ disconnectedErrors g ++ unusedErrors g in
      Some {| valid := match errors with [] => true | _ => false end;
              errors := errors |}
  end.

(** The first statement of [exportToLua], the validation gate: either
    the call returns [{ code: null, valid: false, errors }] with the
    errors of the validation, or it goes on to build the text.  The rest
    of the function is not modelled: past the gate it can still throw
    (it reads [inputs[2].id] and [inputs[3].id] of every compare node)
    and it can still answer [valid: false] with the errors of
    [checkLuaSyntax].  [None] when [validateGraph] throws. *)
Inductive ExportOutcome :=
| ExportRefused (errors : list string)
| ExportPastValidation.

Definition exportToLua (g : NodeGraph) : option ExportOutcome :=
  match validateGraph g with
  | None => None
  | Some validationResult =>
      if negb (valid validationResult)
      then Some (ExportRefused (errors validationResult))
      else Some ExportPastValidation
  end.

(** ** The evaluator *)

(** Values of the host language that evaluation produces: numbers,
    strings (the operator [+] of an [add] node concatenates when an
    operand is not a number) and the object literals of the source. *)
Inductive Obj :=
| ObjTerrain (name type color : string)
| ObjDefault (type color : string)
| ObjPosition (x y z : num).

Inductive Value :=
| VNum (v : num)
| VStr (s : string)
| VObj (o : Obj).

(** The functions of the host's library that the source calls and whose
    results the language standard leaves to the implementation, or that
    convert between numbers and strings. *)
Record Host := {
  Math_exp : num -> num;
  Math_cos : num -> num;
  Math_pow : num -> num -> num;
  Number_toString : num -> string;
  String_toNumber : string -> num
}.

(** [Math.PI], the binary64 number nearest to pi. *)
Definition Math_PI : num := S754_finite false 7074237752028440 (-51).

Definition neg (v : num) : num := SFopp v.

Section Evaluator.

Variable host : Host.
Variable g : NodeGraph.

Definition object_string : string := "[object Object]".

Definition ToString (v : Value) : string :=
  match v with
  | VNum f => Number_toString host f
  | VStr s => s
  | VObj _ => object_string
  end.

(** ToNumber; an object converts to the string [object_string], which
    is no numeric literal. *)
Definition ToNumber (v : Value) : num :=
  match v with
  | VNum f => f
  | VStr s => String_toNumber host s
  | VObj _ => JS.nan
  end.

Definition is_number (v : Value) : bool :=
  match v with VNum _ => true | _ => false end.

(** The operator [+]. *)
Definition js_add (a b : Value) : Value :=
  match a, b with
  | VNum x, VNum y => VNum (x + y)%js
  | _, _ => VStr (ToString a +:+ ToString b)
  end.

(** The abstract relational comparison [a < b]; [None] is
    "undefined". *)
Definition less_than (a b : Value) : option bool :=
  if is_number a || is_number b
  then
    match SFcompare (ToNumber a) (ToNumber b) with
    | Some Lt => Some true
    | Some _ => Some false
    | None => None
    end
  else Some (String.ltb (ToString a) (ToString b)).

Definition js_lt (a b : Value) : bool := default false (less_than a b).
Definition js_gt (a b : Value) : bool := default false (less_than b a).
Definition js_le (a b : Value) : bool :=
  match less_than b a with Some false => true | _ => false end.
Definition js_ge (a b : Value) : bool :=
  match less_than a b with Some false => true | _ => false end.

(** Strict equality; two objects are equal when they are the same
    object, and every object here is a fresh literal. *)
Definition strict_eq (a b : Value) : bool :=
  match a, b with
  | VNum x, VNum y => JS.eqb x y
  | VStr s, VStr t => String.eqb s t
  | _, _ => false
  end.

Definition applyOperator (op : Operator) (a b : Value) : bool :=
  match op with
  | OpLt => js_lt a b
  | OpLe => js_le a b
  | OpGt => js_gt a b
  | OpGe => js_ge a b
  | OpEq => strict_eq a b
  | OpNe => negb (strict_eq a b)
  end.

(** The utility functions at the end of the class. *)
Definition clamp01 (t : Value) : Value :=
  let t := if js_gt t (VNum JS.one) then VNum JS.one else t in
  if js_lt t (VNum JS.zero) then VNum JS.zero else t.

Definition lerp (a b t : Value) (power : num) : num :=
  let t := ToNumber (clamp01 t) in
  ((JS.one - t) * Math_pow host (ToNumber a) power
   + t * Math_pow host (ToNumber b) power)%js.

Definition coserp (a b t : Value) : num :=
  let t := ToNumber (clamp01 t) in
  let f := ((JS.one - Math_cos host (t * Math_PI)) / #2)%js in
  (ToNumber a * (JS.one - f) + ToNumber b * f)%js.

Definition remap (val minVal maxVal minMap maxMap : num) : num :=
  if JS.eqb minVal maxVal then minMap
  else ((val - minVal) / (maxVal - minVal) * (maxMap - minMap) + minMap)%js.

(** The first node with an output port [p], and that port. *)
Fixpoint findOutput (ns : list Node) (p : string) : option (Node * Port) :=
  match ns with
  | [] => None
  | node :: ns' =>
      match List.find (fun out => String.eqb (port_id out) p)
              (outputs node) with
      | Some output => Some (node, output)
      | None => findOutput ns' p
      end
  end.

Fixpoint findPortIn (ns : list Node) (p : string) : option Port :=
  match ns with
  | [] => None
  | node :: ns' =>
      match List.find (fun inp => String.eqb (port_id inp) p)
              (inputs node) with
      | Some input => Some input
      | None =>
          match List.find (fun out => String.eqb (port_id out) p)
                  (outputs node) with
          | Some output => Some output
          | None => findPortIn ns' p
          end
      end
  end.

Definition findPort (p : string) : option Port := findPortIn (nodes g) p.

(** Evaluation reads and updates the set [visitedPorts], one object
    shared by all calls, and may throw: a computation maps the set to
    [None] (an exception) or to a result and the set it leaves. *)
Definition Eval (A : Type) : Type :=
  gset string -> option (A * gset string).

Definition ret {A} (a : A) : Eval A := fun s => Some (a, s).
Definition throw {A} : Eval A := fun _ => None.
Definition bind {A B} (m : Eval A) (k : A -> Eval B) : Eval B :=
  fun s => match m s with Some (a, s') => k a s' | None => None end.

(** [node.inputs[i].id]: reading [id] of [undefined] throws. *)
Definition inputId (node : Node) (i : nat) : Eval string :=
  match nth_error (inputs node) i with
  | Some p => ret (port_id p)
  | None => throw
  end.

End Evaluator.

Arguments ret {A} a _.
Arguments throw {A} _.
Arguments bind {A B} m k _.

Notation "'let*' x ':=' m 'in' k" := (bind m (fun x => k))
  (at level 10, x name, m at level 100, k at level 200).

Section EvaluateGraph.

Variable host : Host.
Variable g : NodeGraph.
Variables x y z : num.

(** [evaluateNode(node, x, y, z, specificOutput, visitedPorts, depth)];
    [evaluatePort] is [this.evaluatePort] at the same [visitedPorts]
    and [depth]. *)
Definition evaluateNode (evaluatePort : string -> Eval Value)
  (node : Node) (specificOutput : Port) : Eval Value :=
  let input i := (let* p := inputId node i in evaluatePort p) in
  match node_kind node with
  | Position =>
      let out := port_id specificOutput in
      if String.eqb out (portId (node_id node) "outX") then ret (VNum x)
      else if String.eqb out (portId (node_id node) "outY")
           then ret (VNum y)
      else if String.eqb out (portId (node_id node) "outZ")
           then ret (VNum z)
      else ret (VObj (ObjPosition x y z))
  | Noise2d np => ret (VNum (NoisePerlin2D np x z JS.zero))
  | Noise3d np => ret (VNum (NoisePerlin3D np x y z JS.zero))
  | Mandelbrot p =>
      let value :=
        mandelbrot (x / mb_scale p + mb_offsetX p)%js
          (z / mb_scale p + mb_offsetZ p)%js (mb_steps p) in
      if mb_remap p
      then ret (VNum (remap value JS.zero (JS.of_Z (mb_steps p))
                        (mb_remapMin p) (mb_remapMax p)))
      else ret (VNum value)
  | Lerp power =>
      let* a := input 0%nat in
      let* b := input 1%nat in
      let* factor := input 2%nat in
      ret (VNum (lerp host a b factor power))
  | Coserp =>
      let* a := input 0%nat in
      let* b := input 1%nat in
      let* factor := input 2%nat in
      ret (VNum (coserp host a b factor))
  | Add =>
      let* a := input 0%nat in
      let* b := input 1%nat in
      ret (js_add host a b)
  | Multiply =>
      let* a := input 0%nat in
      let* b := input 1%nat in
      ret (VNum (ToNumber host a * ToNumber host b)%js)
  | Subtract =>
      let* a := input 0%nat in
      let* b := input 1%nat in
      ret (VNum (ToNumber host a - ToNumber host b)%js)
  | Abs =>
      let* value := input 0%nat in
      ret (VNum (JS.abs (ToNumber host value)))
  | Gaussian p =>
      let* px := input 0%nat in
      let* py := input 1%nat in
      let* pz := input 2%nat in
      let dx := (ToNumber host px - centerX p)%js in
      let dy := (ToNumber host py - centerY p)%js in
      let dz := (ToNumber host pz - centerZ p)%js in
      let distSq := (dx * dx + dy * dy + dz * dz)%js in
      let spreadSq := (spread p * spread p)%js in
      ret (VNum (Math_exp host (neg distSq / (#2 * spreadSq))%js))
  | Remap p =>
      let* value := input 0%nat in
      ret (VNum (remap (ToNumber host value)
                   (inMin p) (inMax p) (outMin p) (outMax p)))
  | Distance p =>
      let* px := input 0%nat in
      let* py := input 1%nat in
      let* pz := input 2%nat in
      let dx := (ToNumber host px - pointX p)%js in
      let dy := (ToNumber host py - pointY p)%js in
      let dz := (ToNumber host pz - pointZ p)%js in
      ret (VNum (JS.sqrt (dx * dx + dy * dy + dz * dz)%js))
  | Compare p =>
      let* a := input 0%nat in
      let* b := input 1%nat in
      let result := applyOperator host (operator p) a b in
      let fallback := VNum (if result then useTrue p else useFalse p) in
      if (2 <? length (inputs node))%nat
      then
        (* the callback of [find] reads [node.inputs[2].id] or
           [node.inputs[3].id]: it runs once per connection *)
        match nth_error (inputs node) (if result then 2 else 3)%nat with
        | Some branch =>
            match findConnectionTo g (port_id branch) with
            | Some conn => evaluatePort (from conn)
            | None => ret fallback
            end
        | None =>
            match connections g with
            | [] => ret fallback
            | _ :: _ => throw
            end
        end
      else ret fallback
  | TerrainType p =>
      ret (VObj (ObjTerrain (terrain_name p) (terrain_type p)
                   (terrain_color p)))
  | TerrainOutput => ret (VNum JS.zero)
  end.

Definition MAX_RECURSION_DEPTH : nat := 100.

(** [evaluatePort] by recursion on [fuel], the number of values of
    [depth] left before the guard [depth > MAX_RECURSION_DEPTH] fires:
    [fuel = MAX_RECURSION_DEPTH + 1 - depth].  Every recursive call of
    the source is made at [depth + 1]. *)
Fixpoint evaluatePort_fuel (fuel : nat) (p : string) : Eval Value :=
  match fuel with
  | O => ret (VNum JS.zero)
  | S fuel' =>
      fun visitedPorts =>
        if bool_decide (p ∈ visitedPorts)
        then Some (VNum JS.zero, visitedPorts)
        else
          let visitedPorts := {[p]} ∪ visitedPorts in
          match findOutput (nodes g) p with
          | Some (node, output) =>
              evaluateNode (evaluatePort_fuel fuel') node output
                (visitedPorts ∖ {[p]})
          | None =>
              match findConnectionTo g p with
              | Some conn => evaluatePort_fuel fuel' (from conn) visitedPorts
              | None =>
                  match findPort g p with
                  | Some {| port_type := TERRAIN |} =>
                      Some (VObj (ObjDefault "air" "#aaaaff"), visitedPorts)
                  | _ => Some (VNum JS.zero, visitedPorts)
                  end
              end
          end
  end.

Definition evaluatePort (p : string) (visitedPorts : gset string)
  (depth : nat) : option (Value * gset string) :=
  evaluatePort_fuel (S MAX_RECURSION_DEPTH - depth) p visitedPorts.

(** [evaluateTerrain]; [None] is [null].  The [catch] turns every
    exception into [null]. *)
Definition evaluateTerrain : option Value :=
  match getOutputNode g with
  | None => None
  | Some outputNode =>
      match inputs outputNode with
      | [] => None
      | input :: _ =>
          match findConnectionTo g (port_id input) with
          | None => None
          | Some _ =>
              match evaluatePort (port_id input) ∅ 0 with
              | Some (v, _) => Some v
              | None => None
              end
          end
      end
  end.

End EvaluateGraph.

(** ** Reachability, as the validation reads the graph

    [feeds g a b]: an input port of the node with id [b] is the target of
    a connection, and the source port of the first such connection is
    named after the node [a]. *)
Definition feeds (g : NodeGraph) (a b : positive) : Prop :=
  exists node input conn,
    findNode g b = Some node /\ In input (inputs node) /\
    findConnectionTo g (port_id input) = Some conn /\
    getNodeIdFromPortId g (from conn) = Some a.

(** [reaches g start a]: following connections backward from the node
    [start] leads to the node [a]. *)
Inductive reaches (g : NodeGraph) (start : positive) : positive -> Prop :=
| reaches_start : reaches g start start
| reaches_step (a b : positive) :
    reaches g start b -> feeds g a b -> reaches g start a.

(** The ids of the nodes, and the values [getNodeIdFromPortId] can
    return. *)
Definition nodeIds (g : NodeGraph) : gset positive :=
  list_to_set (map node_id (nodes g)).

Definition resolvedIds (g : NodeGraph) : gset (option positive) :=
  list_to_set (None :: map (fun n => Some (node_id n)) (nodes g)).

(** ** Graphs built by the mutators *)

(** [owns n p]: [p] is the id of one of the ports of [n]. *)
Definition owns (n : Node) (p : string) : bool :=
  existsb (fun port => String.eqb (port_id port) p) (inputs n ++ outputs n).

(** [p] has the form [`${id}_...`]. *)
Definition named_after (id : positive) (p : string) : Prop :=
  exists suffix, p = portId id suffix.

(** Every port of [n] is named [`${n.id}_...`], as [addNode] names it. *)
Definition ports_named (n : Node) : bool :=
  forallb (fun port => startsWith (port_id port) (pretty (node_id n) +:+ "_"))
    (inputs n ++ outputs n).

Fixpoint distinct_ids (ns : list Node) : bool :=
  match ns with
  | [] => true
  | n :: ns' =>
      negb (existsb (fun m => Pos.eqb (node_id m) (node_id n)) ns')
      && distinct_ids ns'
  end.

(** The invariant of the node list: ids are distinct and below
    [nextNodeId], ports are named after their node. *)
Definition well_formed (g : NodeGraph) : bool :=
  distinct_ids (nodes g)
  && forallb (fun n => Pos.ltb (node_id n) (nextNodeId g)) (nodes g)
  && forallb ports_named (nodes g).

(** [n] has the input ports that [evaluateNode] reads for its type. *)
Definition arity_ok (n : Node) : bool :=
  match node_kind n with
  | Lerp _ | Coserp | Gaussian _ | Distance _ =>
      (3 <=? length (inputs n))%nat
  | Add | Multiply | Subtract | Compare _ => (2 <=? length (inputs n))%nat
  | Abs | Remap _ => (1 <=? length (inputs n))%nat
  | _ => true
  end
  && negb (is_compare (node_kind n) && (length (inputs n) =? 3)%nat).

(** ** Example graphs *)

Definition addNode' (t : NodeTypeTag) (g : NodeGraph) : NodeGraph :=
  snd (addNode t JS.zero JS.zero JS.zero g).

Definition connect (fromPortId toPortId : string) (g : NodeGraph)
  : NodeGraph :=
  snd (addConnection g fromPortId toPortId).

(** A terrain output (node 1) fed by a compare node (node 2) whose
    inputs are all unconnected. *)
Definition graph_compare_only : NodeGraph :=
  connect "2_out" "1_in"
    (addNode' T_compare (addNode' T_terrain_output emptyGraph)).

(** Two [add] nodes, the output of node 2 wired to input A of node 1. *)
Definition graph_two_adds : NodeGraph :=
  connect "2_out" "1_in1" (addNode' T_add (addNode' T_add emptyGraph)).

(** Three [add] nodes with [1_out -> 2_in1] and [3_out -> 1_in1]: there
    is a path from node 1 to node 2, and input A of node 1 is fed by
    node 3. *)
Definition graph_three_adds : NodeGraph :=
  connect "3_out" "1_in1"
    (connect "1_out" "2_in1"
       (addNode' T_add (addNode' T_add (addNode' T_add emptyGraph)))).

(** A terrain output (node 1) fed by a terrain type (node 2), and a
    second terrain type (node 3) wired to nothing. *)
Definition graph_orphan : NodeGraph :=
  addNode' T_terrain_type
    (connect "2_out" "1_in"
       (addNode' T_terrain_type (addNode' T_terrain_output emptyGraph))).

(** Nodes 1 and 12 among twelve [abs] nodes, with
    [1_out -> 12_in] and [12_out -> 3_in]. *)
Definition graph_twelve : NodeGraph :=
  connect "12_out" "3_in"
    (connect "1_out" "12_in"
       (Nat.iter 12 (addNode' T_abs) emptyGraph)).

(** Node 3 of [graph_orphan] and the validation result of that graph. *)
Definition orphan_node : Node :=
  fst (addNode T_terrain_type JS.zero JS.zero JS.zero
         (connect "2_out" "1_in"
            (addNode' T_terrain_type (addNode' T_terrain_output emptyGraph)))).

Definition orphan_result : ValidationResult :=
  {| valid := false;
     errors := ["Node 3 (terrain-type) is not connected to the output"] |}.

(** The first node [addNode] makes in [graph_twelve]. *)
Definition abs_node_1 : Node :=
  fst (addNode T_abs JS.zero JS.zero JS.zero emptyGraph).

(** A terrain output (node 1), a chain of [k] compare nodes
    (nodes 2 .. k+1) each feeding the "If False" input of the one
    before, and a terrain type (node k+2) feeding the last of them.  The
    links are made from the far end of the chain to the output. *)
Fixpoint chain_links (first : positive) (k : nat) (g : NodeGraph)
  : NodeGraph :=
  match k with
  | O => g
  | S k' =>
      connect (portId (Pos.succ first) "out") (portId first "useFalse")
        (chain_links (Pos.succ first) k' g)
  end.

Definition graph_chain (k : nat) : NodeGraph :=
  connect "2_out" "1_in"
    (chain_links 2 k
       (addNode' T_terrain_type
          (Nat.iter k (addNode' T_compare)
             (addNode' T_terrain_output emptyGraph)))).

(** A host for running the example graphs: they contain no lerp, coserp
    or gaussian node and add no strings, so none of its functions is
    called. *)
Definition idle_host : Host :=
  {| Math_exp := fun _ => JS.nan;
     Math_cos := fun _ => JS.nan;
     Math_pow := fun _ _ => JS.nan;
     Number_toString := fun _ => EmptyString;
     String_toNumber := fun _ => JS.nan |}.

(** A value is a terrain sample when it is an object with a material
    kind and a colour. *)
Definition is_terrain_sample (v : Value) : bool :=
  match v with
  | VObj (ObjTerrain _ _ _) | VObj (ObjDefault _ _) => true
  | _ => false
  end.

(** ** src/index.html: how the editor connects ports *)

(** [s.split('_')[0]]: the text before the first underscore, all of [s]
    when it has none. *)
Definition split0 (s : string) : string := default s (first_part s).

(** [this.nodeGraph.nodes.find(n => n.id === id)] for the number
    [parseInt] returned. *)
Definition nodeById (g : NodeGraph) (id : option Z) : option Node :=
  match id with
  | Some (Zpos id) => findNode g id
  | _ => None
  end.

(** [arePortsCompatible].  No port has the type ['boolean'], so the
    fourth test of the source never holds. *)
Definition arePortsCompatible (fromPort toPort : Port) : bool :=
  let is_float :=
    match port_type fromPort with FLOAT => true | _ => false end in
  let is_terrain :=
    match port_type fromPort with TERRAIN => true | _ => false end in
  let named := String.eqb (port_name toPort) in
  if match port_type fromPort, port_type toPort with
     | FLOAT, FLOAT | TERRAIN, TERRAIN => true
     | _, _ => false
     end
  then true
  else if is_terrain && named "Terrain" then true
  else if is_float
          && (named "A" || named "B" || named "Factor" || named "Value")
       then true
  else if is_terrain && (named "If True" || named "If False") then true
  else false.

(** [connectPorts]: the graph as the call leaves it. *)
Definition connectPorts (g : NodeGraph) (fromId toId : string) : NodeGraph :=
  let fromNodeId := parseInt (split0 fromId) in
  let toNodeId := parseInt (split0 toId) in
  match nodeById g fromNodeId, nodeById g toNodeId with
  | Some fromNode, Some toNode =>
      match List.find (fun p => String.eqb (port_id p) fromId)
              (outputs fromNode),
            List.find (fun p => String.eqb (port_id p) toId)
              (inputs toNode) with
      | Some fromPortObj, Some toPortObj =>
          if arePortsCompatible fromPortObj toPortObj
          then snd (addConnection g fromId toId)
          else g
      | _, _ => g
      end
  | _, _ => g
  end.

(** ** Paths of connections, as the cycle search reads them

    [edge g a b]: some connection leads from a port that resolves to [a]
    to a port that resolves to [b]; a port id that resolves to no node
    counts as the id [None], as [null] does in the source. *)
Definition edge (g : NodeGraph) (a b : option positive) : Prop :=
  exists conn,
    In conn (connections g) /\
    getNodeIdFromPortId g (from conn) = a /\
    getNodeIdFromPortId g (to conn) = b.

(** The connections between nodes of the graph, and graphs without a
    cycle of them. *)
Definition node_edge (g : NodeGraph) (a b : positive) : Prop :=
  edge g (Some a) (Some b).

Definition acyclic (g : NodeGraph) : Prop :=
  forall a, ~ tc (node_edge g) a a.

(** ** Graphs made in the editor

    The type of a node, as the tag [addNode] was called with. *)
Definition kind_tag (k : NodeKind) : NodeTypeTag :=
  match k with
  | Noise2d _ => T_noise2d
  | Noise3d _ => T_noise3d
  | Mandelbrot _ => T_mandelbrot
  | Lerp _ => T_lerp
  | Coserp => T_coserp
  | Add => T_add
  | Multiply => T_multiply
  | Subtract => T_subtract
  | Abs => T_abs
  | Gaussian _ => T_gaussian
  | Remap _ => T_remap
  | Position => T_position
  | Distance _ => T_distance
  | Compare _ => T_compare
  | TerrainType _ => T_terrain_type
  | TerrainOutput => T_terrain_output
  end.

(** [n'] is [n] with other parameters or at another place of the
    canvas: what [updateNodeParams], the parameter fields of the editor
    and dragging change. *)
Definition same_shape (n n' : Node) : Prop :=
  node_id n' = node_id n /\
  kind_tag (node_kind n') = kind_tag (node_kind n) /\
  inputs n' = inputs n /\ outputs n' = outputs n.

(** The editor changes the graph through [addNode], [connectPorts],
    [removeNode] and [removeConnection] with an index, it edits
    parameters and positions, and it clears the graph (which gives
    [emptyGraph]); the other removals of connections are included. *)
Inductive Edited : NodeGraph -> Prop :=
| Edited_empty : Edited emptyGraph
| Edited_addNode t x y rnd g :
    Edited g -> Edited (snd (addNode t x y rnd g))
| Edited_connectPorts fromId toId g :
    Edited g -> Edited (connectPorts g fromId toId)
| Edited_removeNode nodeId g :
    Edited g -> Edited (snd (removeNode g nodeId))
| Edited_removeConnection connection g :
    Edited g -> Edited (removeConnection g connection)
| Edited_removeConnectionsToPort p g :
    Edited g -> Edited (snd (removeConnectionsToPort g p))
| Edited_removeConnectionsFromPort p g :
    Edited g -> Edited (snd (removeConnectionsFromPort g p))
| Edited_params g ns :
    Edited g -> Forall2 same_shape (nodes g) ns ->
    Edited {| nodes := ns; connections := connections g;
              nextNodeId := nextNodeId g |}.

(** A connection joins an output port of a node of the graph to an input
    port of a node of the graph, and the two ports have the same type. *)
Definition typed_connection (g : NodeGraph) (c : Connection) : Prop :=
  exists A B output input,
    In A (nodes g) /\ In B (nodes g) /\
    In output (outputs A) /\ In input (inputs B) /\
    port_id output = from c /\ port_id input = to c /\
    port_type output = port_type input.

(** The ports of [n] are those [addNode] gives a node of its type. *)
Definition canonical (n : Node) : Prop :=
  inputs n = defaultInputs (kind_tag (node_kind n)) (node_id n) /\
  outputs n = defaultOutputs (kind_tag (node_kind n)) (node_id n).

(** No input port is the target of two connections. *)
Definition single_source (cs : list Connection) : Prop :=
  List.NoDup (map to cs).

(** What every graph made in the editor satisfies (see
    [Edited_invariant]). *)
Definition editor_invariant (g : NodeGraph) : Prop :=
  well_formed g = true /\
  (forall n, In n (nodes g) -> canonical n) /\
  (forall c, In c (connections g) -> typed_connection g c) /\
  single_source (connections g) /\
  acyclic g.
(** A graph made in the editor: a terrain output (node 1) fed by a
    terrain type (node 2). *)
Definition graph_edited : NodeGraph :=
  connectPorts
    (snd (addNode T_terrain_type JS.zero JS.zero JS.zero
            (snd (addNode T_terrain_output JS.zero JS.zero JS.zero
                    emptyGraph))))
    "2_out" "1_in".
(** A diamond: the position (node 1) feeds an [abs] node (node 2) whose
    output is wired to both inputs of an [add] node (node 3). *)
Definition graph_diamond : NodeGraph :=
  connectPorts
    (connectPorts
       (connectPorts
          (addNode' T_add (addNode' T_abs (addNode' T_position emptyGraph)))
          "1_outX" "2_in")
       "2_out" "3_in1")
    "2_out" "3_in2".
(** A computation of the evaluator only adds to [visitedPorts]. *)
Definition grows {A} (m : Eval A) : Prop :=
  forall s a s', m s = Some (a, s') -> s ⊆ s'.

(** One [abs] node, and nothing wired. *)
Definition graph_one_abs : NodeGraph := addNode' T_abs emptyGraph.

(** Two [add] nodes, and nothing wired. *)
Definition graph_two_unwired : NodeGraph :=
  addNode' T_add (addNode' T_add emptyGraph).

(** * Properties of the noise core *)

Section NoiseFacts.

(** ** Signs of binary64 results *)

Lemma not_neg_cases (v : num) :
  not_neg v <->
  match v with
  | S754_nan | S754_zero _ => True
  | S754_infinity s | S754_finite s _ _ => s = false
  end.
Proof.
  unfold not_neg, JS.ltb, SFltb, JS.zero.
  destruct v as [s|s| |s m e]; simpl; try destruct s; simpl;
    split; intros; auto; discriminate.
Qed.

Lemma binary_round_aux_not_neg (mx ex : Z) (lx : location) :
  not_neg (binary_round_aux JS.prec JS.emax false mx ex lx).
Proof.
  apply not_neg_cases. unfold binary_round_aux.
  destruct (shr_fexp JS.prec JS.emax mx ex lx) as [mrs e'].
  destruct (shr_fexp JS.prec JS.emax _ e' loc_Exact) as [mrs' e''].
  destruct (shr_m mrs'); [exact I| |exact I].
  destruct (e'' <=? JS.emax - JS.prec); reflexivity.
Qed.

Lemma abs_not_neg (v : num) : not_neg (JS.abs v).
Proof. apply not_neg_cases. destruct v; simpl; auto. Qed.

Lemma mul_not_neg (a b : num) :
  not_neg a -> not_neg b -> not_neg (a * b)%js.
Proof.
  intros Ha Hb. apply not_neg_cases in Ha, Hb.
  destruct a as [sa|sa| |sa ma ea], b as [sb|sb| |sb mb eb];
    simpl in *; subst; try (apply not_neg_cases; simpl; auto; fail).
  apply binary_round_aux_not_neg.
Qed.

Lemma add_not_neg (a b : num) :
  not_neg a -> not_neg b -> not_neg (a + b)%js.
Proof.
  intros Ha Hb. pose proof Ha as Ha'. pose proof Hb as Hb'.
  apply not_neg_cases in Ha', Hb'.
  destruct a as [sa|sa| |sa ma ea], b as [sb|sb| |sb mb eb];
    simpl in *; subst; try assumption;
    try (apply not_neg_cases; simpl; auto; fail).
  - destruct sa, sb; apply not_neg_cases; exact I.
  - unfold JS.add, SFadd. cbn [cond_Zopp].
    destruct (shl_align ma ea _) as [m1 e1], (shl_align mb eb _) as [m2 e2].
    cbn [fst]. change (Z.pos m1 + Z.pos m2) with (Z.pos (m1 + m2)).
    cbn [binary_normalize]. unfold binary_round.
    destruct (shl_align _ _ _) as [mz ez].
    apply binary_round_aux_not_neg.
Qed.

Lemma one_not_neg : not_neg JS.one.
Proof. reflexivity. Qed.

Lemma zero_not_neg : not_neg JS.zero.
Proof. reflexivity. Qed.

End NoiseFacts.

Section FractalNoise.

Variable np : NoiseParams.

Lemma octaves2D_eased_eq (x y seed : num) (k : nat) :
  forall i a f g,
    octaves2D np x y seed k i a f g =
    octaves2D_eased
      (flag_test (np_flags np)
         (Z.lor NOISE_FLAG_DEFAULTS NOISE_FLAG_EASED))
      np x y seed k i a f g.
Proof.
  induction k as [|k IH]; intros i a f g; [reflexivity|].
  cbn [octaves2D octaves2D_eased octaves3D octaves3D_eased].
  apply IH.
Qed.

Lemma octaves3D_eased_eq (x y z seed : num) (k : nat) :
  forall i a f g,
    octaves3D np x y z seed k i a f g =
    octaves3D_eased (flag_test (np_flags np) NOISE_FLAG_EASED)
      np x y z seed k i a f g.
Proof.
  induction k as [|k IH]; intros i a f g; [reflexivity|].
  cbn [octaves2D octaves2D_eased octaves3D octaves3D_eased].
  apply IH.
Qed.

Lemma NoisePerlin2D_eased_eq (x y seed : num) :
  NoisePerlin2D np x y seed =
  fractal2D_eased
    (flag_test (np_flags np) (Z.lor NOISE_FLAG_DEFAULTS NOISE_FLAG_EASED))
    np x y seed.
Proof.
  unfold NoisePerlin2D, fractal2D_eased.
  now rewrite octaves2D_eased_eq.
Qed.

Lemma NoisePerlin3D_eased_eq (x y z seed : num) :
  NoisePerlin3D np x y z seed =
  fractal3D_eased (flag_test (np_flags np) NOISE_FLAG_EASED)
    np x y z seed.
Proof.
  unfold NoisePerlin3D, fractal3D_eased.
  now rewrite octaves3D_eased_eq.
Qed.

(** The octave loops read neither [scale] nor [offset]. *)
Lemma octaves2D_scale_offset (s o x y seed : num) (k : nat) :
  forall i a f g,
    octaves2D (with_scale_offset np s o) x y seed k i a f g =
    octaves2D np x y seed k i a f g.
Proof.
  induction k as [|k IH]; intros i a f g; [reflexivity|].
  cbn [octaves2D octaves2D_eased octaves3D octaves3D_eased].
  apply IH.
Qed.

Lemma octaves3D_scale_offset (s o x y z seed : num) (k : nat) :
  forall i a f g,
    octaves3D (with_scale_offset np s o) x y z seed k i a f g =
    octaves3D np x y z seed k i a f g.
Proof.
  induction k as [|k IH]; intros i a f g; [reflexivity|].
  cbn [octaves2D octaves2D_eased octaves3D octaves3D_eased].
  apply IH.
Qed.

(** With ABSVALUE set and a persistence that is not negative, the
    accumulator of either loop never becomes negative. *)
Hypothesis Habs : flag_test (np_flags np) NOISE_FLAG_ABSVALUE = true.
Hypothesis Hpersist : not_neg (np_persist np).

Lemma octaves2D_not_neg (x y seed : num) (k : nat) :
  forall i a f g,
    not_neg a -> not_neg g -> not_neg (octaves2D np x y seed k i a f g).
Proof.
  induction k as [|k IH]; intros i a f g Ha Hg; [exact Ha|].
  cbn [octaves2D octaves3D].
  rewrite Habs. apply IH.
  - apply add_not_neg, mul_not_neg; auto using abs_not_neg.
  - now apply mul_not_neg.
Qed.

Lemma octaves3D_not_neg (x y z seed : num) (k : nat) :
  forall i a f g,
    not_neg a -> not_neg g -> not_neg (octaves3D np x y z seed k i a f g).
Proof.
  induction k as [|k IH]; intros i a f g Ha Hg; [exact Ha|].
  cbn [octaves2D octaves3D].
  rewrite Habs. apply IH.
  - apply add_not_neg, mul_not_neg; auto using abs_not_neg.
  - now apply mul_not_neg.
Qed.

End FractalNoise.

Lemma not_neg_ge_or_nan (v : num) :
  not_neg v -> JS.leb JS.zero v = true \/ v = JS.nan.
Proof.
  intros H. apply not_neg_cases in H.
  destruct v as [s|s| |s m e]; simpl in H; subst; auto.
Qed.

(** C4 (failing input).  On the coordinates of the test suite,
    [noise2d(100, 100, 42)] and [noise3d(100, 100, 100, 42)], the source
    returns 0 and 1: the cubic polynomial of the last line is evaluated in
    binary64, its low bits are rounded away before the mask is applied.
    With 32-bit wrap-around after every product and sum, as the
    specification requires, the hashes are 1087488481 and 1533818193 and
    the values [1 - n / 2^30] are negative. *)
Theorem noise_mix_is_not_int32_arithmetic :
  noise2d (JS.of_Z 100) (JS.of_Z 100) (JS.of_Z 42) = JS.zero /\
  latticeHash2D_spec 100 100 42 = 1087488481 /\
  JS.ltb (latticeValue_spec (latticeHash2D_spec 100 100 42)) JS.zero = true /\
  noise3d (JS.of_Z 100) (JS.of_Z 100) (JS.of_Z 100) (JS.of_Z 42) = JS.one /\
  latticeHash3D_spec 100 100 100 42 = 1533818193 /\
  JS.ltb (latticeValue_spec (latticeHash3D_spec 100 100 100 42)) JS.zero
  = true.
Proof. vm_compute. repeat split. Qed.

(** Where the hash stays small the two agree: [noise2d(1, 0, 0)]. *)
Lemma noise2d_small_hash :
  noise2d (JS.of_Z 1) (JS.of_Z 0) (JS.of_Z 0)
  = latticeValue_spec (latticeHash2D_spec 1 0 0).
Proof. vm_compute. reflexivity. Qed.

(** C6.  For every parameter record, the 2D fractal noise is the octave
    sum whose gradient-noise calls all receive
    [eased = ((flags & (DEFAULTS|EASED)) != 0)], and the 3D fractal noise
    the one whose calls receive [eased = ((flags & EASED) != 0)]; with
    [flags = DEFAULTS] the 2D path is the eased one and the 3D path the
    un-eased one. *)
Theorem easing_flag_asymmetry (np : NoiseParams) (x y z seed : num) :
  NoisePerlin2D np x y seed =
    fractal2D_eased
      (negb (Z.land (np_flags np)
               (Z.lor NOISE_FLAG_DEFAULTS NOISE_FLAG_EASED) =? 0))
      np x y seed /\
  NoisePerlin3D np x y z seed =
    fractal3D_eased (negb (Z.land (np_flags np) NOISE_FLAG_EASED =? 0))
      np x y z seed /\
  NoisePerlin2D (with_flags np NOISE_FLAG_DEFAULTS) x y seed =
    fractal2D_eased true (with_flags np NOISE_FLAG_DEFAULTS) x y seed /\
  NoisePerlin3D (with_flags np NOISE_FLAG_DEFAULTS) x y z seed =
    fractal3D_eased false (with_flags np NOISE_FLAG_DEFAULTS) x y z seed.
Proof.
  repeat split.
  - apply NoisePerlin2D_eased_eq.
  - apply NoisePerlin3D_eased_eq.
  - apply (NoisePerlin2D_eased_eq (with_flags np NOISE_FLAG_DEFAULTS)).
  - apply (NoisePerlin3D_eased_eq (with_flags np NOISE_FLAG_DEFAULTS)).
Qed.

(** The two easing choices are observable: at the point (150, 130) the
    eased and the un-eased 2D sums of the test parameters differ. *)
Lemma easing_is_observable :
  fractal2D_eased true (np_test NOISE_FLAG_DEFAULTS)
    (JS.of_Z 150) (JS.of_Z 130) (JS.of_Z 42) <>
  fractal2D_eased false (np_test NOISE_FLAG_DEFAULTS)
    (JS.of_Z 150) (JS.of_Z 130) (JS.of_Z 42).
Proof. vm_compute. discriminate. Qed.

(** * Doubling the scale

    Rounding at the next exponent. *)

Section Doubling.

Lemma fexp_eq (e : Z) :
  SpecFloat.fexp JS.prec JS.emax e = Z.max (e - 53) (-1074).
Proof. reflexivity. Qed.

Lemma shr_1_m (mrs : shr_record) :
  0 <= shr_m mrs -> shr_m (shr_1 mrs) = shr_m mrs / 2.
Proof.
  destruct mrs as [[|[p|p|]|p] r s]; cbn [shr_m shr_1]; intros H;
    try reflexivity; try lia.
  - rewrite Pos2Z.inj_xI. apply Z.div_unique with 1; lia.
  - rewrite Pos2Z.inj_xO. apply Z.div_unique with 0; lia.
Qed.

Lemma iter_shr_m (p : positive) :
  forall mrs,
    0 <= shr_m mrs ->
    shr_m (SpecFloat.iter_pos shr_1 p mrs) = shr_m mrs / 2 ^ Zpos p.
Proof.
  assert (Hnn : forall q mrs, 0 <= shr_m mrs ->
                  (shr_m (SpecFloat.iter_pos shr_1 q mrs) = shr_m mrs / 2 ^ Zpos q) ->
                  0 <= shr_m (SpecFloat.iter_pos shr_1 q mrs)).
  { intros q mrs H ->. apply Z.div_pos; [trivial|]. apply Z.pow_pos_nonneg; lia. }
  induction p as [p IH|p IH|]; intros mrs H; cbn [SpecFloat.iter_pos].
  - assert (H1 : 0 <= shr_m (shr_1 mrs))
      by (rewrite shr_1_m by trivial; apply Z.div_pos; lia).
    pose proof (IH _ H1) as E1. pose proof (Hnn _ _ H1 E1) as H2.
    rewrite (IH _ H2), E1, shr_1_m by trivial.
    rewrite !Z.div_div by (try apply Z.pow_pos_nonneg; lia).
    f_equal. rewrite Pos2Z.inj_xI, Z.pow_add_r, Z.pow_mul_r by lia.
    change (2 ^ 2) with 4. change (2 ^ 1) with 2.
    replace (4 ^ Z.pos p) with (2 ^ Z.pos p * 2 ^ Z.pos p); [ring|].
    rewrite <- Z.pow_add_r by lia. replace (Z.pos p + Z.pos p) with (2 * Z.pos p) by lia.
    now rewrite Z.pow_mul_r by lia.
  - pose proof (IH _ H) as E1. pose proof (Hnn _ _ H E1) as H2.
    rewrite (IH _ H2), E1.
    rewrite !Z.div_div by (try apply Z.pow_pos_nonneg; lia).
    f_equal. rewrite <- Z.pow_add_r by lia. f_equal. lia.
  - now rewrite shr_1_m.
Qed.

Lemma digits2_pos_bounds (m : positive) :
  2 ^ (Zpos (digits2_pos m) - 1) <= Zpos m < 2 ^ Zpos (digits2_pos m).
Proof.
  induction m as [m IH|m IH|]; cbn [digits2_pos];
    rewrite ?Pos2Z.inj_succ; [| |cbn; lia].
  - replace (Z.succ (Zpos (digits2_pos m)) - 1)
      with (Z.succ (Zpos (digits2_pos m) - 1)) by lia.
    rewrite !Z.pow_succ_r by lia. lia.
  - replace (Z.succ (Zpos (digits2_pos m)) - 1)
      with (Z.succ (Zpos (digits2_pos m) - 1)) by lia.
    rewrite !Z.pow_succ_r by lia. lia.
Qed.

Lemma Zdigits2_le (m k : Z) :
  0 <= m -> 0 <= k -> m <= 2 ^ k -> Zdigits2 m <= k + 1.
Proof.
  intros Hm Hk Hle. destruct m as [|p|p]; cbn [Zdigits2]; [lia| |lia].
  pose proof (digits2_pos_bounds p) as [Hlo _].
  destruct (Z_le_gt_dec (Zpos (digits2_pos p)) (k + 1)) as [|Hgt]; [trivial|].
  exfalso.
  assert (2 ^ (k + 1) <= 2 ^ (Zpos (digits2_pos p) - 1))
    by (apply Z.pow_le_mono_r; lia).
  rewrite Z.pow_add_r in H by lia. change (2 ^ 1) with 2 in H.
  assert (0 < 2 ^ k) by (apply Z.pow_pos_nonneg; lia). lia.
Qed.

Lemma shr_cases (mrs : shr_record) (e n : Z) :
  shr mrs e n
  = if 0 <? n then (SpecFloat.iter_pos shr_1 (Z.to_pos n) mrs, e + n) else (mrs, e).
Proof. now destruct n. Qed.

Lemma round_nearest_even_bounds (m : Z) (l : location) :
  0 <= m -> m <= round_nearest_even m l <= m + 1.
Proof.
  intros H. destruct l as [|[]]; cbn [round_nearest_even]; try lia.
  destruct (Z.even m); lia.
Qed.

Lemma shr_record_of_loc_m (m : Z) (l : location) :
  shr_m (shr_record_of_loc m l) = m.
Proof. now destruct l as [|[]]. Qed.

Lemma finite_next (R : shr_record) (e2 : Z) (sx s : bool) (m : positive)
  (e : Z) :
  match shr_m R with
  | 0 => S754_zero sx
  | Zpos m0 =>
      if e2 <=? JS.emax - JS.prec then S754_finite sx m0 e2
      else S754_infinity sx
  | Zneg _ => S754_nan
  end = S754_finite s m e ->
  e < 971 ->
  e2 = e /\
  match shr_m R with
  | 0 => S754_zero sx
  | Zpos m0 =>
      if e2 + 1 <=? JS.emax - JS.prec then S754_finite sx m0 (e2 + 1)
      else S754_infinity sx
  | Zneg _ => S754_nan
  end = S754_finite s m (e + 1).
Proof.
  destruct (shr_m R) as [|q|q]; try discriminate.
  destruct (e2 <=? JS.emax - JS.prec) eqn:Hle; [|discriminate].
  intros [= <- <- <-] Hhi. split; [reflexivity|].
  destruct (e2 + 1 <=? JS.emax - JS.prec) eqn:Hle'; [reflexivity|].
  apply Z.leb_gt in Hle'. unfold JS.emax, JS.prec in *. lia.
Qed.

(** Rounding the same integer at the next exponent gives the same
    mantissa at the next exponent, when the result is a normal number
    above the smallest binade and below the largest. *)
Lemma binary_round_aux_next (sx : bool) (M : positive) (E : Z)
  (s : bool) (m : positive) (e : Z) :
  binary_round_aux JS.prec JS.emax sx (Zpos M) E loc_Exact
  = S754_finite s m e ->
  Zpos (digits2_pos m) = 53 -> -1074 < e -> e < 971 ->
  binary_round_aux JS.prec JS.emax sx (Zpos M) (E + 1) loc_Exact
  = S754_finite s m (e + 1).
Proof.
  unfold binary_round_aux, shr_fexp. rewrite !shr_cases, !fexp_eq.
  cbn [Zdigits2 shr_record_of_loc].
  set (d := Zpos (digits2_pos M)).
  pose proof (digits2_pos_bounds M) as [_ HM]. fold d in HM.
  set (rec := {| shr_m := Zpos M; shr_r := false; shr_s := false |}).
  destruct (Z_le_gt_dec (-1074) (d + E - 53)) as [Hun|Hcl].
  - (* the exact value is in the normal range *)
    replace (Z.max (d + E - 53) (-1074) - E) with (d - 53) by lia.
    replace (Z.max (d + (E + 1) - 53) (-1074) - (E + 1)) with (d - 53) by lia.
    destruct (0 <? d - 53) eqn:Hn.
    + set (R := SpecFloat.iter_pos shr_1 (Z.to_pos (d - 53)) rec).
      set (m1 := round_nearest_even (shr_m R) (loc_of_shr_record R)).
      rewrite !shr_cases, !fexp_eq.
      set (d1 := Zdigits2 m1).
      apply Z.ltb_lt in Hn.
      destruct (Z_le_gt_dec (-1074) (d1 + (E + (d - 53)) - 53)) as [H2|H2].
      * replace (Z.max (d1 + (E + 1 + (d - 53)) - 53) (-1074)
                 - (E + 1 + (d - 53)))
          with (Z.max (d1 + (E + (d - 53)) - 53) (-1074) - (E + (d - 53)))
          by lia.
        destruct (0 <? _); cbv beta iota; intros H Hd Hlo Hhi.
        -- replace (E + 1 + (d - 53)
                    + (Z.max (d1 + (E + (d - 53)) - 53) (-1074)
                       - (E + (d - 53))))
             with (E + (d - 53)
                   + (Z.max (d1 + (E + (d - 53)) - 53) (-1074)
                      - (E + (d - 53))) + 1) by lia.
           now apply finite_next.
        -- replace (E + 1 + (d - 53)) with (E + (d - 53) + 1) by lia.
           now apply finite_next.
      * replace (0 <? Z.max (d1 + (E + (d - 53)) - 53) (-1074)
                       - (E + (d - 53))) with false
          by (symmetry; apply Z.ltb_ge; lia).
        replace (0 <? Z.max (d1 + (E + 1 + (d - 53)) - 53) (-1074)
                       - (E + 1 + (d - 53))) with false
          by (symmetry; apply Z.ltb_ge; lia).
        cbv beta iota; intros H Hd Hlo Hhi.
        replace (E + 1 + (d - 53)) with (E + (d - 53) + 1) by lia.
        now apply finite_next.
    + cbn [round_nearest_even loc_of_shr_record rec shr_m shr_r shr_s].
      rewrite !shr_cases, !fexp_eq. cbn [Zdigits2]. fold d.
      replace (Z.max (d + E - 53) (-1074) - E) with (d - 53) by lia.
      replace (Z.max (d + (E + 1) - 53) (-1074) - (E + 1)) with (d - 53)
        by lia.
      rewrite Hn. cbv beta iota; intros H Hd Hlo Hhi.
      now apply finite_next.
  - (* the exact value is below the normal range: the result is not
       above the smallest binade *)
    replace (Z.max (d + E - 53) (-1074) - E) with (-1074 - E) by lia.
    destruct (0 <? -1074 - E) eqn:Hn.
    + apply Z.ltb_lt in Hn.
      set (R := SpecFloat.iter_pos shr_1 (Z.to_pos (-1074 - E)) rec).
      set (m1 := round_nearest_even (shr_m R) (loc_of_shr_record R)).
      assert (HR : shr_m R = Zpos M / 2 ^ (-1074 - E)).
      { unfold R. rewrite iter_shr_m by (cbn; lia).
        cbn [rec shr_m]. now rewrite Z2Pos.id by lia. }
      assert (HR0 : 0 <= shr_m R).
      { rewrite HR. apply Z.div_pos; [lia|]. apply Z.pow_pos_nonneg; lia. }
      assert (HR52 : shr_m R < 2 ^ 52).
      { rewrite HR. apply Z.div_lt_upper_bound.
        - apply Z.pow_pos_nonneg; lia.
        - rewrite <- Z.pow_add_r by lia.
          eapply Z.lt_le_trans; [exact HM|].
          apply Z.pow_le_mono_r; lia. }
      pose proof (round_nearest_even_bounds (shr_m R) (loc_of_shr_record R)
                    HR0) as Hm1. fold m1 in Hm1.
      assert (Hd1 : Zdigits2 m1 <= 53)
        by (apply (Zdigits2_le m1 52); lia).
      rewrite !shr_cases, !fexp_eq.
      replace (0 <? Z.max (Zdigits2 m1 + (E + (-1074 - E)) - 53) (-1074)
                     - (E + (-1074 - E))) with false
        by (symmetry; apply Z.ltb_ge; lia).
      cbv beta iota; intros H Hd Hlo Hhi. exfalso.
      apply finite_next in H as [He _]; lia.
    + apply Z.ltb_ge in Hn.
      cbn [round_nearest_even loc_of_shr_record rec shr_m shr_r shr_s].
      rewrite !shr_cases, !fexp_eq. cbn [Zdigits2]. fold d.
      replace (0 <? Z.max (d + E - 53) (-1074) - E) with false
        by (symmetry; apply Z.ltb_ge; lia).
      cbv beta iota; intros H Hd Hlo Hhi. exfalso.
      cbn [shr_m] in H. destruct (_ <=? _); [|discriminate].
      injection H as <- <- <-. fold d in Hd. lia.
Qed.

End Doubling.

Section DoublingScale.

Lemma in_doubling_range_inv (v : num) :
  in_doubling_range v = true ->
  exists s m e,
    v = S754_finite s m e /\
    Zpos (digits2_pos m) = 53 /\ -1074 < e /\ e < 971.
Proof.
  destruct v as [| | |s m e]; try discriminate. cbn [in_doubling_range].
  intros [[Hd Hlo]%andb_true_iff Hhi]%andb_true_iff.
  apply Z.eqb_eq in Hd. apply Z.ltb_lt in Hlo, Hhi.
  exists s, m, e. unfold JS.prec, JS.emax in *. repeat split; trivial; lia.
Qed.

(** Doubling a number of that range adds one to its exponent. *)
Lemma double_in_range (s : bool) (m : positive) (e : Z) :
  Zpos (digits2_pos m) = 53 -> -1074 < e -> e < 971 ->
  (#2 * S754_finite s m e)%js = S754_finite s m (e + 1).
Proof.
  intros Hd Hlo Hhi.
  change (JS.of_Z 2) with (S754_finite false 4503599627370496 (-51)).
  unfold JS.mul. cbn [SFmul xorb].
  assert (HdM : Zpos (digits2_pos (4503599627370496 * m)) = 105).
  { cbv [Pos.mul]. cbn [digits2_pos]. rewrite !Pos2Z.inj_succ. lia. }
  unfold binary_round_aux, shr_fexp. rewrite shr_cases, fexp_eq.
  cbn [Zdigits2]. rewrite HdM.
  replace (Z.max (105 + (-51 + e) - 53) (-1074) - (-51 + e)) with 52 by lia.
  cbv [Pos.mul]. cbn [Z.ltb Z.compare Z.to_pos shr_record_of_loc].
  cbn [SpecFloat.iter_pos shr_1 orb].
  cbn [shr_m loc_of_shr_record round_nearest_even].
  rewrite shr_cases, fexp_eq. cbn [Zdigits2]. rewrite Hd.
  replace (0 <? Z.max (53 + (-51 + e + 52) - 53) (-1074) - (-51 + e + 52))
    with false by (symmetry; apply Z.ltb_ge; lia).
  cbn [shr_record_of_loc shr_m].
  replace (-51 + e + 52 <=? JS.emax - JS.prec) with true
    by (symmetry; apply Z.leb_le; unfold JS.emax, JS.prec; lia).
  f_equal. lia.
Qed.

(** With [offset = 0], doubling [scale] doubles the result exactly when
    the scale and the result are in the range. *)
Lemma doubling_in_range (a s : num) :
  in_doubling_range s = true ->
  in_doubling_range (JS.zero + a * s)%js = true ->
  (JS.zero + a * (#2 * s))%js = (#2 * (JS.zero + a * s))%js.
Proof.
  intros (ss & ms & es & -> & Hds & Hlos & His)%in_doubling_range_inv Hr.
  rewrite double_in_range by trivial.
  unfold JS.add, JS.mul, JS.zero in *.
  destruct a as [sa|sa| |sa ma ea];
    cbn [SFmul SFadd in_doubling_range] in Hr; try discriminate Hr.
  { destruct (xorb sa ss); discriminate Hr. }
  cbn [SFmul].
  destruct (binary_round_aux JS.prec JS.emax (xorb sa ss)
              (Zpos (ma * ms)) (ea + es) loc_Exact)
    as [sr|sr| |sr mr er] eqn:Hprod;
    cbn [SFadd in_doubling_range] in Hr; try discriminate Hr.
  { destruct sr; discriminate Hr. }
  apply (in_doubling_range_inv (S754_finite sr mr er)) in Hr
    as (s' & m' & e' & [= <- <- <-] & Hdr & Hlor & Hhir).
  rewrite Z.add_assoc.
  rewrite (binary_round_aux_next _ _ _ _ _ _ Hprod Hdr Hlor Hhir).
  cbn [SFadd].
  change (SFmul JS.prec JS.emax (JS.of_Z 2) (S754_finite sr mr er))
    with (#2 * S754_finite sr mr er)%js.
  now rewrite double_in_range.
Qed.

End DoublingScale.




(** C9 (as stated, refuted).  ABSVALUE is set and the result is negative:
    the absolute value is taken per octave, before [scale] and [offset]
    are applied. *)
Lemma absvalue_result_can_be_negative :
  flag_test (np_flags np_negative_scale) NOISE_FLAG_ABSVALUE = true /\
  JS.leb JS.zero
    (NoisePerlin2D np_negative_scale (JS.of_Z 150) (JS.of_Z 130) (JS.of_Z 42))
  = false /\
  JS.leb JS.zero
    (NoisePerlin3D np_negative_scale
       (JS.of_Z 150) (JS.of_Z 130) (JS.of_Z 7) (JS.of_Z 42))
  = false.
Proof. vm_compute. repeat split. Qed.

(** C9 (amended).  With ABSVALUE set and [offset], [scale] and [persist]
    not negative, the result of either fractal function is never
    negative: it is [>= 0], or NaN. *)
Theorem absvalue_not_negative (np : NoiseParams) (x y z seed : num) :
  flag_test (np_flags np) NOISE_FLAG_ABSVALUE = true ->
  not_neg (np_offset np) -> not_neg (np_scale np) ->
  not_neg (np_persist np) ->
  (JS.leb JS.zero (NoisePerlin2D np x y seed) = true
   \/ NoisePerlin2D np x y seed = JS.nan) /\
  (JS.leb JS.zero (NoisePerlin3D np x y z seed) = true
   \/ NoisePerlin3D np x y z seed = JS.nan).
Proof.
  intros Habs Ho Hs Hp.
  split; apply not_neg_ge_or_nan, add_not_neg; trivial;
    apply mul_not_neg; trivial.
  - apply octaves2D_not_neg; auto using zero_not_neg, one_not_neg.
  - apply octaves3D_not_neg; auto using zero_not_neg, one_not_neg.
Qed.

Lemma absvalue_not_negative_witness :
  (JS.leb JS.zero
     (NoisePerlin2D (np_test 5) (JS.of_Z 150) (JS.of_Z 130) (JS.of_Z 42))
   = true
   \/ NoisePerlin2D (np_test 5) (JS.of_Z 150) (JS.of_Z 130) (JS.of_Z 42)
      = JS.nan) /\
  (JS.leb JS.zero
     (NoisePerlin3D (np_test 5)
        (JS.of_Z 150) (JS.of_Z 130) (JS.of_Z 7) (JS.of_Z 42))
   = true
   \/ NoisePerlin3D (np_test 5)
        (JS.of_Z 150) (JS.of_Z 130) (JS.of_Z 7) (JS.of_Z 42)
      = JS.nan).
Proof.
  apply (absvalue_not_negative (np_test 5)); reflexivity.
Defined.

(** * Strings and lists of the graph operations *)

Section Strings.

Lemma pretty_N_char_not_underscore (x : N) :
  Ascii.eqb (pretty_N_char x) "_" = false.
Proof. unfold pretty_N_char. repeat case_match; reflexivity. Qed.

(** The decimal rendering of an id contains no underscore. *)
Lemma first_part_pretty_N_go (x : N) :
  forall s, first_part s = None -> first_part (pretty_N_go x s) = None.
Proof.
  induction (N.lt_wf_0 x) as [x _ IH]; intros s Hs.
  destruct (decide (x = 0%N)) as [->|Hx].
  - now rewrite pretty_N_go_0.
  - rewrite pretty_N_go_step by lia.
    apply IH; [apply N.div_lt; lia|].
    cbn [first_part]. now rewrite pretty_N_char_not_underscore, Hs.
Qed.

Lemma first_part_pretty (id : positive) : first_part (pretty id) = None.
Proof.
  unfold pretty, pretty_positive, pretty, pretty_N.
  case_decide; [discriminate|].
  now apply first_part_pretty_N_go.
Qed.

Lemma append_nil (s : string) : "" +:+ s = s.
Proof. reflexivity. Qed.

Lemma append_cons (c : ascii) (s t : string) :
  String c s +:+ t = String c (s +:+ t).
Proof. reflexivity. Qed.

Lemma first_part_cons (c : ascii) (s : string) :
  first_part (String c s) = None ->
  Ascii.eqb c "_" = false /\ first_part s = None.
Proof.
  cbn [first_part]. destruct (Ascii.eqb c "_"); [discriminate|].
  now destruct (first_part s).
Qed.

(** Two underscore-free strings that, followed by an underscore, are
    both prefixes of one string are equal. *)
Lemma prefix_until_underscore (a b p : string) :
  first_part a = None -> first_part b = None ->
  startsWith p (a +:+ "_") = true ->
  startsWith p (b +:+ "_") = true ->
  a = b.
Proof.
  revert b p. induction a as [|c a IH]; intros [|d b] [|e p] Ha Hb;
    rewrite ?append_nil, ?append_cons; cbn [startsWith];
    try discriminate; try reflexivity.
  - apply first_part_cons in Hb as [Hd _].
    intros H1 H2.
    apply andb_true_iff in H1 as [H1 _], H2 as [H2 _].
    apply Ascii.eqb_eq in H1, H2. subst. discriminate.
  - apply first_part_cons in Ha as [Hc _].
    intros H1 H2.
    apply andb_true_iff in H1 as [H1 _], H2 as [H2 _].
    apply Ascii.eqb_eq in H1, H2. subst. discriminate.
  - apply first_part_cons in Ha as [_ Ha], Hb as [_ Hb].
    intros H1 H2.
    apply andb_true_iff in H1 as [H1 H1'], H2 as [H2 H2'].
    apply Ascii.eqb_eq in H1, H2. subst.
    f_equal. now apply (IH b p).
Qed.

Lemma startsWith_inv (p q : string) :
  startsWith p q = true -> exists s, p = q +:+ s.
Proof.
  revert p. induction q as [|b q IH]; intros p; cbn [startsWith].
  - now exists p.
  - destruct p as [|a p]; [discriminate|].
    intros [Hab Hq]%andb_true_iff. apply Ascii.eqb_eq in Hab. subst b.
    destruct (IH p Hq) as [s ->]. now exists s.
Qed.

Lemma append_assoc (a b c : string) : (a +:+ b) +:+ c = a +:+ b +:+ c.
Proof.
  induction a as [|x a IH]; [reflexivity|].
  rewrite !append_cons. now f_equal.
Qed.

Lemma startsWith_append (a b : string) : startsWith (a +:+ b) a = true.
Proof.
  induction a as [|c a IH]; [reflexivity|].
  rewrite append_cons. cbn [startsWith]. now rewrite Ascii.eqb_refl.
Qed.

(** The test of [removeNode] holds exactly of the ids named after the
    node. *)
Lemma startsWith_named_after (id : positive) (p : string) :
  startsWith p (pretty id +:+ "_") = true <-> named_after id p.
Proof.
  unfold named_after, portId. split.
  - intros [s ->]%startsWith_inv. exists s. apply append_assoc.
  - intros [s ->]. rewrite <- append_assoc. apply startsWith_append.
Qed.

(** Ports named after different nodes never share a node prefix: the
    ids 1 and 12, for instance, do not capture each other. *)
Lemma node_prefix_inj (m n : positive) (p : string) :
  startsWith p (pretty m +:+ "_") = true ->
  startsWith p (pretty n +:+ "_") = true ->
  m = n.
Proof.
  intros Hm Hn.
  apply (inj pretty).
  eapply prefix_until_underscore; eauto using first_part_pretty.
Qed.

End Strings.

Section GraphFacts.

Lemma getNodeIdFromPortId_set_connections g cs p :
  getNodeIdFromPortId (set_connections g cs) p = getNodeIdFromPortId g p.
Proof. reflexivity. Qed.

Lemma wouldCreateCycle_unresolved g f t :
  getNodeIdFromPortId g f = None \/ getNodeIdFromPortId g t = None ->
  wouldCreateCycle g f t = false.
Proof.
  unfold wouldCreateCycle. intros [->| ->]; [reflexivity|].
  now destruct (getNodeIdFromPortId g f).
Qed.

Lemma filter_none_matches {A} (f : A -> bool) (l : list A) :
  existsb f l = false -> List.filter (fun a => negb (f a)) l = l.
Proof.
  induction l as [|a l IH]; cbn; [reflexivity|].
  intros H. apply orb_false_iff in H as [-> H]. cbn. now rewrite IH.
Qed.

(** When no connection targets [toPortId], a refused call changes
    nothing. *)
Lemma addConnection_refused_unchanged g f t :
  existsb (fun conn => String.eqb (to conn) t) (connections g) = false ->
  fst (addConnection g f t) = false ->
  snd (addConnection g f t) = g.
Proof.
  unfold addConnection. intros ->.
  now destruct (wouldCreateCycle g f t).
Qed.

Lemma find_distinct (ns : list Node) (n : Node) :
  distinct_ids ns = true -> In n ns ->
  List.find (fun m => Pos.eqb (node_id m) (node_id n)) ns = Some n.
Proof.
  induction ns as [|m ns IH]; cbn; [tauto|].
  intros H [->|Hin].
  - now rewrite Pos.eqb_refl.
  - apply andb_true_iff in H as [Hm Hd].
    destruct (Pos.eqb_spec (node_id m) (node_id n)) as [e|_]; [|auto].
    apply negb_true_iff in Hm.
    assert (existsb (fun k => Pos.eqb (node_id k) (node_id m)) ns = true)
      as E; [|congruence].
    apply existsb_exists. exists n. split; [trivial|].
    now apply Pos.eqb_eq.
Qed.

Lemma find_some_id (ns : list Node) (id : positive) (n : Node) :
  List.find (fun m => Pos.eqb (node_id m) id) ns = Some n ->
  In n ns /\ node_id n = id.
Proof.
  intros H. apply find_some in H as [H1 H2].
  split; [trivial|]. now apply Pos.eqb_eq.
Qed.

Lemma owns_named (n : Node) (p : string) :
  ports_named n = true -> owns n p = true ->
  startsWith p (pretty (node_id n) +:+ "_") = true.
Proof.
  unfold ports_named, owns. intros Hn Ho.
  apply existsb_exists in Ho as (port & Hin & Heq).
  apply String.eqb_eq in Heq. subst p.
  rewrite forallb_forall in Hn. now apply Hn.
Qed.

End GraphFacts.

(** * The invariant of the node list *)

Section WellFormed.

Lemma startsWith_portId (id : positive) (suffix : string) :
  startsWith (portId id suffix) (pretty id +:+ "_") = true.
Proof. apply startsWith_named_after. now exists suffix. Qed.

Lemma emptyGraph_well_formed : well_formed emptyGraph = true.
Proof. reflexivity. Qed.

Lemma distinct_ids_app (ns : list Node) (n : Node) :
  distinct_ids ns = true ->
  forallb (fun m => Pos.ltb (node_id m) (node_id n)) ns = true ->
  distinct_ids (ns ++ [n]) = true.
Proof.
  induction ns as [|m ns IH]; cbn; [reflexivity|].
  intros [Hm Hd]%andb_true_iff [Hlt Hall]%andb_true_iff.
  rewrite IH by trivial. rewrite andb_true_r.
  apply negb_true_iff in Hm. apply negb_true_iff.
  rewrite existsb_app, Hm. cbn. rewrite orb_false_r.
  apply Pos.ltb_lt in Hlt. apply Pos.eqb_neq. lia.
Qed.

Lemma addNode_ports_named (t : NodeTypeTag) (x y rnd : num) (g : NodeGraph) :
  ports_named (fst (addNode t x y rnd g)) = true.
Proof.
  unfold ports_named. destruct t; cbn;
    rewrite ?startsWith_portId; reflexivity.
Qed.

(** Every operation that changes the graph keeps the invariant. *)
Lemma addNode_well_formed (t : NodeTypeTag) (x y rnd : num) (g : NodeGraph) :
  well_formed g = true -> well_formed (snd (addNode t x y rnd g)) = true.
Proof.
  unfold well_formed.
  intros [[Hd Hlt]%andb_true_iff Hn]%andb_true_iff.
  pose proof (addNode_ports_named t x y rnd g) as Hnew.
  cbn [addNode fst snd nodes nextNodeId] in *.
  rewrite !forallb_app, Hn, distinct_ids_app by trivial.
  cbn [forallb node_id]. rewrite Hnew.
  replace (Pos.ltb (nextNodeId g) (Pos.succ (nextNodeId g))) with true
    by (symmetry; apply Pos.ltb_lt; lia).
  rewrite !andb_true_r. cbn [andb]. rewrite forallb_forall in *.
  intros n Hin. apply Hlt in Hin.
  apply Pos.ltb_lt in Hin. apply Pos.ltb_lt. lia.
Qed.

Lemma addConnection_well_formed (g : NodeGraph) (f t : string) :
  well_formed g = true -> well_formed (snd (addConnection g f t)) = true.
Proof.
  unfold addConnection. intros H.
  repeat case_match; exact H.
Qed.

Lemma distinct_ids_filter (f : Node -> bool) (ns : list Node) :
  distinct_ids ns = true -> distinct_ids (List.filter f ns) = true.
Proof.
  induction ns as [|m ns IH]; cbn; [reflexivity|].
  intros [Hm Hd]%andb_true_iff. destruct (f m); cbn; [|auto].
  rewrite IH by trivial. rewrite andb_true_r.
  apply negb_true_iff in Hm. apply negb_true_iff.
  destruct (existsb _ (List.filter f ns)) eqn:E; [|reflexivity].
  apply existsb_exists in E as (k & Hk & Heq).
  apply filter_In in Hk as [Hk _].
  rewrite <- Hm. symmetry. apply existsb_exists. now exists k.
Qed.

Lemma forallb_filter {A} (p f : A -> bool) (l : list A) :
  forallb p l = true -> forallb p (List.filter f l) = true.
Proof.
  rewrite !forallb_forall. intros H a Ha.
  apply filter_In in Ha as [Ha _]. now apply H.
Qed.

Lemma removeNode_well_formed (g : NodeGraph) (nodeId : positive) :
  well_formed g = true -> well_formed (snd (removeNode g nodeId)) = true.
Proof.
  unfold removeNode, well_formed.
  intros [[Hd Hlt]%andb_true_iff Hn]%andb_true_iff.
  repeat case_match; cbn [snd nodes nextNodeId];
    rewrite ?distinct_ids_filter, ?forallb_filter by trivial;
    now rewrite ?Hd, ?Hlt, ?Hn.
Qed.

End WellFormed.

(** * The backward traversal of the validation

    [findConnectedNodes] computes the set of the nodes that the start
    node reaches, and the bound on its nesting depth is enough. *)

Section Traversal.

Variable g : NodeGraph.

Local Open Scope nat_scope.

Lemma hasNode_nodeIds (id : positive) :
  hasNode g id = true <-> id ∈ nodeIds g.
Proof.
  unfold hasNode, nodeIds. rewrite existsb_exists, elem_of_list_to_set.
  rewrite list_elem_of_In, in_map_iff. split.
  - intros (n & Hin & Heq). apply Pos.eqb_eq in Heq. now exists n.
  - intros (n & Heq & Hin). exists n. split; [trivial|]. now apply Pos.eqb_eq.
Qed.

Lemma getNodeIdFromPortId_nodeIds (p : string) (id : positive) :
  getNodeIdFromPortId g p = Some id -> id ∈ nodeIds g.
Proof.
  unfold getNodeIdFromPortId. intros H.
  repeat case_match; try discriminate.
  injection H as <-. now apply hasNode_nodeIds.
Qed.

Lemma findNode_nodeIds (id : positive) (node : Node) :
  findNode g id = Some node -> id ∈ nodeIds g.
Proof.
  intros H. apply find_some_id in H as [Hin <-].
  apply hasNode_nodeIds, existsb_exists. exists node.
  split; [trivial|]. apply Pos.eqb_refl.
Qed.

Lemma size_list_to_set_le `{Countable A} (l : list A) :
  size (list_to_set l : gset A) <= length l.
Proof.
  induction l as [|a l IH]; cbn.
  - now rewrite size_empty.
  - rewrite size_union_alt, size_singleton.
    assert (size (list_to_set l ∖ {[a]} : gset A)
            <= size (list_to_set l : gset A))
      by (apply subseteq_size; set_solver).
    lia.
Qed.

Lemma size_nodeIds : size (nodeIds g) <= length (nodes g).
Proof.
  unfold nodeIds. etrans; [apply size_list_to_set_le|].
  now rewrite length_map.
Qed.

Lemma findConnectedNodes_fuel_unfold (fuel : nat) (id : positive)
  (used : gset positive) :
  findConnectedNodes_fuel (S fuel) g id used =
    if bool_decide (id ∈ used) then used
    else match findNode g id with
         | None => {[id]} ∪ used
         | Some node =>
             fold_left (visit_input g (findConnectedNodes_fuel fuel g))
               (inputs node) ({[id]} ∪ used)
         end.
Proof. reflexivity. Qed.

Lemma findConnectedNodes_fuel_mono (fuel : nat) :
  forall id used, used ⊆ findConnectedNodes_fuel fuel g id used.
Proof.
  induction fuel as [|fuel IH]; intros id used; [reflexivity|].
  rewrite findConnectedNodes_fuel_unfold.
  case_bool_decide; [reflexivity|].
  destruct (findNode g id) as [node|]; [|set_solver].
  assert (Hfold : forall ins w, w ⊆ fold_left (visit_input g (findConnectedNodes_fuel fuel g)) ins w).
  { induction ins as [|i ins IHins]; intros w; cbn; [reflexivity|].
    etrans; [|apply IHins]. unfold visit_input.
    repeat case_match; try reflexivity. apply IH. }
  etrans; [|apply Hfold]. set_solver.
Qed.

(** Soundness: the traversal adds only nodes that [start] reaches. *)
Lemma findConnectedNodes_fuel_sound (start : positive) (fuel : nat) :
  forall id used,
    reaches g start id ->
    (forall a, a ∈ used -> reaches g start a) ->
    forall a, a ∈ findConnectedNodes_fuel fuel g id used -> reaches g start a.
Proof.
  induction fuel as [|fuel IH]; intros id used Hid Hused; [exact Hused|].
  rewrite findConnectedNodes_fuel_unfold.
  case_bool_decide; [exact Hused|].
  assert (Hused1 : forall a, a ∈ ({[id]} ∪ used : gset positive)
                             -> reaches g start a).
  { intros a [->%elem_of_singleton|Ha]%elem_of_union; auto. }
  destruct (findNode g id) as [node|] eqn:Hnode; [|exact Hused1].
  assert (Hfold : forall ins w,
    (forall i, In i ins -> In i (inputs node)) ->
    (forall a, a ∈ w -> reaches g start a) ->
    forall a, a ∈ fold_left (visit_input g (findConnectedNodes_fuel fuel g)) ins w -> reaches g start a).
  { induction ins as [|i ins IHins]; intros w Hsub Hw; cbn; [exact Hw|].
    apply IHins; [intros; apply Hsub; now right|].
    unfold visit_input.
    destruct (findConnectionTo g (port_id i)) as [conn|] eqn:Hc; [|exact Hw].
    destruct (getNodeIdFromPortId g (from conn)) as [a'|] eqn:Ha; [|exact Hw].
    apply IH; [|exact Hw].
    eapply reaches_step; [exact Hid|].
    exists node, i, conn. repeat split; auto. apply Hsub. now left. }
  apply Hfold; auto.
Qed.

(** Completeness: with enough fuel the call adds [id], and every node it
    adds has all the nodes that feed it in the resulting set. *)
Lemma findConnectedNodes_fuel_closed (fuel : nat) :
  forall id used,
    size (nodeIds g ∖ used) < fuel ->
    id ∈ findConnectedNodes_fuel fuel g id used /\
    (forall a b, b ∈ findConnectedNodes_fuel fuel g id used -> b ∉ used ->
                 feeds g a b -> a ∈ findConnectedNodes_fuel fuel g id used).
Proof.
  induction fuel as [|fuel IH]; intros id used Hsize; [lia|].
  rewrite findConnectedNodes_fuel_unfold.
  case_bool_decide as Hin; [split; [trivial|]; intros a b Hb Hnb; contradiction|].
  destruct (findNode g id) as [node|] eqn:Hnode.
  2:{ split; [set_solver|]. intros a b Hb Hnb (n & i & c & Hn & _).
      assert (b = id) as -> by set_solver. congruence. }
  set (u1 := ({[id]} ∪ used : gset positive)).
  assert (Hsize1 : size (nodeIds g ∖ u1) < fuel).
  { pose proof (findNode_nodeIds _ _ Hnode) as Hid.
    assert (nodeIds g ∖ u1 ⊂ nodeIds g ∖ used) as Hsub by set_solver.
    apply subset_size in Hsub. lia. }
  assert (Hfold : forall ins w,
    u1 ⊆ w ->
    (forall a b, b ∈ w -> b ∉ u1 -> feeds g a b -> a ∈ w) ->
    let w' := fold_left (visit_input g (findConnectedNodes_fuel fuel g)) ins w in
    w ⊆ w' /\
    (forall a b, b ∈ w' -> b ∉ u1 -> feeds g a b -> a ∈ w') /\
    (forall i conn a, In i ins ->
        findConnectionTo g (port_id i) = Some conn ->
        getNodeIdFromPortId g (from conn) = Some a -> a ∈ w')).
  { induction ins as [|i ins IHins]; intros w Hw Hclosed; cbn.
    { split; [reflexivity|]. split; [exact Hclosed|]. intros ? ? ? []. }
    set (w1 := visit_input g (findConnectedNodes_fuel fuel g) w i).
    assert (Hw1 : w ⊆ w1).
    { unfold w1, visit_input. repeat case_match; try reflexivity.
      apply findConnectedNodes_fuel_mono. }
    assert (Hclosed1 :
      forall a b, b ∈ w1 -> b ∉ u1 -> feeds g a b -> a ∈ w1).
    { unfold w1, visit_input.
      destruct (findConnectionTo g (port_id i)) as [conn|]; [|exact Hclosed].
      destruct (getNodeIdFromPortId g (from conn)) as [a'|]; [|exact Hclosed].
      intros a b Hb Hnb Hfeeds.
      destruct (decide (b ∈ w)) as [Hbw|Hbw].
      - eapply findConnectedNodes_fuel_mono, Hclosed; eauto.
      - eapply (IH a' w); eauto.
        assert (size (nodeIds g ∖ w) <= size (nodeIds g ∖ u1))
          by (apply subseteq_size; set_solver).
        lia. }
    assert (Hi : forall conn a,
      findConnectionTo g (port_id i) = Some conn ->
      getNodeIdFromPortId g (from conn) = Some a -> a ∈ w1).
    { intros conn a Hc Ha. unfold w1, visit_input. rewrite Hc, Ha.
      apply (IH a w).
      assert (size (nodeIds g ∖ w) <= size (nodeIds g ∖ u1))
        by (apply subseteq_size; set_solver).
      lia. }
    destruct (IHins w1) as (Hmono & Hcl & Hins); [set_solver|exact Hclosed1|].
    split; [set_solver|]. split; [exact Hcl|].
    intros i' conn a [<-|Hi'] Hc Ha; [|eapply Hins; eauto].
    apply Hmono. eapply Hi; eauto. }
  destruct (Hfold (inputs node) u1) as (Hmono & Hcl & Hins);
    [reflexivity|intros a b Hb Hnb; contradiction|].
  split; [apply Hmono; set_solver|].
  intros a b Hb Hnb Hfeeds.
  destruct (decide (b = id)) as [->|Hne].
  - destruct Hfeeds as (n & i & c & Hn & Hi & Hc & Ha).
    rewrite Hnode in Hn. injection Hn as <-. eapply Hins; eauto.
  - eapply Hcl; eauto. set_solver.
Qed.

(** The set the validation computes is the set of the nodes that the
    terrain output reaches. *)
Lemma usedNodesOf_reaches (out : Node) (id : positive) :
  getOutputNode g = Some out ->
  id ∈ usedNodesOf g <-> reaches g (node_id out) id.
Proof.
  intros Hout. unfold usedNodesOf, findConnectedNodes. rewrite Hout. split.
  - apply findConnectedNodes_fuel_sound; [constructor|set_solver].
  - assert (Hsize : size (nodeIds g ∖ ∅) < S (length (nodes g))).
    { pose proof size_nodeIds.
      assert (size (nodeIds g ∖ ∅) <= size (nodeIds g))
        by (apply subseteq_size; set_solver).
      lia. }
    destruct (findConnectedNodes_fuel_closed _ (node_id out) ∅ Hsize)
      as [Hstart Hclosed].
    induction 1 as [|a b Hb IH Hfeeds]; [exact Hstart|].
    eapply Hclosed; eauto. set_solver.
Qed.

End Traversal.

(** * The cycle search of [addConnection]

    The bound on the nesting depth of [hasPath] is enough. *)

Section CycleSearch.

Variable g : NodeGraph.
Variable endNodeId : positive.

Local Open Scope nat_scope.

Lemma hasNode_resolved (id : positive) :
  hasNode g id = true -> Some id ∈ resolvedIds g.
Proof.
  intros H. apply existsb_exists in H as (n & Hin & Heq).
  apply Pos.eqb_eq in Heq. subst id.
  unfold resolvedIds. apply elem_of_list_to_set, list_elem_of_In.
  right. apply in_map_iff. now exists n.
Qed.

Lemma getNodeIdFromPortId_resolved (p : string) :
  getNodeIdFromPortId g p ∈ resolvedIds g.
Proof.
  destruct (getNodeIdFromPortId g p) as [id|] eqn:E.
  - apply hasNode_resolved, hasNode_nodeIds.
    eapply getNodeIdFromPortId_nodeIds, E.
  - unfold resolvedIds. set_solver.
Qed.

Lemma size_resolvedIds : size (resolvedIds g) <= S (length (nodes g)).
Proof.
  unfold resolvedIds. etrans; [apply size_list_to_set_le|].
  cbn. now rewrite length_map.
Qed.

Lemma hasPath_fuel_unfold (fuel : nat) (start : option positive)
  (visited : gset (option positive)) :
  hasPath_fuel (S fuel) g start endNodeId visited =
    if bool_decide (start ∈ visited) then (false, visited)
    else
      each_connection g
        (fun toNodeId visited =>
           hasPath_fuel fuel g toNodeId endNodeId visited)
        endNodeId
        (List.filter
           (fun conn => same_id (getNodeIdFromPortId g (from conn)) start)
           (connections g))
        ({[start]} ∪ visited).
Proof. reflexivity. Qed.

(** The set only grows. *)
Lemma hasPath_fuel_mono (fuel : nat) :
  forall start visited,
    visited ⊆ snd (hasPath_fuel fuel g start endNodeId visited).
Proof.
  induction fuel as [|fuel IH]; intros start visited; [reflexivity|].
  rewrite hasPath_fuel_unfold. case_bool_decide; [reflexivity|].
  assert (Hloop : forall l w,
    w ⊆ snd (each_connection g
               (fun toNodeId v => hasPath_fuel fuel g toNodeId endNodeId v)
               endNodeId l w)).
  { induction l as [|c l IHl]; intros w; cbn [each_connection];
      [reflexivity|].
    case_match; [reflexivity|].
    pose proof (IH (getNodeIdFromPortId g (to c)) w) as Hw.
    destruct (hasPath_fuel fuel g _ endNodeId w) as [found w'].
    cbn [snd] in Hw. destruct found; [exact Hw|].
    etrans; [exact Hw|apply IHl]. }
  etrans; [|apply Hloop]. set_solver.
Qed.

(** Fuel above the number of ids that are not yet visited is never used
    up: any two such amounts give the same result. *)
Lemma hasPath_fuel_enough (n : nat) :
  forall m start visited,
    start ∈ resolvedIds g ->
    size (resolvedIds g ∖ visited) < n ->
    size (resolvedIds g ∖ visited) < m ->
    hasPath_fuel n g start endNodeId visited
    = hasPath_fuel m g start endNodeId visited.
Proof.
  induction n as [|n IH]; intros m start visited Hstart Hn Hm; [lia|].
  destruct m as [|m]; [lia|].
  rewrite !hasPath_fuel_unfold. case_bool_decide as Hin; [reflexivity|].
  set (v1 := ({[start]} ∪ visited : gset (option positive))).
  assert (Hsize : size (resolvedIds g ∖ v1) < size (resolvedIds g ∖ visited)).
  { apply subset_size. set_solver. }
  generalize (List.filter
                (fun conn => same_id (getNodeIdFromPortId g (from conn)) start)
                (connections g)).
  assert (Hloop : forall l w, v1 ⊆ w ->
    each_connection g
      (fun toNodeId v => hasPath_fuel n g toNodeId endNodeId v) endNodeId l w
    = each_connection g
        (fun toNodeId v => hasPath_fuel m g toNodeId endNodeId v)
        endNodeId l w).
  { induction l as [|c l IHl]; intros w Hw; cbn [each_connection];
      [reflexivity|].
    case_match; [reflexivity|].
    assert (Hle : size (resolvedIds g ∖ w) <= size (resolvedIds g ∖ v1))
      by (apply subseteq_size; set_solver).
    rewrite (IH m (getNodeIdFromPortId g (to c)) w)
      by (try apply getNodeIdFromPortId_resolved; lia).
    pose proof (hasPath_fuel_mono m (getNodeIdFromPortId g (to c)) w) as Hmono.
    destruct (hasPath_fuel m g _ endNodeId w) as [found w'].
    cbn [snd] in Hmono. destruct found; [reflexivity|].
    apply IHl. set_solver. }
  intros l. now apply Hloop.
Qed.

End CycleSearch.

(** The bound of [hasPath] is enough for the search [wouldCreateCycle]
    starts: more fuel does not change its result. *)
Lemma hasPath_bound_enough (g : NodeGraph) (toNodeId fromNodeId : positive)
  (extra : nat) :
  hasNode g toNodeId = true ->
  fst (hasPath_fuel (extra + S (S (length (nodes g)))) g
         (Some toNodeId) fromNodeId ∅)
  = hasPath g (Some toNodeId) fromNodeId ∅.
Proof.
  intros Hnode. unfold hasPath. f_equal.
  pose proof (size_resolvedIds g) as Hsize.
  assert (size (resolvedIds g ∖ ∅) <= size (resolvedIds g))%nat
    by (apply subseteq_size; set_solver).
  apply hasPath_fuel_enough; [|lia|lia].
  now apply hasNode_resolved.
Qed.

(** * Properties of the graph operations *)

(** C2 (failing input).  In [graph_two_adds] the input [1_in1] has the
    incoming connection [2_out -> 1_in1].  The call
    [addConnection("1_out", "1_in1")] is a self-loop: it is refused, it
    returns [false], and the connection list it leaves is empty.  In
    [graph_three_adds] the call [addConnection("2_out", "1_in1")] would
    close the cycle 1 -> 2 -> 1: it returns [false], and the connection
    [3_out -> 1_in1] is gone.  The old connection to [toPortId] is
    removed before the cycle test. *)
Theorem addConnection_refusal_drops_old_connection :
  (connections graph_two_adds = [{| from := "2_out"; to := "1_in1" |}] /\
   wouldCreateCycle graph_two_adds "1_out" "1_in1" = true /\
   fst (addConnection graph_two_adds "1_out" "1_in1") = false /\
   connections (snd (addConnection graph_two_adds "1_out" "1_in1")) = []) /\
  (connections graph_three_adds =
     [{| from := "1_out"; to := "2_in1" |};
      {| from := "3_out"; to := "1_in1" |}] /\
   wouldCreateCycle graph_three_adds "2_out" "1_in1" = true /\
   fst (addConnection graph_three_adds "2_out" "1_in1") = false /\
   connections (snd (addConnection graph_three_adds "2_out" "1_in1")) =
     [{| from := "1_out"; to := "2_in1" |}]).
Proof. vm_compute. repeat split. Qed.

(** C10.  When neither port id resolves to a node of the graph,
    [addConnection] returns [true] and the new connection is appended:
    the list it leaves is the old one without the connections to
    [toPortId], followed by [{from: fromPortId, to: toPortId}].  No
    lookup of either port is made. *)
Theorem addConnection_unchecked_ports (g : NodeGraph) (f t : string) :
  getNodeIdFromPortId g f = None ->
  getNodeIdFromPortId g t = None ->
  fst (addConnection g f t) = true /\
  nodes (snd (addConnection g f t)) = nodes g /\
  connections (snd (addConnection g f t)) =
    List.filter (fun conn => negb (String.eqb (to conn) t)) (connections g)
    ++ [{| from := f; to := t |}] /\
  (existsb (fun conn => String.eqb (to conn) t) (connections g) = false ->
   connections (snd (addConnection g f t)) =
     connections g ++ [{| from := f; to := t |}]).
Proof.
  intros Hf Ht. unfold addConnection.
  destruct (existsb _ (connections g)) eqn:E.
  - rewrite wouldCreateCycle_unresolved
      by (left; now rewrite getNodeIdFromPortId_set_connections).
    cbn. repeat split; trivial. discriminate.
  - rewrite wouldCreateCycle_unresolved by now left.
    cbn. rewrite (filter_none_matches _ _ E). repeat split; trivial.
Qed.

Lemma addConnection_unchecked_ports_witness :
  fst (addConnection graph_two_adds "ghost_in" "nowhere_out") = true /\
  nodes (snd (addConnection graph_two_adds "ghost_in" "nowhere_out"))
  = nodes graph_two_adds /\
  connections (snd (addConnection graph_two_adds "ghost_in" "nowhere_out")) =
    List.filter (fun conn => negb (String.eqb (to conn) "nowhere_out"))
      (connections graph_two_adds)
    ++ [{| from := "ghost_in"; to := "nowhere_out" |}] /\
  (existsb (fun conn => String.eqb (to conn) "nowhere_out")
     (connections graph_two_adds) = false ->
   connections (snd (addConnection graph_two_adds "ghost_in" "nowhere_out")) =
     connections graph_two_adds
     ++ [{| from := "ghost_in"; to := "nowhere_out" |}]).
Proof.
  apply (addConnection_unchecked_ports graph_two_adds
           "ghost_in" "nowhere_out"); reflexivity.
Defined.

(** C7.  In a graph whose ports are named after their nodes, as
    [addNode] names them, [removeNode(N.id)] for a node [N] that is not
    the terrain output removes [N] from the node list and keeps the other
    nodes; the connections it keeps are exactly those of the old list
    neither port id of which has the form [`${N.id}_...`]; so it removes
    every connection one of whose ports is a port of [N], and it keeps
    every connection between ports of two other nodes. *)
Theorem removeNode_cascade (g : NodeGraph) (nodeId : positive) (N : Node) :
  well_formed g = true ->
  findNode g nodeId = Some N ->
  is_terrain_output (node_kind N) = false ->
  (forall n, In n (nodes (snd (removeNode g nodeId)))
             <-> In n (nodes g) /\ node_id n <> nodeId) /\
  ~ In N (nodes (snd (removeNode g nodeId))) /\
  (forall c, In c (connections (snd (removeNode g nodeId)))
             <-> In c (connections g)
                 /\ ~ named_after nodeId (from c)
                 /\ ~ named_after nodeId (to c)) /\
  (forall c, In c (connections g) ->
             owns N (from c) || owns N (to c) = true ->
             ~ In c (connections (snd (removeNode g nodeId)))) /\
  (forall c A B,
      In c (connections g) -> In A (nodes g) -> In B (nodes g) ->
      node_id A <> nodeId -> node_id B <> nodeId ->
      owns A (from c) = true -> owns B (to c) = true ->
      In c (connections (snd (removeNode g nodeId)))).
Proof.
  intros Hwf Hfind Hout.
  apply andb_true_iff in Hwf as [Hwf Hnamed].
  apply andb_true_iff in Hwf as [Hdist _].
  rewrite forallb_forall in Hnamed.
  destruct (find_some_id _ _ _ Hfind) as [HN Hid].
  unfold removeNode. rewrite Hfind, Hout.
  cbn [snd nodes connections].
  assert (Hnodes : forall n,
    In n (List.filter (fun n0 => negb (Pos.eqb (node_id n0) nodeId)) (nodes g))
    <-> In n (nodes g) /\ node_id n <> nodeId).
  { intros n. rewrite filter_In, negb_true_iff, Pos.eqb_neq. tauto. }
  assert (Hconns : forall c,
    In c (List.filter
            (fun conn => negb (startsWith (from conn) (pretty nodeId +:+ "_"))
                         && negb (startsWith (to conn) (pretty nodeId +:+ "_")))
            (connections g))
    <-> In c (connections g)
        /\ ~ named_after nodeId (from c) /\ ~ named_after nodeId (to c)).
  { intros c.
    rewrite filter_In, andb_true_iff, !negb_true_iff,
      <- !not_true_iff_false, !startsWith_named_after. tauto. }
  split; [exact Hnodes|]. split; [|split; [exact Hconns|split]].
  - intros HN'. apply Hnodes in HN'. now destruct HN' as [_ HN'].
  - intros c Hc Howns Hkept.
    apply Hconns in Hkept as (_ & Hf & Ht).
    apply orb_true_iff in Howns as [Ho|Ho];
      apply (owns_named N), startsWith_named_after in Ho; auto;
      rewrite Hid in Ho; contradiction.
  - intros c A B Hc HA HB HAid HBid HoA HoB.
    apply Hconns. split; [trivial|].
    split; intros Hn; apply startsWith_named_after in Hn.
    + apply (owns_named A) in HoA; auto.
      destruct HAid. eapply node_prefix_inj; eauto.
    + apply (owns_named B) in HoB; auto.
      destruct HBid. eapply node_prefix_inj; eauto.
Qed.

(** Node 1 of [graph_twelve]. *)
Lemma removeNode_one_of_twelve :
  connections graph_twelve =
    [{| from := "1_out"; to := "12_in" |};
     {| from := "12_out"; to := "3_in" |}] /\
  connections (snd (removeNode graph_twelve 1)) =
    [{| from := "12_out"; to := "3_in" |}] /\
  connections (snd (removeNode graph_twelve 12)) = [] /\
  connections (snd (removeNode graph_twelve 2)) = connections graph_twelve.
Proof. vm_compute. repeat split. Qed.

Lemma removeNode_cascade_witness :
  (forall n, In n (nodes (snd (removeNode graph_twelve 1)))
             <-> In n (nodes graph_twelve) /\ node_id n <> 1%positive) /\
  ~ In abs_node_1 (nodes (snd (removeNode graph_twelve 1))) /\
  (forall c, In c (connections (snd (removeNode graph_twelve 1)))
             <-> In c (connections graph_twelve)
                 /\ ~ named_after 1 (from c)
                 /\ ~ named_after 1 (to c)) /\
  (forall c, In c (connections graph_twelve) ->
             owns abs_node_1 (from c) || owns abs_node_1 (to c) = true ->
             ~ In c (connections (snd (removeNode graph_twelve 1)))) /\
  (forall c A B,
      In c (connections graph_twelve) ->
      In A (nodes graph_twelve) -> In B (nodes graph_twelve) ->
      node_id A <> 1%positive -> node_id B <> 1%positive ->
      owns A (from c) = true -> owns B (to c) = true ->
      In c (connections (snd (removeNode graph_twelve 1)))).
Proof.
  apply (removeNode_cascade graph_twelve 1 abs_node_1); reflexivity.
Defined.

(** * Properties of validation *)

Section Validation.

Variable g : NodeGraph.

Lemma validateGraph_errors (r : ValidationResult) :
  validateGraph g = Some r ->
  exists e1, outputErrors g = Some e1 /\
             errors r = e1 ++ disconnectedErrors g ++ unusedErrors g /\
             valid r = match errors r with [] => true | _ => false end.
Proof.
  unfold validateGraph. destruct (outputErrors g) as [e1|]; [|discriminate].
  intros [= <-]. now exists e1.
Qed.

Lemma unusedErrors_In (node : Node) :
  In node (nodes g) -> is_unused g node = true ->
  In (msg_not_connected node) (unusedErrors g).
Proof.
  intros Hin Hun. unfold unusedErrors. apply in_flat_map.
  exists node. split; [trivial|]. rewrite Hun. now left.
Qed.

End Validation.

(** C3 (as stated, refuted).  Node 3 of [graph_orphan] is wired to
    nothing and is the only defect of the graph: it is reported in
    [errors], the result is not valid, and [exportToLua] returns without
    producing code. *)
Lemma orphan_node_blocks_export :
  validateGraph graph_orphan =
    Some {| valid := false;
            errors :=
              ["Node 3 (terrain-type) is not connected to the output"] |} /\
  exportToLua graph_orphan =
    Some (ExportRefused
            ["Node 3 (terrain-type) is not connected to the output"]).
Proof. vm_compute. split; reflexivity. Qed.

(** C3 (amended).  A node other than the terrain output that the
    terrain output does not reach by following connections backward is
    reported in the [errors] list of the validation result, which has no
    list of warnings; the result is then invalid and [exportToLua]
    returns these errors instead of code. *)
Theorem unreachable_node_is_an_error
  (g : NodeGraph) (r : ValidationResult) (node : Node) :
  validateGraph g = Some r ->
  In node (nodes g) ->
  is_terrain_output (node_kind node) = false ->
  (forall out, getOutputNode g = Some out ->
               ~ reaches g (node_id out) (node_id node)) ->
  In (msg_not_connected node) (errors r) /\
  valid r = false /\
  exportToLua g = Some (ExportRefused (errors r)).
Proof.
  intros Hv Hin Hkind Hunreach.
  assert (Hun : is_unused g node = true).
  { unfold is_unused. rewrite Hkind, andb_true_r.
    apply negb_true_iff, bool_decide_eq_false. intros Hused.
    destruct (getOutputNode g) as [out|] eqn:Hout.
    - apply (Hunreach out eq_refl). now apply usedNodesOf_reaches.
    - unfold usedNodesOf in Hused. rewrite Hout in Hused. set_solver. }
  destruct (validateGraph_errors g r Hv) as (e1 & _ & He & Hvalid).
  assert (Hmsg : In (msg_not_connected node) (errors r)).
  { rewrite He, !in_app_iff. right; right. now apply unusedErrors_In. }
  assert (Hfalse : valid r = false).
  { rewrite Hvalid. destruct (errors r); [destruct Hmsg|reflexivity]. }
  repeat split; trivial.
  unfold exportToLua. now rewrite Hv, Hfalse.
Qed.

Lemma unreachable_node_is_an_error_witness :
  In (msg_not_connected orphan_node) (errors orphan_result) /\
  valid orphan_result = false /\
  exportToLua graph_orphan = Some (ExportRefused (errors orphan_result)).
Proof.
  apply (unreachable_node_is_an_error graph_orphan orphan_result orphan_node).
  - reflexivity.
  - vm_compute. right; right; left; reflexivity.
  - reflexivity.
  - intros out Hout Hreach.
    apply (usedNodesOf_reaches graph_orphan out) in Hreach; [|exact Hout].
    assert (bool_decide (node_id orphan_node ∈ usedNodesOf graph_orphan)
            = true) as Hused by now apply bool_decide_eq_true_2.
    vm_compute in Hused. discriminate.
Defined.

(** * Properties of the evaluator *)

Section EvaluatorFacts.

Variable host : Host.
Variable g : NodeGraph.
Variables x y z : num.

(** Past the guard, [evaluatePort] returns the number 0 and leaves
    [visitedPorts] as it is, whatever the port. *)
Lemma evaluatePort_guard (p : string) (visited : gset string) (depth : nat) :
  (MAX_RECURSION_DEPTH < depth)%nat ->
  evaluatePort host g x y z p visited depth = Some (VNum JS.zero, visited).
Proof.
  intros H. unfold evaluatePort.
  replace (S MAX_RECURSION_DEPTH - depth)%nat with 0%nat by lia.
  reflexivity.
Qed.

Lemma findConnectionTo_None (p : string) :
  (forall c, In c (connections g) -> to c <> p) ->
  findConnectionTo g p = None.
Proof.
  intros H. unfold findConnectionTo.
  destruct (List.find _ _) as [c|] eqn:E; [|reflexivity].
  apply find_some in E as [Hin Heq]. apply String.eqb_eq in Heq.
  now destruct (H c Hin).
Qed.

Lemma findConnectionTo_Some (p : string) (c : Connection) :
  In c (connections g) -> to c = p ->
  exists c', findConnectionTo g p = Some c'.
Proof.
  intros Hin Heq. unfold findConnectionTo.
  destruct (List.find _ _) as [c'|] eqn:E; [now exists c'|].
  eapply find_none in E; [|exact Hin].
  apply String.eqb_neq in E. now destruct E.
Qed.

Lemma findOutput_In (ns : list Node) (p : string) (node : Node) (out : Port) :
  findOutput ns p = Some (node, out) -> In node ns.
Proof.
  induction ns as [|n ns IH]; cbn; [discriminate|].
  destruct (List.find _ (outputs n)); [intros [= <- _]; now left|].
  intros H. right. now apply IH.
Qed.

(** A node with the inputs of its type is evaluated without an
    exception when its inputs are. *)
Lemma evaluateNode_returns (ev : string -> Eval Value)
  (node : Node) (out : Port) (s : gset string) :
  (forall p s', is_Some (ev p s')) ->
  arity_ok node = true ->
  is_Some (evaluateNode host g x y z ev node out s).
Proof.
  intros Hev Har. unfold arity_ok in Har.
  apply andb_true_iff in Har as [Hlen H3].
  unfold evaluateNode, inputId, bind, ret, throw.
  destruct (node_kind node) eqn:K; cbn [is_compare andb negb] in H3;
    try (repeat case_match; eauto; fail);
    destruct (inputs node) as [|p0 [|p1 [|p2 [|p3 ps]]]];
    try discriminate; cbn [nth_error length Nat.ltb Nat.leb] in *;
    repeat match goal with
      | |- context [ev ?p ?s'] =>
          let a := fresh "a" in let s'' := fresh "s" in
          destruct (Hev p s') as [[a s''] ->]
      | |- is_Some (Some _) => eexists; reflexivity
      | |- context [if ?b then _ else _] => destruct b
      | |- context [findConnectionTo g ?q] => destruct (findConnectionTo g q)
      | |- _ => progress cbn [nth_error]
      end.
Qed.

Hypothesis Harity : forallb arity_ok (nodes g) = true.

Lemma evaluatePort_fuel_returns (fuel : nat) :
  forall p s, is_Some (evaluatePort_fuel host g x y z fuel p s).
Proof.
  induction fuel as [|fuel IH]; intros p s; cbn [evaluatePort_fuel].
  - eexists; reflexivity.
  - case_match; [eexists; reflexivity|].
    destruct (findOutput (nodes g) p) as [[node out]|] eqn:E.
    + apply evaluateNode_returns; [exact IH|].
      rewrite forallb_forall in Harity.
      eapply Harity, findOutput_In, E.
    + destruct (findConnectionTo g p); [apply IH|].
      repeat case_match; eexists; reflexivity.
Qed.

End EvaluatorFacts.

(** C1 (as stated, refuted).  The terrain output of [graph_compare_only]
    is connected, and [evaluateTerrain] returns the number 0, which is
    neither [null] nor a terrain sample: the compare node has no terrain
    wired to its "If False" input and returns its numeric fallback. *)
Lemma evaluateTerrain_returns_a_number :
  evaluateTerrain idle_host graph_compare_only JS.zero JS.zero JS.zero
  = Some (VNum JS.zero) /\
  is_terrain_sample (VNum JS.zero) = false.
Proof. vm_compute. split; reflexivity. Qed.

(** The same holds for every host and every position. *)
Lemma compare_fallback_on_every_host (host : Host) (x y z : num) :
  evaluateTerrain host graph_compare_only x y z = Some (VNum JS.zero).
Proof. vm_compute. reflexivity. Qed.

(** C1 (amended).  [evaluateTerrain] returns [null] when there is no
    terrain output node, when that node has no input port, and when no
    connection targets its first input; otherwise it returns the value
    of [evaluatePort] on that input, or [null] when [evaluatePort]
    throws.  No exception escapes.  On a graph whose nodes have the
    inputs of their types, [evaluatePort] never throws.  The value is
    whatever [evaluatePort] computes; it need not be a terrain sample
    (the fallback of a compare node is a number). *)
Theorem evaluateTerrain_total (host : Host) (g : NodeGraph) (x y z : num) :
  (getOutputNode g = None -> evaluateTerrain host g x y z = None) /\
  (forall out,
      getOutputNode g = Some out -> inputs out = [] ->
      evaluateTerrain host g x y z = None) /\
  (forall out input rest,
      getOutputNode g = Some out -> inputs out = input :: rest ->
      (forall c, In c (connections g) -> to c <> port_id input) ->
      evaluateTerrain host g x y z = None) /\
  (forall out input rest c,
      getOutputNode g = Some out -> inputs out = input :: rest ->
      In c (connections g) -> to c = port_id input ->
      evaluateTerrain host g x y z =
        match evaluatePort host g x y z (port_id input) ∅ 0 with
        | Some (v, _) => Some v
        | None => None
        end) /\
  (forallb arity_ok (nodes g) = true ->
   forall p visited depth,
     is_Some (evaluatePort host g x y z p visited depth)).
Proof.
  unfold evaluateTerrain. repeat split.
  - now intros ->.
  - now intros out -> ->.
  - intros out input rest -> -> Hnone.
    now rewrite findConnectionTo_None.
  - intros out input rest c -> -> Hin Hto.
    destruct (findConnectionTo_Some g _ c Hin Hto) as [c' ->].
    reflexivity.
  - intros Har p visited depth. now apply evaluatePort_fuel_returns.
Qed.

(** The nodes of [addNode] have the inputs of their types. *)
Lemma addNode_arity_ok (t : NodeTypeTag) (px py rnd : num) (g : NodeGraph) :
  arity_ok (fst (addNode t px py rnd g)) = true.
Proof. destruct t; reflexivity. Qed.

(** C5 (failing input).  [graph_chain 100] is acyclic: a terrain output,
    one hundred compare nodes chained through their "If False" inputs,
    and the terrain type "Stone" (node 102) at the far end.  Its output
    port [102_out] is TERRAIN-typed and is reached at depth 101: the
    guard returns the number 0 for it, not an "air" descriptor, and 0 is
    what [evaluateTerrain] returns.  With ninety-nine compare nodes the
    guard is not reached and the result is the descriptor of "Stone". *)
Theorem recursion_guard_ignores_port_type
  (host : Host) (x y z : num) (visited : gset string) :
  findPort (graph_chain 100) "102_out" =
    Some {| port_id := "102_out"; port_name := "Terrain";
            port_type := TERRAIN |} /\
  evaluatePort host (graph_chain 100) x y z "102_out" visited 101
  = Some (VNum JS.zero, visited) /\
  evaluateTerrain host (graph_chain 100) x y z = Some (VNum JS.zero) /\
  evaluateTerrain host (graph_chain 99) x y z
  = Some (VObj (ObjTerrain "Stone" "solid" "#888888")).
Proof.
  split; [vm_compute; reflexivity|].
  split; [apply evaluatePort_guard; unfold MAX_RECURSION_DEPTH; lia|].
  split; vm_compute; reflexivity.
Qed.

(** * Port ids and their owners *)

Lemma digit_of_pretty_N_char (x : N) :
  (x < 10)%N -> digit_of (pretty_N_char x) = Some (Z.of_N x).
Proof.
  intros H.
  assert (x = 0 \/ x = 1 \/ x = 2 \/ x = 3 \/ x = 4 \/ x = 5 \/ x = 6
          \/ x = 7 \/ x = 8 \/ x = 9)%N as Hx by lia.
  repeat destruct Hx as [->|Hx]; try subst x; reflexivity.
Qed.

Lemma pretty_N_char_plain (x : N) :
  is_whitespace (pretty_N_char x) = false /\
  pretty_N_char x <> "-"%char /\ pretty_N_char x <> "+"%char.
Proof. unfold pretty_N_char. repeat case_match; repeat split; discriminate. Qed.

(** Reading back the digits that [pretty] writes. *)
Lemma parse_digits_pretty_N_go (x : N) :
  forall s, (0 < x)%N ->
    parse_digits (pretty_N_go x s) None = parse_digits s (Some (Z.of_N x)).
Proof.
  induction (N.lt_wf_0 x) as [x _ IH]; intros s Hx.
  rewrite pretty_N_go_step by trivial.
  destruct (decide (x `div` 10 = 0)%N) as [E|E].
  - rewrite E, pretty_N_go_0. cbn [parse_digits].
    rewrite digit_of_pretty_N_char by (apply N.mod_lt; lia).
    cbn [default]. do 2 f_equal.
    assert (x = 10 * (x `div` 10) + x `mod` 10)%N as Hdm
      by (apply N.div_mod; lia).
    rewrite E in Hdm. clear IH E.
    set (r := (x `mod` 10)%N) in *. clearbody r. lia.
  - rewrite IH by (first [apply N.div_lt; lia | now apply N.neq_0_lt_0]).
    cbn [parse_digits].
    rewrite digit_of_pretty_N_char by (apply N.mod_lt; lia).
    cbn [default]. do 2 f_equal.
    assert (x = 10 * (x `div` 10) + x `mod` 10)%N as Hdm
      by (apply N.div_mod; lia).
    clear IH E.
    set (r := (x `mod` 10)%N) in *. set (q := (x `div` 10)%N) in *.
    clearbody r q. unfold id. lia.
Qed.

Lemma pretty_N_go_head (x : N) :
  forall s, (0 < x)%N ->
    exists d rest, pretty_N_go x s = String (pretty_N_char d) rest.
Proof.
  induction (N.lt_wf_0 x) as [x _ IH]; intros s Hx.
  rewrite pretty_N_go_step by trivial.
  destruct (decide (x `div` 10 = 0)%N) as [E|E].
  - rewrite E, pretty_N_go_0. eauto.
  - apply IH; [apply N.div_lt; lia|now apply N.neq_0_lt_0].
Qed.

Lemma parseInt_pretty (id : positive) : parseInt (pretty id) = Some (Zpos id).
Proof.
  unfold pretty, pretty_positive, pretty, pretty_N.
  case_decide; [discriminate|].
  pose proof (parse_digits_pretty_N_go (Npos id) "" eq_refl) as Hparse.
  destruct (pretty_N_go_head (Npos id) "" eq_refl) as (d & rest & E).
  rewrite E in *. destruct (pretty_N_char_plain d) as (Hw & Hm & Hp).
  unfold parseInt. cbn [skip_whitespace]. rewrite Hw.
  destruct (pretty_N_char d) as [[] [] [] [] [] [] [] []];
    try exact Hparse; congruence.
Qed.

Lemma first_part_append (a s : string) :
  first_part a = None -> first_part (a +:+ "_" +:+ s) = Some a.
Proof.
  induction a as [|c a IH]; [reflexivity|].
  intros [Hc Ha]%first_part_cons.
  rewrite append_cons. cbn [first_part]. now rewrite Hc, IH.
Qed.

Lemma getNodeIdFromPortId_portId (g : NodeGraph) (id : positive)
  (suffix : string) :
  getNodeIdFromPortId g (portId id suffix)
  = if hasNode g id then Some id else None.
Proof.
  unfold getNodeIdFromPortId, portId.
  now rewrite first_part_append, parseInt_pretty by apply first_part_pretty.
Qed.

Lemma In_hasNode (g : NodeGraph) (n : Node) :
  In n (nodes g) -> hasNode g (node_id n) = true.
Proof.
  intros H. apply existsb_exists. exists n. split; [trivial|apply Pos.eqb_refl].
Qed.

Lemma well_formed_parts (g : NodeGraph) :
  well_formed g = true ->
  distinct_ids (nodes g) = true /\
  (forall n, In n (nodes g) -> (node_id n < nextNodeId g)%positive) /\
  (forall n, In n (nodes g) -> ports_named n = true).
Proof.
  unfold well_formed.
  intros [[Hd Hlt]%andb_true_iff Hn]%andb_true_iff.
  rewrite forallb_forall in Hlt, Hn. repeat split; auto.
  intros n Hin. now apply Pos.ltb_lt, Hlt.
Qed.

Lemma owned_port_resolves (g : NodeGraph) (A : Node) (p : string) :
  well_formed g = true -> In A (nodes g) -> owns A p = true ->
  getNodeIdFromPortId g p = Some (node_id A).
Proof.
  intros Hwf HA HoA.
  destruct (well_formed_parts g Hwf) as (_ & _ & Hn).
  pose proof (owns_named A p (Hn A HA) HoA) as HpA.
  apply startsWith_named_after in HpA as [s ->].
  now rewrite getNodeIdFromPortId_portId, In_hasNode.
Qed.

Lemma same_id_same_node (g : NodeGraph) (A B : Node) :
  well_formed g = true -> In A (nodes g) -> In B (nodes g) ->
  node_id A = node_id B -> A = B.
Proof.
  intros Hwf HA HB Hid.
  destruct (well_formed_parts g Hwf) as (Hd & _ & _).
  pose proof (find_distinct _ _ Hd HA) as FA.
  pose proof (find_distinct _ _ Hd HB) as FB.
  rewrite Hid in FA. congruence.
Qed.

(** X1.  In a graph whose nodes have distinct ids and ports named after
    them (every graph the mutators make), [getNodeIdFromPortId] returns
    the id of the node that owns the port, for every port of every node,
    and no port id belongs to two nodes. *)
Theorem port_owner_is_unique (g : NodeGraph) (A B : Node) (p : string) :
  well_formed g = true ->
  In A (nodes g) -> owns A p = true ->
  getNodeIdFromPortId g p = Some (node_id A) /\
  (In B (nodes g) -> owns B p = true -> B = A).
Proof.
  intros Hwf HA HoA.
  pose proof (owned_port_resolves g A p Hwf HA HoA) as HrA.
  split; [exact HrA|].
  intros HB HoB.
  pose proof (owned_port_resolves g B p Hwf HB HoB) as HrB.
  apply (same_id_same_node g); trivial. congruence.
Qed.

Lemma port_owner_is_unique_witness :
  getNodeIdFromPortId graph_twelve "1_out" = Some (node_id abs_node_1) /\
  (In abs_node_1 (nodes graph_twelve) -> owns abs_node_1 "1_out" = true ->
   abs_node_1 = abs_node_1).
Proof.
  apply (port_owner_is_unique graph_twelve abs_node_1 abs_node_1 "1_out").
  - reflexivity.
  - vm_compute. left. reflexivity.
  - reflexivity.
Defined.

(** * The cycle search finds exactly the paths *)

Section CycleSearchCorrect.

Variable g : NodeGraph.
Variable endNodeId : positive.

Local Open Scope nat_scope.

Lemma same_id_true (a b : option positive) : same_id a b = true <-> a = b.
Proof. unfold same_id. apply bool_decide_eq_true. Qed.

Lemma outgoing_In (start : option positive) (conn : Connection) :
  In conn (List.filter
             (fun c => same_id (getNodeIdFromPortId g (from c)) start)
             (connections g))
  <-> In conn (connections g) /\ getNodeIdFromPortId g (from conn) = start.
Proof. now rewrite filter_In, same_id_true. Qed.

(** Soundness: when the search answers [true] there is a path. *)
Lemma hasPath_fuel_sound (n : nat) :
  forall start visited v',
    hasPath_fuel n g start endNodeId visited = (true, v') ->
    tc (edge g) start (Some endNodeId).
Proof.
  induction n as [|n IH]; intros start visited v'; [discriminate|].
  rewrite hasPath_fuel_unfold. case_bool_decide; [discriminate|].
  generalize ({[start]} ∪ visited).
  assert (Hl : forall conn,
    In conn (List.filter
               (fun c => same_id (getNodeIdFromPortId g (from c)) start)
               (connections g)) ->
    In conn (connections g) /\ getNodeIdFromPortId g (from conn) = start)
    by (intros; now apply outgoing_In).
  revert Hl. generalize (List.filter
    (fun c => same_id (getNodeIdFromPortId g (from c)) start) (connections g)).
  induction l as [|conn l IHl]; intros Hl w; cbn [each_connection];
    [discriminate|].
  destruct (Hl conn (or_introl eq_refl)) as [Hin Hfrom].
  destruct (same_id _ (Some endNodeId)) eqn:E.
  - intros _. apply same_id_true in E. apply tc_once. now exists conn.
  - destruct (hasPath_fuel n g _ endNodeId w) as [[] w'] eqn:Hrec.
    + intros _. eapply tc_l; [|eapply IH, Hrec]. now exists conn.
    + apply IHl. intros c Hc. apply Hl. now right.
Qed.

(** Completeness: when the search answers [false] with enough fuel, the
    ids it has added are closed under the connections and none of the
    connections that leave them reaches the end node. *)
Lemma hasPath_fuel_closed (n : nat) :
  forall start visited v',
    start ∈ resolvedIds g ->
    size (resolvedIds g ∖ visited) < n ->
    hasPath_fuel n g start endNodeId visited = (false, v') ->
    start ∈ v' /\ visited ⊆ v' /\
    (forall b c, b ∈ v' -> b ∉ visited -> edge g b c ->
                 c <> Some endNodeId /\ c ∈ v').
Proof.
  induction n as [|n IH]; intros start visited v' Hstart Hsize; [lia|].
  rewrite hasPath_fuel_unfold. case_bool_decide as Hin.
  { intros [= <-]. split; [trivial|]. split; [reflexivity|].
    intros b c Hb Hnb; contradiction. }
  set (v1 := ({[start]} ∪ visited : gset (option positive))).
  assert (Hv1 : forall b, b ∈ v1 <-> b = start \/ b ∈ visited)
    by (intros b; unfold v1; rewrite elem_of_union, elem_of_singleton;
        tauto).
  assert (Hsize1 : size (resolvedIds g ∖ v1) < n).
  { assert (resolvedIds g ∖ v1 ⊂ resolvedIds g ∖ visited) as Hsub.
    { clear -Hstart Hin. set_solver. }
    apply subset_size in Hsub. lia. }
  assert (Hloop : forall l w v'',
    v1 ⊆ w ->
    (forall b c, b ∈ w -> b ∉ v1 -> edge g b c ->
                 c <> Some endNodeId /\ c ∈ w) ->
    each_connection g
      (fun toNodeId v => hasPath_fuel n g toNodeId endNodeId v)
      endNodeId l w = (false, v'') ->
    w ⊆ v'' /\
    (forall b c, b ∈ v'' -> b ∉ v1 -> edge g b c ->
                 c <> Some endNodeId /\ c ∈ v'') /\
    (forall conn, In conn l ->
       getNodeIdFromPortId g (to conn) <> Some endNodeId /\
       getNodeIdFromPortId g (to conn) ∈ v'')).
  { clear Hv1 Hsize Hstart Hin.
    induction l as [|conn l IHl]; intros w v'' Hw Hcl; cbn [each_connection].
    { intros [= <-]. split; [reflexivity|]. split; [exact Hcl|].
      intros ? []. }
    destruct (same_id _ (Some endNodeId)) eqn:E; [discriminate|].
    destruct (hasPath_fuel n g _ endNodeId w) as [[] w'] eqn:Hrec;
      [discriminate|].
    intros Hrest.
    assert (Hle : size (resolvedIds g ∖ w) <= size (resolvedIds g ∖ v1)).
    { apply subseteq_size. clear -Hw. set_solver. }
    destruct (IH _ w w' (getNodeIdFromPortId_resolved g _) ltac:(lia) Hrec)
      as (Hto & Hww' & Hnew).
    destruct (IHl w' v'') as (Hw' & Hcl' & Hconns);
      [etrans; eassumption| |exact Hrest|].
    { intros b c Hb Hnb Hedge. destruct (decide (b ∈ w)) as [Hbw|Hbw].
      - destruct (Hcl b c Hbw Hnb Hedge). split; [trivial|]. now apply Hww'.
      - now apply (Hnew b c). }
    split; [etrans; eassumption|]. split; [exact Hcl'|].
    intros c [<-|Hc]; [|now apply Hconns].
    split; [|now apply Hw'].
    intros Heq. apply same_id_true in Heq. congruence. }
  intros Hres.
  destruct (Hloop _ v1 v' ltac:(reflexivity)
              ltac:(intros b c Hb Hnb; contradiction) Hres)
    as (Hsub & Hcl & Hconns).
  split; [apply Hsub, Hv1; now left|].
  split; [intros b Hb; apply Hsub, Hv1; now right|].
  intros b c Hb Hnb Hedge.
  destruct (decide (b = start)) as [->|Hne].
  - destruct Hedge as (conn & Hc & Hf & Ht). subst c.
    apply Hconns, outgoing_In. now split.
  - apply (Hcl b c); trivial. rewrite Hv1. tauto.
Qed.

Lemma hasPath_iff (start : option positive) :
  start ∈ resolvedIds g ->
  hasPath g start endNodeId ∅ = true <-> tc (edge g) start (Some endNodeId).
Proof.
  intros Hstart. unfold hasPath.
  destruct (hasPath_fuel _ g start endNodeId ∅) as [[] v'] eqn:E; cbn [fst].
  - split; [intros _|reflexivity]. eapply hasPath_fuel_sound, E.
  - split; [discriminate|]. intros Hpath. exfalso.
    apply hasPath_fuel_closed in E as (Hs & _ & Hcl); trivial.
    + assert (Hall : forall x y, tc (edge g) x y -> x ∈ v' ->
                                 y <> Some endNodeId /\ y ∈ v').
      { induction 1 as [x y Hxy|x y z Hxy _ IHt]; intros Hx.
        - apply (Hcl x y); trivial. apply not_elem_of_empty.
        - apply IHt. apply (Hcl x y); trivial. apply not_elem_of_empty. }
      now destruct (Hall _ _ Hpath Hs).
    + pose proof (size_resolvedIds g).
      assert (size (resolvedIds g ∖ ∅) <= size (resolvedIds g))
        by (apply subseteq_size, subseteq_difference_l; reflexivity).
      lia.
Qed.

End CycleSearchCorrect.

(** X: [wouldCreateCycle] answers [true] exactly when both port ids
    resolve to nodes and either they are the same node or connections
    lead from the node of [toPortId] to the node of [fromPortId]. *)
Theorem wouldCreateCycle_iff (g : NodeGraph) (f t : string) :
  wouldCreateCycle g f t = true <->
  exists a b,
    getNodeIdFromPortId g f = Some a /\
    getNodeIdFromPortId g t = Some b /\
    (a = b \/ tc (edge g) (Some b) (Some a)).
Proof.
  unfold wouldCreateCycle.
  destruct (getNodeIdFromPortId g f) as [a|] eqn:Ef.
  2:{ split; [discriminate|]. now intros (a & b & [=] & _). }
  destruct (getNodeIdFromPortId g t) as [b|] eqn:Et.
  2:{ split; [discriminate|]. now intros (a' & b & _ & [=] & _). }
  destruct (Pos.eqb_spec a b) as [->|Hne].
  - split; [|reflexivity]. intros _. exists b, b. auto.
  - rewrite hasPath_iff by (rewrite <- Et; apply getNodeIdFromPortId_resolved).
    split.
    + intros H. exists a, b. auto.
    + intros (a' & b' & [= <-] & [= <-] & [?|H]); [contradiction|exact H].
Qed.

(** * Connections added through [addConnection] close no cycle *)

Lemma tc_extra_edge {A} (R R' : relation A) (a b : A) :
  (forall x y, R' x y -> R x y \/ (x = a /\ y = b)) ->
  forall x y, tc R' x y ->
    tc R x y \/ (rtc R x a /\ rtc R b y).
Proof.
  intros Hstep x y Hxy.
  induction Hxy as [x y Hxy|x y z Hxy _ IH].
  - destruct (Hstep _ _ Hxy) as [H|[-> ->]].
    + left. now apply tc_once.
    + right. split; apply rtc_refl.
  - destruct (Hstep _ _ Hxy) as [H|[-> ->]].
    + destruct IH as [IH|[IH1 IH2]].
      * left. eapply tc_l; eauto.
      * right. split; [eapply rtc_l; eauto|trivial].
    + destruct IH as [IH|[IH1 IH2]].
      * right. split; [apply rtc_refl|now apply tc_rtc].
      * right. split; [apply rtc_refl|trivial].
Qed.

Lemma tc_subrel {A} (R R' : relation A) (x y : A) :
  (forall u v, R u v -> R' u v) -> tc R x y -> tc R' x y.
Proof. intros H. apply (tc_congruence (fun u => u)), H. Qed.

Lemma tc_node_edge_edge (g : NodeGraph) (a b : positive) :
  tc (node_edge g) a b -> tc (edge g) (Some a) (Some b).
Proof.
  induction 1 as [x y Hxy|x y z Hxy _ IH].
  - now apply tc_once.
  - eapply tc_l; eauto.
Qed.

Lemma acyclic_fewer_connections (g : NodeGraph) (cs : list Connection) :
  (forall c, In c cs -> In c (connections g)) ->
  acyclic g -> acyclic (set_connections g cs).
Proof.
  intros Hsub Hg a Hloop. apply (Hg a).
  eapply tc_subrel; [|exact Hloop].
  intros x y (c & Hc & Hf & Ht). exists c. auto.
Qed.

Lemma acyclic_one_more_connection (g : NodeGraph) (f t : string) :
  wouldCreateCycle g f t = false ->
  acyclic g ->
  acyclic (set_connections g (connections g ++ [{| from := f; to := t |}])).
Proof.
  intros Hno Hg x Hloop.
  destruct (getNodeIdFromPortId g f) as [a|] eqn:Ef.
  2:{ apply (Hg x). eapply tc_subrel; [|exact Hloop].
      intros u v (c & Hc & Hcf & Hct). cbn [connections set_connections] in Hc.
      apply in_app_or in Hc as [Hc|[<-|[]]]; [now exists c|].
      cbn [from] in Hcf.
      rewrite getNodeIdFromPortId_set_connections in Hcf. congruence. }
  destruct (getNodeIdFromPortId g t) as [b|] eqn:Et.
  2:{ apply (Hg x). eapply tc_subrel; [|exact Hloop].
      intros u v (c & Hc & Hcf & Hct). cbn [connections set_connections] in Hc.
      apply in_app_or in Hc as [Hc|[<-|[]]]; [now exists c|].
      cbn [to] in Hct.
      rewrite getNodeIdFromPortId_set_connections in Hct. congruence. }
  apply (tc_extra_edge (node_edge g) _ a b) in Hloop.
  - assert (Hcyc : wouldCreateCycle g f t = true); [|congruence].
    apply wouldCreateCycle_iff. exists a, b.
    split; [trivial|]. split; [trivial|].
    destruct Hloop as [Hloop|[Hxa Hbx]]; [now destruct (Hg x)|].
    assert (Hba : rtc (node_edge g) b a) by (etrans; eauto).
    apply rtc_tc in Hba as [<-|Hba]; [now left|].
    right. now apply tc_node_edge_edge.
  - intros u v (c & Hc & Hcf & Hct). cbn [connections set_connections] in Hc.
    rewrite getNodeIdFromPortId_set_connections in Hcf, Hct.
    apply in_app_or in Hc as [Hc|[<-|[]]]; [left; now exists c|].
    right. cbn [from to] in Hcf, Hct. split; congruence.
Qed.

Lemma acyclic_addConnection (g : NodeGraph) (f t : string) :
  acyclic g -> acyclic (snd (addConnection g f t)).
Proof.
  intros Hg. unfold addConnection.
  set (g1 := if existsb _ _ then _ else g).
  assert (Hg1 : acyclic g1).
  { subst g1. destruct (existsb _ _); [|exact Hg].
    apply acyclic_fewer_connections; [|exact Hg].
    intros c Hc. now apply filter_In in Hc. }
  destruct (wouldCreateCycle g1 f t) eqn:Hc; cbn [snd]; [exact Hg1|].
  now apply acyclic_one_more_connection.
Qed.

(** X: [addConnection] never closes a cycle of connections between
    nodes of the graph: a graph without such a cycle has none after the
    call, whichever ports are named and whatever the call answers. *)
Theorem addConnection_keeps_acyclic (g : NodeGraph) (f t : string) :
  acyclic g -> acyclic (snd (addConnection g f t)).
Proof. apply acyclic_addConnection. Qed.

Lemma addConnection_keeps_acyclic_witness : acyclic graph_two_adds.
Proof.
  apply (addConnection_keeps_acyclic graph_two_unwired "2_out" "1_in1").
  intros a Hloop.
  destruct Hloop as [? ? (c & Hc & _)|? ? ? (c & Hc & _) _]; exact Hc.
Defined.

(** * Adding and removing connections *)

Lemma filter_filter_neg {A} (f : A -> bool) (l : list A) :
  List.filter f (List.filter (fun a => negb (f a)) l) = [].
Proof.
  induction l as [|a l IH]; [reflexivity|]. cbn [List.filter].
  destruct (f a) eqn:E; cbn [negb List.filter]; [exact IH|].
  now rewrite E.
Qed.

Lemma filter_idem {A} (f : A -> bool) (l : list A) :
  List.filter f (List.filter f l) = List.filter f l.
Proof.
  induction l as [|a l IH]; [reflexivity|]. cbn [List.filter].
  destruct (f a) eqn:E; cbn [List.filter]; [rewrite E|]; now rewrite ?IH.
Qed.

Lemma filter_all {A} (f : A -> bool) (l : list A) :
  existsb f l = false -> List.filter (fun a => negb (f a)) l = l.
Proof.
  induction l as [|a l IH]; [reflexivity|]. cbn [existsb List.filter].
  intros [Ha Hl]%orb_false_iff. now rewrite Ha, IH.
Qed.

(** [addConnection] in one equation: the connections to [toPortId] are
    dropped first, whether there are any or not. *)
Lemma addConnection_eq (g : NodeGraph) (f t : string) :
  let cs := List.filter (fun c => negb (String.eqb (to c) t))
              (connections g) in
  addConnection g f t =
    if wouldCreateCycle (set_connections g cs) f t
    then (false, set_connections g cs)
    else (true, set_connections g (cs ++ [{| from := f; to := t |}])).
Proof.
  unfold addConnection.
  destruct (existsb _ (connections g)) eqn:E; [reflexivity|].
  cbn zeta. rewrite (filter_all _ _ E). now destruct g.
Qed.

(** X: [addConnection] changes the connections of one input port only:
    the nodes and the connections to other ports stay as they are, in
    their order; the port [toPortId] has exactly the new connection when
    the call answers [true], and none when it answers [false]. *)
Theorem addConnection_replaces_target (g : NodeGraph) (f t : string) :
  let '(ok, g') := addConnection g f t in
  nodes g' = nodes g /\ nextNodeId g' = nextNodeId g /\
  List.filter (fun c => negb (String.eqb (to c) t)) (connections g')
  = List.filter (fun c => negb (String.eqb (to c) t)) (connections g) /\
  List.filter (fun c => String.eqb (to c) t) (connections g')
  = if ok then [{| from := f; to := t |}] else [].
Proof.
  rewrite addConnection_eq.
  destruct (wouldCreateCycle _ f t); cbn [nodes connections set_connections
    nextNodeId]; repeat split; trivial.
  - apply filter_idem.
  - apply filter_filter_neg.
  - rewrite List.filter_app, filter_idem. cbn [List.filter to].
    rewrite String.eqb_refl. cbn [negb]. apply app_nil_r.
  - rewrite List.filter_app, filter_filter_neg. cbn [List.filter to].
    now rewrite String.eqb_refl.
Qed.

Lemma In_map_to_filter (t : string) (cs : list Connection) :
  List.filter (fun c => String.eqb (to c) t) cs = [] -> ~ In t (map to cs).
Proof.
  intros Hnone (c & Hc & Hin)%in_map_iff.
  assert (In c (List.filter (fun c => String.eqb (to c) t) cs)) as H.
  { apply filter_In. split; [trivial|]. now apply String.eqb_eq. }
  rewrite Hnone in H. destruct H.
Qed.

Lemma single_source_filter (f : Connection -> bool) (cs : list Connection) :
  single_source cs -> single_source (List.filter f cs).
Proof.
  unfold single_source. induction cs as [|c cs IH]; [trivial|].
  cbn [map List.filter]. intros H. inversion H as [|? ? Hc Hcs]; subst.
  destruct (f c); [|auto]. cbn [map]. constructor; [|auto].
  intros (c' & Hto & Hin)%in_map_iff. apply filter_In in Hin as [Hin _].
  apply Hc, in_map_iff. eauto.
Qed.

Lemma single_source_snoc (cs : list Connection) (c : Connection) :
  single_source cs -> ~ In (to c) (map to cs) -> single_source (cs ++ [c]).
Proof.
  unfold single_source. induction cs as [|c' cs IH]; cbn [map app].
  - intros _ _. constructor; [intros []|constructor].
  - intros H Hn. inversion H as [|? ? Hc Hcs]; subst.
    constructor.
    + rewrite map_app, in_app_iff. cbn [map In].
      intros [?|[Heq|[]]]; [auto|]. apply Hn. left. now symmetry.
    + apply IH; [trivial|]. intros Hin. apply Hn. now right.
Qed.

Lemma set_connections_same (g : NodeGraph) :
  set_connections g (connections g) = g.
Proof. now destruct g. Qed.

Lemma set_connections_twice (g : NodeGraph) (a b : list Connection) :
  set_connections (set_connections g a) b = set_connections g b.
Proof. reflexivity. Qed.

Lemma filter_index_all {A} (i : Z) (l : list A) :
  forall start,
    (i < start \/ start + Z.of_nat (length l) <= i) ->
    filter_index (fun _ index => negb (Z.eqb index i)) start l = l.
Proof.
  induction l as [|a l IH]; intros start Hi; [reflexivity|].
  cbn [filter_index]. cbn [length] in Hi.
  destruct (Z.eqb_spec start i) as [->|_]; [lia|]. cbn [negb].
  rewrite IH; [reflexivity|lia].
Qed.

Lemma filter_index_at {A} (i : Z) (l : list A) :
  forall start,
    start <= i < start + Z.of_nat (length l) ->
    filter_index (fun _ index => negb (Z.eqb index i)) start l
    = firstn (Z.to_nat (i - start)) l ++ skipn (S (Z.to_nat (i - start))) l.
Proof.
  induction l as [|a l IH]; intros start Hi; cbn [length] in Hi; [lia|].
  cbn [filter_index].
  destruct (Z.eqb_spec start i) as [->|Hne]; cbn [negb].
  - rewrite Z.sub_diag. cbn [Z.to_nat firstn skipn app].
    apply filter_index_all. lia.
  - rewrite IH by lia.
    replace (Z.to_nat (i - start)) with (S (Z.to_nat (i - (start + 1))))
      by lia.
    reflexivity.
Qed.

(** X: [removeConnection] with an index removes the connection at that
    position and keeps the others in their order; an index outside the
    list leaves the graph as it is.  The nodes are never changed. *)
Theorem removeConnection_by_index (g : NodeGraph) (i : Z) :
  nodes (removeConnection g (ByIndex i)) = nodes g /\
  (0 <= i < Z.of_nat (length (connections g)) ->
   connections (removeConnection g (ByIndex i))
   = firstn (Z.to_nat i) (connections g)
     ++ skipn (S (Z.to_nat i)) (connections g)) /\
  (i < 0 \/ Z.of_nat (length (connections g)) <= i ->
   removeConnection g (ByIndex i) = g).
Proof.
  split; [reflexivity|]. split; intros Hi; cbn [removeConnection].
  - cbn [connections set_connections].
    rewrite filter_index_at by lia. now rewrite Z.sub_0_r.
  - rewrite filter_index_all by lia. apply set_connections_same.
Qed.

Lemma filter_target_none (cs : list Connection) (t : string) :
  existsb (fun c => String.eqb (to c) t) cs = false ->
  forall h : Connection -> bool,
    (forall c, String.eqb (to c) t = false -> h c = true) ->
    List.filter h cs = cs.
Proof.
  induction cs as [|c cs IH]; [reflexivity|]. cbn [existsb List.filter].
  intros [Hc Hcs]%orb_false_iff h Hh. now rewrite (Hh c Hc), IH.
Qed.

Lemma filter_index_app {A} (keep : A -> Z -> bool) (l l' : list A) :
  forall start,
    filter_index keep start (l ++ l')
    = filter_index keep start l
      ++ filter_index keep (start + Z.of_nat (length l)) l'.
Proof.
  induction l as [|a l IH]; intros start; cbn [app filter_index length].
  - now rewrite Z.add_0_r.
  - rewrite IH.
    replace (start + 1 + Z.of_nat (length l))
      with (start + Z.of_nat (S (length l))) by lia.
    now destruct (keep a start).
Qed.

(** X: adding a connection to an input port that had none, and then
    removing it again, gives the graph back, by each way of removing:
    the index of the new connection (it is the last one), its two port
    ids when neither is the empty string, or its target port.  With an
    empty port id the removal by properties leaves the new connection in
    place. *)
Theorem add_then_remove_connection (g : NodeGraph) (f t : string) :
  existsb (fun c => String.eqb (to c) t) (connections g) = false ->
  fst (addConnection g f t) = true ->
  let g' := snd (addConnection g f t) in
  let c := {| from := f; to := t |} in
  connections g' = connections g ++ [c] /\
  removeConnection g' (ByIndex (Z.of_nat (length (connections g)))) = g /\
  removeConnection g' (ByProperties c)
  = (if truthy f && truthy t then g else g') /\
  removeConnectionsToPort g' t = ([c], g).
Proof.
  intros Hnone Hok g' c.
  pose proof (addConnection_eq g f t) as Hadd. cbn zeta in Hadd.
  rewrite (filter_all _ _ Hnone), set_connections_same in Hadd.
  assert (Hg' : g' = set_connections g (connections g ++ [c])).
  { subst g'. rewrite Hadd in *.
    destruct (wouldCreateCycle g f t); [discriminate|reflexivity]. }
  clearbody g'. subst g'. clear Hadd Hok.
  split; [reflexivity|].
  split; [|split].
  - cbn [removeConnection connections set_connections].
    rewrite filter_index_app, filter_index_all by lia.
    cbn [filter_index]. rewrite Z.add_0_l, Z.eqb_refl. cbn [negb].
    rewrite app_nil_r, set_connections_twice. apply set_connections_same.
  - cbn [removeConnection from to c].
    destruct (truthy f && truthy t); [|reflexivity].
    cbn [connections set_connections].
    rewrite List.filter_app. cbn [List.filter from to].
    rewrite !String.eqb_refl. cbn [andb negb]. rewrite app_nil_r.
    rewrite (filter_target_none _ t Hnone).
    + rewrite set_connections_twice. apply set_connections_same.
    + intros c' ->. now rewrite andb_false_r.
  - unfold removeConnectionsToPort. cbn [connections set_connections].
    rewrite !List.filter_app. cbn [List.filter to c].
    rewrite String.eqb_refl. cbn [negb]. rewrite app_nil_r.
    rewrite (filter_target_none _ t Hnone
               (fun conn => negb (String.eqb (to conn) t)))
      by (now intros c' ->).
    rewrite set_connections_twice, set_connections_same. f_equal.
    replace (List.filter _ (connections g)) with (@nil Connection);
      [reflexivity|].
    symmetry. clear -Hnone.
    induction (connections g) as [|c' cs IH]; [reflexivity|].
    cbn [existsb List.filter] in *.
    apply orb_false_iff in Hnone as [-> Hcs]. auto.
Qed.

Lemma add_then_remove_connection_witness :
  connections graph_two_adds
  = connections graph_two_unwired ++ [{| from := "2_out"; to := "1_in1" |}] /\
  removeConnection graph_two_adds (ByIndex 0) = graph_two_unwired /\
  removeConnection graph_two_adds
    (ByProperties {| from := "2_out"; to := "1_in1" |})
  = graph_two_unwired /\
  removeConnectionsToPort graph_two_adds "1_in1"
  = ([{| from := "2_out"; to := "1_in1" |}], graph_two_unwired).
Proof.
  apply (add_then_remove_connection graph_two_unwired "2_out" "1_in1");
    reflexivity.
Defined.

(** * What [removeNode] returns and what it spares *)

Lemma find_filter_keeps {A} (P Q : A -> bool) (l : list A) :
  (forall a, In a l -> P a = true -> Q a = true) ->
  List.find P (List.filter Q l) = List.find P l.
Proof.
  induction l as [|a l IH]; intros H; [reflexivity|].
  cbn [List.filter List.find].
  destruct (P a) eqn:Pa.
  - rewrite (H a (or_introl eq_refl) Pa). cbn [List.find]. now rewrite Pa.
  - destruct (Q a); cbn [List.find]; rewrite ?Pa; apply IH;
      intros b Hb; apply H; now right.
Qed.

Lemma filter_split_Permutation {A} (f h : A -> bool) (l : list A) :
  (forall a, h a = negb (f a)) ->
  Permutation (List.filter f l ++ List.filter h l) l.
Proof.
  intros Hh. induction l as [|a l IH]; [constructor|].
  cbn [List.filter]. rewrite Hh. destruct (f a); cbn [negb app].
  - now constructor.
  - rewrite <- Permutation_middle. now constructor.
Qed.

(** X: the terrain output survives every call of [removeNode]: when the
    ids of the nodes are distinct, [getOutputNode] returns after the call
    what it returned before, whichever id is passed. *)
Theorem removeNode_spares_output (g : NodeGraph) (nodeId : positive) :
  distinct_ids (nodes g) = true ->
  getOutputNode (snd (removeNode g nodeId)) = getOutputNode g.
Proof.
  intros Hd. unfold removeNode.
  destruct (findNode g nodeId) as [node|] eqn:Hfind; [|reflexivity].
  destruct (is_terrain_output (node_kind node)) eqn:Hout; [reflexivity|].
  cbn [snd]. unfold getOutputNode. cbn [nodes].
  apply find_filter_keeps. intros n Hn Hterrain.
  apply negb_true_iff, Pos.eqb_neq. intros Hid.
  apply find_some_id in Hfind as [Hnode Hnid].
  pose proof (find_distinct _ _ Hd Hn) as Fn.
  pose proof (find_distinct _ _ Hd Hnode) as Fnode.
  rewrite Hnid, <- Hid, Fn in Fnode. injection Fnode as ->.
  now rewrite Hout in Hterrain.
Qed.

Lemma removeNode_spares_output_witness :
  getOutputNode (snd (removeNode graph_edited 2)) = getOutputNode graph_edited.
Proof. apply (removeNode_spares_output graph_edited 2). reflexivity. Defined.

(** X: [removeNode] returns what it took away: the connections it
    returns and the connections it leaves are, together, the connections
    there were, each as often as before; when it returns no node it has
    changed nothing; and a second call with the same id changes
    nothing. *)
Theorem removeNode_returns_the_removed (g : NodeGraph) (nodeId : positive) :
  let '((node, removed), g') := removeNode g nodeId in
  Permutation (removed ++ connections g') (connections g) /\
  (node = None -> removed = [] /\ g' = g) /\
  (forall n, node = Some n ->
     findNode g nodeId = Some n /\ hasNode g' nodeId = false) /\
  snd (removeNode g' nodeId) = g'.
Proof.
  unfold removeNode.
  destruct (findNode g nodeId) as [node|] eqn:Hfind.
  2:{ rewrite Hfind. repeat split; try discriminate. reflexivity. }
  destruct (is_terrain_output (node_kind node)) eqn:Hout.
  { rewrite Hfind, Hout. repeat split; try discriminate. reflexivity. }
  assert (Hgone : forall cs,
    hasNode {| nodes := List.filter
                          (fun n => negb (Pos.eqb (node_id n) nodeId))
                          (nodes g);
               connections := cs; nextNodeId := nextNodeId g |} nodeId
    = false).
  { intros cs. unfold hasNode. cbn [nodes].
    destruct (existsb _ _) eqn:E; [|reflexivity].
    apply existsb_exists in E as (n & Hn & Heq).
    apply filter_In in Hn as [_ Hne]. now rewrite Heq in Hne. }
  split; [|split; [|split]].
  - cbn [connections]. apply filter_split_Permutation.
    intros c. now rewrite negb_orb.
  - discriminate.
  - intros n [= <-]. split; [reflexivity|apply Hgone].
  - unfold findNode.
    destruct (List.find _ _) as [n|] eqn:E; [|reflexivity].
    exfalso. specialize (Hgone (List.filter
      (fun conn => negb (startsWith (from conn) (pretty nodeId +:+ "_"))
                   && negb (startsWith (to conn) (pretty nodeId +:+ "_")))
      (connections g))).
    apply find_some in E as [Hn Heq].
    unfold hasNode in Hgone. cbn [nodes] in Hgone.
    assert (existsb (fun n => Pos.eqb (node_id n) nodeId)
              (List.filter (fun n => negb (Pos.eqb (node_id n) nodeId))
                 (nodes g)) = true); [|congruence].
    apply existsb_exists. exists n. split; trivial.
Qed.

(** * Graphs made in the editor *)

Lemma addConnection_single_source (g : NodeGraph) (f t : string) :
  single_source (connections g) ->
  single_source (connections (snd (addConnection g f t))).
Proof.
  intros Hs. unfold addConnection.
  set (g1 := if existsb _ _ then _ else g).
  assert (H1 : single_source (connections g1)).
  { subst g1. destruct (existsb _ _); [|exact Hs].
    now apply single_source_filter. }
  destruct (wouldCreateCycle g1 f t); cbn [snd]; [exact H1|].
  cbn [connections set_connections].
  apply single_source_snoc; [exact H1|]. cbn [to].
  apply In_map_to_filter.
  subst g1. destruct (existsb _ (connections g)) eqn:E.
  - cbn [connections set_connections]. apply filter_filter_neg.
  - rewrite <- (filter_all _ _ E). apply filter_filter_neg.
Qed.

Lemma addConnection_In (g : NodeGraph) (f t : string) (c : Connection) :
  In c (connections (snd (addConnection g f t))) ->
  In c (connections g) \/ c = {| from := f; to := t |}.
Proof.
  rewrite addConnection_eq.
  destruct (wouldCreateCycle _ f t); cbn [snd connections set_connections].
  - intros [H _]%filter_In. auto.
  - intros [[H _]%filter_In|[<-|[]]]%in_app_or; auto.
Qed.

Lemma addConnection_nodes (g : NodeGraph) (f t : string) :
  nodes (snd (addConnection g f t)) = nodes g.
Proof. unfold addConnection. now repeat case_match. Qed.

Lemma typed_connection_nodes (g g' : NodeGraph) (c : Connection) :
  nodes g' = nodes g -> typed_connection g c -> typed_connection g' c.
Proof. unfold typed_connection. now intros ->. Qed.

Lemma In_owns_output (A : Node) (output : Port) :
  In output (outputs A) -> owns A (port_id output) = true.
Proof.
  intros H. apply existsb_exists. exists output.
  split; [apply in_or_app; now right|apply String.eqb_refl].
Qed.

Lemma In_owns_input (A : Node) (input : Port) :
  In input (inputs A) -> owns A (port_id input) = true.
Proof.
  intros H. apply existsb_exists. exists input.
  split; [apply in_or_app; now left|apply String.eqb_refl].
Qed.

(** The two ends of a typed connection resolve to their nodes. *)
Lemma typed_resolves (g : NodeGraph) (c : Connection) :
  well_formed g = true -> typed_connection g c ->
  exists A B,
    In A (nodes g) /\ In B (nodes g) /\
    owns A (from c) = true /\ owns B (to c) = true /\
    getNodeIdFromPortId g (from c) = Some (node_id A) /\
    getNodeIdFromPortId g (to c) = Some (node_id B).
Proof.
  intros Hwf (A & B & output & input & HA & HB & Hout & Hin & Hf & Ht & _).
  exists A, B.
  assert (owns A (from c) = true) by (rewrite <- Hf; now apply In_owns_output).
  assert (owns B (to c) = true) by (rewrite <- Ht; now apply In_owns_input).
  repeat split; trivial; now apply owned_port_resolves.
Qed.

Lemma kind_tag_defaultKind (t : NodeTypeTag) (rnd : num) :
  kind_tag (defaultKind t rnd) = t.
Proof. now destruct t. Qed.

(** On the input ports [addNode] makes, the special cases of
    [arePortsCompatible] add nothing to the comparison of the types. *)
Lemma compatible_default_input (t : NodeTypeTag) (id : positive)
  (fromPort input : Port) :
  In input (defaultInputs t id) ->
  arePortsCompatible fromPort input = true ->
  port_type fromPort = port_type input.
Proof.
  destruct fromPort as [fid fname []]; destruct t; cbn [defaultInputs In];
    intros Hin; repeat (destruct Hin as [<-|Hin]); try destruct Hin;
    unfold arePortsCompatible; cbn; congruence.
Qed.

Lemma nodeById_In (g : NodeGraph) (id : option Z) (n : Node) :
  nodeById g id = Some n -> In n (nodes g).
Proof.
  destruct id as [[|id|]|]; try discriminate. cbn [nodeById].
  now intros [H _]%find_some_id.
Qed.

Lemma connectPorts_cases (g : NodeGraph) (f t : string) :
  connectPorts g f t = g \/
  (connectPorts g f t = snd (addConnection g f t) /\
   exists A B output input,
     In A (nodes g) /\ In B (nodes g) /\
     In output (outputs A) /\ In input (inputs B) /\
     port_id output = f /\ port_id input = t /\
     arePortsCompatible output input = true).
Proof.
  unfold connectPorts.
  destruct (nodeById g (parseInt (split0 f))) as [A|] eqn:EA; [|now left].
  destruct (nodeById g (parseInt (split0 t))) as [B|] eqn:EB; [|now left].
  destruct (List.find _ (outputs A)) as [output|] eqn:Eo; [|now left].
  destruct (List.find _ (inputs B)) as [input|] eqn:Ei; [|now left].
  destruct (arePortsCompatible output input) eqn:Ec; [|now left].
  right. split; [reflexivity|].
  apply find_some in Eo as [Ho Hof], Ei as [Hi Hit].
  apply String.eqb_eq in Hof, Hit.
  exists A, B, output, input.
  repeat split; eauto using nodeById_In.
Qed.

Lemma resolve_mono (g g' : NodeGraph) (p : string) (a : positive) :
  (forall id, hasNode g' id = true -> hasNode g id = true) ->
  getNodeIdFromPortId g' p = Some a -> getNodeIdFromPortId g p = Some a.
Proof.
  intros Hsub. unfold getNodeIdFromPortId.
  destruct (first_part p) as [part|]; [|discriminate].
  destruct (parseInt part) as [[|id|]|]; try discriminate.
  destruct (hasNode g' id) eqn:E; [|discriminate].
  now rewrite (Hsub id E).
Qed.

Lemma resolve_stable (g g' : NodeGraph) (p : string) (a : positive) :
  getNodeIdFromPortId g p = Some a -> hasNode g' a = true ->
  getNodeIdFromPortId g' p = Some a.
Proof.
  unfold getNodeIdFromPortId.
  destruct (first_part p) as [part|]; [|discriminate].
  destruct (parseInt part) as [[|id|]|]; try discriminate.
  destruct (hasNode g id); [|discriminate].
  intros [= ->] ->. reflexivity.
Qed.

Lemma acyclic_subgraph (g g' : NodeGraph) :
  (forall a b, node_edge g' a b -> node_edge g a b) ->
  acyclic g -> acyclic g'.
Proof.
  intros Hsub Hg a Hloop. apply (Hg a).
  eapply tc_subrel; [|exact Hloop]. exact Hsub.
Qed.

Lemma invariant_empty : editor_invariant emptyGraph.
Proof.
  split; [reflexivity|]. split; [intros n []|]. split; [intros c []|].
  split; [constructor|].
  intros a Hloop. destruct Hloop as [? ? (c & [] & _)|? ? ? (c & [] & _) _].
Qed.

Section Invariant.

Variable g : NodeGraph.
Hypothesis Hinv : editor_invariant g.

Lemma invariant_addNode (t : NodeTypeTag) (x y rnd : num) :
  editor_invariant (snd (addNode t x y rnd g)).
Proof.
  destruct Hinv as (Hwf & Hcan & Hty & Hss & Hac).
  pose proof (addNode_well_formed t x y rnd g Hwf) as Hwf'.
  split; [exact Hwf'|]. split; [|split; [|split]].
  - cbn [addNode snd nodes]. intros n [Hn|[<-|[]]]%in_app_or; [auto|].
    split; cbn [inputs outputs node_kind node_id];
      now rewrite kind_tag_defaultKind.
  - intros c Hc.
    destruct (Hty c Hc) as (A & B & o & i & HA & HB & H).
    exists A, B, o, i. cbn [addNode snd nodes].
    split; [apply in_or_app; now left|].
    split; [apply in_or_app; now left|exact H].
  - exact Hss.
  - eapply acyclic_subgraph; [|exact Hac].
    intros a b (c & Hc & Hf & Ht). exists c.
    change (In c (connections g)) in Hc.
    destruct (typed_resolves g c Hwf (Hty c Hc))
      as (A & B & HA & HB & _ & _ & HfA & HtB).
    assert (Hsub : forall n, In n (nodes g) ->
              hasNode (snd (addNode t x y rnd g)) (node_id n) = true).
    { intros n Hn. apply In_hasNode. cbn [addNode snd nodes].
      apply in_or_app. now left. }
    pose proof (resolve_stable g _ _ _ HfA (Hsub A HA)) as HfA'.
    pose proof (resolve_stable g _ _ _ HtB (Hsub B HB)) as HtB'.
    split; [trivial|]. split; congruence.
Qed.

Lemma invariant_connections (cs : list Connection) :
  (forall c, In c cs -> In c (connections g)) ->
  single_source cs ->
  editor_invariant (set_connections g cs).
Proof.
  destruct Hinv as (Hwf & Hcan & Hty & Hss & Hac). intros Hsub Hcs.
  split; [exact Hwf|]. split; [exact Hcan|]. split; [|split].
  - intros c Hc. apply (typed_connection_nodes g); [reflexivity|].
    apply Hty, Hsub, Hc.
  - exact Hcs.
  - now apply acyclic_fewer_connections.
Qed.

Lemma invariant_addConnection (f t : string) :
  typed_connection g {| from := f; to := t |} ->
  editor_invariant (snd (addConnection g f t)).
Proof.
  destruct Hinv as (Hwf & Hcan & Hty & Hss & Hac). intros Hnew.
  split; [now apply addConnection_well_formed|].
  split; [now rewrite addConnection_nodes|]. split; [|split].
  - intros c Hc. apply (typed_connection_nodes g);
      [apply addConnection_nodes|].
    apply addConnection_In in Hc as [Hc| ->]; auto.
  - now apply addConnection_single_source.
  - now apply acyclic_addConnection.
Qed.

Lemma invariant_connectPorts (f t : string) :
  editor_invariant (connectPorts g f t).
Proof.
  destruct (connectPorts_cases g f t)
    as [->|[-> (A & B & o & i & HA & HB & Ho & Hi & Hf & Ht & Hc)]];
    [exact Hinv|].
  apply invariant_addConnection.
  exists A, B, o, i. repeat split; trivial.
  destruct Hinv as (_ & Hcan & _).
  destruct (Hcan B HB) as [Hin _]. rewrite Hin in Hi.
  eapply compatible_default_input; eauto.
Qed.

Lemma invariant_removeNode (nodeId : positive) :
  editor_invariant (snd (removeNode g nodeId)).
Proof.
  pose proof (removeNode_well_formed g nodeId) as Hwf'.
  destruct Hinv as (Hwf & Hcan & Hty & Hss & Hac).
  specialize (Hwf' Hwf). revert Hwf'. unfold removeNode.
  destruct (findNode g nodeId) as [node|]; [|intros _; exact Hinv].
  destruct (is_terrain_output (node_kind node)); [intros _; exact Hinv|].
  cbn [snd]. intros Hwf'.
  destruct (well_formed_parts g Hwf) as (_ & _ & Hnamed).
  split; [exact Hwf'|]. split; [|split; [|split]].
  - cbn [nodes]. intros n [Hn _]%filter_In. auto.
  - cbn [nodes connections]. intros c [Hc Hkeep]%filter_In.
    apply andb_true_iff in Hkeep as [Hf Ht].
    apply negb_true_iff in Hf, Ht.
    destruct (Hty c Hc) as (A & B & o & i & HA & HB & Ho & Hi & Hof & Hit & H).
    exists A, B, o, i.
    split.
    { apply filter_In. split; [trivial|].
      apply negb_true_iff, Pos.eqb_neq. intros <-.
      rewrite (owns_named A (from c)) in Hf; [discriminate|auto|].
      rewrite <- Hof. now apply In_owns_output. }
    split; [|repeat split; trivial].
    apply filter_In. split; [trivial|].
    apply negb_true_iff, Pos.eqb_neq. intros <-.
    rewrite (owns_named B (to c)) in Ht; [discriminate|auto|].
    rewrite <- Hit. now apply In_owns_input.
  - cbn [connections]. now apply single_source_filter.
  - eapply acyclic_subgraph; [|exact Hac].
    intros a b (c & Hc & Hf & Ht). cbn [connections] in Hc.
    apply filter_In in Hc as [Hc _]. exists c.
    assert (Hsub : forall id,
      hasNode {| nodes := List.filter
                            (fun n => negb (Pos.eqb (node_id n) nodeId))
                            (nodes g);
                 connections :=
                   List.filter
                     (fun conn =>
                        negb (startsWith (from conn) (pretty nodeId +:+ "_"))
                        && negb (startsWith (to conn)
                                   (pretty nodeId +:+ "_")))
                     (connections g);
                 nextNodeId := nextNodeId g |} id = true ->
      hasNode g id = true).
    { intros id (n & Hn & Heq)%existsb_exists. cbn [nodes] in Hn.
      apply filter_In in Hn as [Hn _]. apply existsb_exists. eauto. }
    split; [trivial|]. split; eapply resolve_mono; eauto.
Qed.

End Invariant.

Lemma filter_index_In {A} (keep : A -> Z -> bool) (l : list A) (a : A) :
  forall start, In a (filter_index keep start l) -> In a l.
Proof.
  induction l as [|b l IH]; intros start; cbn [filter_index]; [trivial|].
  destruct (keep b start); cbn [In]; intros H; [destruct H as [H|H]|];
    eauto.
Qed.

Lemma single_source_filter_index (keep : Connection -> Z -> bool)
  (cs : list Connection) :
  forall start,
    single_source cs -> single_source (filter_index keep start cs).
Proof.
  unfold single_source. induction cs as [|c cs IH]; intros start; [trivial|].
  cbn [map filter_index]. intros H. inversion H as [|? ? Hc Hcs]; subst.
  destruct (keep c start); [|auto]. cbn [map]. constructor; [|auto].
  intros (c' & Hto & Hin)%in_map_iff. apply filter_index_In in Hin.
  apply Hc, in_map_iff. eauto.
Qed.

Lemma invariant_removeConnection (g : NodeGraph) (r : ConnectionRef) :
  editor_invariant g -> editor_invariant (removeConnection g r).
Proof.
  intros Hinv. pose proof Hinv as (_ & _ & _ & Hss & _).
  destruct r as [i|c]; cbn [removeConnection].
  - apply invariant_connections; trivial.
    + intros c. apply filter_index_In.
    + now apply single_source_filter_index.
  - destruct (truthy (from c) && truthy (to c)); [|exact Hinv].
    apply invariant_connections; trivial.
    + intros c' Hc'. now apply filter_In in Hc'.
    + now apply single_source_filter.
Qed.

Lemma Forall2_same_shape_In_l (l l' : list Node) (n : Node) :
  Forall2 same_shape l l' -> In n l -> exists n', In n' l' /\ same_shape n n'.
Proof.
  induction 1 as [|a b l l' Hab _ IH]; intros Hin; [destruct Hin|].
  destruct Hin as [->|Hin].
  - exists b. split; [now left|trivial].
  - destruct (IH Hin) as (n' & Hn' & Hs). exists n'. split; [now right|trivial].
Qed.

Lemma Forall2_same_shape_In_r (l l' : list Node) (n' : Node) :
  Forall2 same_shape l l' -> In n' l' -> exists n, In n l /\ same_shape n n'.
Proof.
  induction 1 as [|a b l l' Hab _ IH]; intros Hin; [destruct Hin|].
  destruct Hin as [->|Hin].
  - exists a. split; [now left|trivial].
  - destruct (IH Hin) as (n & Hn & Hs). exists n. split; [now right|trivial].
Qed.

Lemma same_shape_existsb (l l' : list Node) (id : positive) :
  Forall2 same_shape l l' ->
  existsb (fun m => Pos.eqb (node_id m) id) l'
  = existsb (fun m => Pos.eqb (node_id m) id) l.
Proof.
  induction 1 as [|a b l l' (Hid & _) _ IH]; [reflexivity|].
  cbn [existsb]. now rewrite Hid, IH.
Qed.

Lemma same_shape_well_formed (g : NodeGraph) (ns : list Node) :
  Forall2 same_shape (nodes g) ns ->
  well_formed g = true ->
  well_formed {| nodes := ns; connections := connections g;
                 nextNodeId := nextNodeId g |} = true.
Proof.
  unfold well_formed. cbn [nodes nextNodeId].
  generalize (nextNodeId g) as next. intros next Hns.
  induction Hns as [|a b l l' (Hid & Hk & Hi & Ho) Hll IH]; [trivial|].
  cbn [distinct_ids forallb].
  intros [[[Ha Hd]%andb_true_iff [Hlt Hl]%andb_true_iff]%andb_true_iff
            [Hn Hnl]%andb_true_iff]%andb_true_iff.
  assert (Hrest : distinct_ids l && forallb (fun n => Pos.ltb (node_id n) next) l
                  && forallb ports_named l = true)
    by now rewrite Hd, Hl, Hnl.
  apply IH in Hrest.
  apply andb_true_iff in Hrest as [[-> ->]%andb_true_iff ->].
  rewrite Hid, (same_shape_existsb l l') by trivial. rewrite Ha, Hlt.
  unfold ports_named in *. now rewrite Hid, Hi, Ho, Hn.
Qed.

Lemma invariant_params (g : NodeGraph) (ns : list Node) :
  Forall2 same_shape (nodes g) ns ->
  editor_invariant g ->
  editor_invariant {| nodes := ns; connections := connections g;
                      nextNodeId := nextNodeId g |}.
Proof.
  intros Hns (Hwf & Hcan & Hty & Hss & Hac).
  split; [now apply same_shape_well_formed|]. split; [|split; [|split]].
  - cbn [nodes]. intros n' Hn'.
    destruct (Forall2_same_shape_In_r _ _ _ Hns Hn')
      as (n & Hn & Hid & Hk & Hi & Ho).
    destruct (Hcan n Hn) as [Hin Hout].
    split; congruence.
  - cbn [connections]. intros c Hc.
    destruct (Hty c Hc) as (A & B & o & i & HA & HB & Ho & Hi & H).
    destruct (Forall2_same_shape_In_l _ _ _ Hns HA)
      as (A' & HA' & _ & _ & _ & HoA).
    destruct (Forall2_same_shape_In_l _ _ _ Hns HB)
      as (B' & HB' & _ & _ & HiB & _).
    exists A', B', o, i. cbn [nodes]. rewrite HoA, HiB. auto.
  - exact Hss.
  - eapply acyclic_subgraph; [|exact Hac].
    intros a b (c & Hc & Hf & Ht). exists c. split; [exact Hc|].
    assert (Hsub : forall id,
      hasNode {| nodes := ns; connections := connections g;
                 nextNodeId := nextNodeId g |} id = true ->
      hasNode g id = true).
    { intros id. unfold hasNode. cbn [nodes].
      now rewrite (same_shape_existsb (nodes g) ns). }
    split; eapply resolve_mono; eauto.
Qed.

(** Every graph made in the editor satisfies the invariant. *)
Lemma Edited_invariant (g : NodeGraph) : Edited g -> editor_invariant g.
Proof.
  induction 1 as [|t x y rnd g _ IH|f t g _ IH|nodeId g _ IH|r g _ IH
                  |p g _ IH|p g _ IH|g ns _ IH Hns].
  - apply invariant_empty.
  - now apply invariant_addNode.
  - now apply invariant_connectPorts.
  - now apply invariant_removeNode.
  - now apply invariant_removeConnection.
  - pose proof IH as (_ & _ & _ & Hss & _).
    apply invariant_connections; trivial.
    + intros c Hc. now apply filter_In in Hc.
    + now apply single_source_filter.
  - pose proof IH as (_ & _ & _ & Hss & _).
    apply invariant_connections; trivial.
    + intros c Hc. now apply filter_In in Hc.
    + now apply single_source_filter.
  - now apply invariant_params.
Qed.

Lemma graph_edited_Edited : Edited graph_edited.
Proof. unfold graph_edited. repeat constructor. Qed.

(** X: in a graph made in the editor every connection leads from an
    output port of a node of the graph to an input port of a node of the
    graph, and the two ports have the same type. *)
Theorem editor_connections_are_typed (g : NodeGraph) (c : Connection) :
  Edited g -> In c (connections g) -> typed_connection g c.
Proof. intros Hg. now apply Edited_invariant. Qed.

Lemma editor_connections_are_typed_witness :
  typed_connection graph_edited {| from := "2_out"; to := "1_in" |}.
Proof.
  apply editor_connections_are_typed.
  - unfold graph_edited. repeat constructor.
  - vm_compute. left. reflexivity.
Defined.

Lemma single_source_find (cs : list Connection) (c : Connection) :
  single_source cs -> In c cs ->
  List.find (fun conn => String.eqb (to conn) (to c)) cs = Some c.
Proof.
  unfold single_source. induction cs as [|d cs IH]; [intros _ []|].
  cbn [map List.find]. intros H. inversion H as [|? ? Hd Hcs]; subst.
  intros [->|Hin]; [now rewrite String.eqb_refl|].
  destruct (String.eqb_spec (to d) (to c)) as [e|_]; [|auto].
  exfalso. apply Hd. rewrite e. now apply in_map.
Qed.

(** X: in a graph made in the editor no input port is the target of two
    connections, so the connection the evaluator and the validation look
    up for a port is the only one that leads there. *)
Theorem editor_inputs_have_one_source (g : NodeGraph) :
  Edited g ->
  single_source (connections g) /\
  forall c, In c (connections g) -> findConnectionTo g (to c) = Some c.
Proof.
  intros Hg. destruct (Edited_invariant g Hg) as (_ & _ & _ & Hss & _).
  split; [exact Hss|]. intros c Hc. now apply single_source_find.
Qed.

Lemma editor_inputs_have_one_source_witness :
  single_source (connections graph_edited) /\
  forall c, In c (connections graph_edited) ->
            findConnectionTo graph_edited (to c) = Some c.
Proof.
  apply editor_inputs_have_one_source.
  unfold graph_edited. repeat constructor.
Defined.

(** X: a graph made in the editor has no cycle of connections. *)
Theorem editor_graphs_are_acyclic (g : NodeGraph) :
  Edited g -> acyclic g.
Proof. intros Hg. now apply Edited_invariant. Qed.

Lemma editor_graphs_are_acyclic_witness : acyclic graph_edited.
Proof.
  apply editor_graphs_are_acyclic.
  unfold graph_edited. repeat constructor.
Defined.

Lemma canonical_arity_ok (n : Node) : canonical n -> arity_ok n = true.
Proof.
  intros [Hin _]. unfold arity_ok. rewrite Hin.
  now destruct (node_kind n).
Qed.

(** X: on a graph made in the editor neither the validation nor the
    evaluation of a port throws, whatever port, position, set of visited
    ports and depth the evaluation starts from. *)
Theorem editor_graphs_never_throw (g : NodeGraph) :
  Edited g ->
  is_Some (validateGraph g) /\
  forall host x y z p visited depth,
    is_Some (evaluatePort host g x y z p visited depth).
Proof.
  intros Hg. destruct (Edited_invariant g Hg) as (_ & Hcan & _).
  split.
  - unfold validateGraph, outputErrors, getOutputNode.
    destruct (List.find _ (nodes g)) as [out|] eqn:E; [|eexists; reflexivity].
    apply find_some in E as [Hin Hout].
    destruct (Hcan out Hin) as [Hins _]. rewrite Hins.
    destruct (node_kind out); try discriminate. cbn [kind_tag defaultInputs].
    destruct (findConnectionTo g _); eexists; reflexivity.
  - intros host x y z p visited depth.
    apply evaluatePort_fuel_returns.
    apply forallb_forall. intros n Hn. apply canonical_arity_ok. auto.
Qed.

Lemma editor_graphs_never_throw_witness :
  is_Some (validateGraph graph_edited) /\
  forall host x y z p visited depth,
    is_Some (evaluatePort host graph_edited x y z p visited depth).
Proof.
  apply editor_graphs_never_throw.
  unfold graph_edited. repeat constructor.
Defined.

(** * What the validation accepts *)

Lemma flat_map_nil {A B} (f : A -> list B) (l : list A) :
  flat_map f l = [] <-> forall a, In a l -> f a = [].
Proof.
  induction l as [|a l IH]; cbn [flat_map In]; [tauto|].
  split.
  - intros [Ha Hl]%app_eq_nil b [<-|Hb]; [trivial|]. now apply IH.
  - intros H. rewrite (H a) by now left. apply IH. auto.
Qed.

Lemma existsb_target (cs : list Connection) (p : string) :
  existsb (fun conn => String.eqb (to conn) p) cs = true
  <-> exists c, In c cs /\ to c = p.
Proof.
  rewrite existsb_exists. split; intros (c & Hc & Heq); exists c;
    (split; [trivial|]); now apply String.eqb_eq.
Qed.

(** X: [validateGraph] declares a graph valid exactly when (1) there is
    a terrain output node and its first input port is the target of a
    connection, (2) every input port of every node is the target of a
    connection, the "If True" and "If False" ports of compare nodes
    apart, and (3) every node other than a terrain output is reached
    from the terrain output by following connections backward. *)
Theorem validateGraph_valid_iff (g : NodeGraph) (r : ValidationResult) :
  validateGraph g = Some r ->
  valid r = true <->
  (exists out input rest c,
      getOutputNode g = Some out /\ inputs out = input :: rest /\
      In c (connections g) /\ to c = port_id input) /\
  (forall node input,
      In node (nodes g) -> In input (inputs node) ->
      is_optional_input node input = false ->
      exists c, In c (connections g) /\ to c = port_id input) /\
  (forall node,
      In node (nodes g) -> is_terrain_output (node_kind node) = false ->
      exists out, getOutputNode g = Some out /\
                  reaches g (node_id out) (node_id node)).
Proof.
  intros Hv.
  destruct (validateGraph_errors g r Hv) as (e1 & He1 & Herr & ->).
  rewrite Herr.
  assert (H1 : e1 = [] <->
    exists out input rest c,
      getOutputNode g = Some out /\ inputs out = input :: rest /\
      In c (connections g) /\ to c = port_id input).
  { unfold outputErrors in He1.
    destruct (getOutputNode g) as [out|].
    2:{ injection He1 as <-. split; [discriminate|].
        now intros (? & ? & ? & ? & [=] & _). }
    destruct (inputs out) as [|input rest] eqn:Ein.
    { split.
      - intros ->. destruct (connections g); discriminate.
      - intros (? & ? & ? & ? & [= <-] & Hi & _). congruence. }
    destruct (findConnectionTo g (port_id input)) as [c|] eqn:E.
    - injection He1 as <-. split; [intros _|reflexivity].
      apply find_some in E as [Hc Heq]. apply String.eqb_eq in Heq.
      now exists out, input, rest, c.
    - injection He1 as <-. split; [discriminate|].
      intros (? & ? & ? & c & [= <-] & Hi & Hc & Heq).
      rewrite Ein in Hi. injection Hi as <- <-.
      eapply find_none in E; [|exact Hc].
      apply String.eqb_neq in E. contradiction. }
  assert (H2 : disconnectedErrors g = [] <->
    forall node input,
      In node (nodes g) -> In input (inputs node) ->
      is_optional_input node input = false ->
      exists c, In c (connections g) /\ to c = port_id input).
  { unfold disconnectedErrors. rewrite flat_map_nil. split.
    - intros H node input Hn Hi Hopt.
      specialize (H node Hn). rewrite flat_map_nil in H.
      specialize (H input Hi). rewrite Hopt in H.
      apply existsb_target.
      destruct (existsb _ _); [reflexivity|discriminate].
    - intros H node Hn. apply flat_map_nil. intros input Hi.
      destruct (is_optional_input node input) eqn:Hopt; [reflexivity|].
      destruct (H node input Hn Hi Hopt) as (c & Hc & Heq).
      assert (existsb (fun conn => String.eqb (to conn) (port_id input))
                (connections g) = true) as ->; [|reflexivity].
      apply existsb_target. eauto. }
  assert (H3 : unusedErrors g = [] <->
    forall node,
      In node (nodes g) -> is_terrain_output (node_kind node) = false ->
      exists out, getOutputNode g = Some out /\
                  reaches g (node_id out) (node_id node)).
  { unfold unusedErrors. rewrite flat_map_nil. split.
    - intros H node Hn Hk. specialize (H node Hn).
      unfold is_unused in H. rewrite Hk in H. cbn [negb] in H.
      rewrite andb_true_r in H.
      destruct (bool_decide _) eqn:E; [|discriminate].
      apply bool_decide_eq_true in E.
      destruct (getOutputNode g) as [out|] eqn:Hout.
      + exists out. split; [trivial|]. now apply usedNodesOf_reaches.
      + unfold usedNodesOf in E. rewrite Hout in E. set_solver.
    - intros H node Hn. unfold is_unused.
      destruct (is_terrain_output (node_kind node)) eqn:Hk;
        [now rewrite andb_false_r|].
      destruct (H node Hn Hk) as (out & Hout & Hreach).
      apply (usedNodesOf_reaches g out) in Hreach; [|exact Hout].
      assert (bool_decide (node_id node ∈ usedNodesOf g) = true) as ->
        by now apply bool_decide_eq_true.
      reflexivity. }
  rewrite <- H1, <- H2, <- H3. split.
  - destruct e1; [|discriminate].
    destruct (disconnectedErrors g); [|discriminate].
    destruct (unusedErrors g); [auto|discriminate].
  - now intros (-> & -> & ->).
Qed.

Lemma validateGraph_valid_iff_witness :
  valid {| valid := true; errors := [] |} = true <->
  (exists out input rest c,
      getOutputNode graph_edited = Some out /\ inputs out = input :: rest /\
      In c (connections graph_edited) /\ to c = port_id input) /\
  (forall node input,
      In node (nodes graph_edited) -> In input (inputs node) ->
      is_optional_input node input = false ->
      exists c, In c (connections graph_edited) /\ to c = port_id input) /\
  (forall node,
      In node (nodes graph_edited) ->
      is_terrain_output (node_kind node) = false ->
      exists out, getOutputNode graph_edited = Some out /\
                  reaches graph_edited (node_id out) (node_id node)).
Proof.
  apply (validateGraph_valid_iff graph_edited).
  vm_compute. reflexivity.
Defined.

(** * One walk of the evaluator reads an input port once *)

Section EvaluatorWalk.

Variable host : Host.
Variable g : NodeGraph.
Variables x y z : num.

Lemma grows_ret {A} (a : A) : grows (ret a).
Proof. intros s b s' [= _ <-]. reflexivity. Qed.

Lemma grows_throw {A} : grows (@throw A).
Proof. intros s b s' [=]. Qed.

Lemma grows_bind {A B} (m : Eval A) (k : A -> Eval B) :
  grows m -> (forall a, grows (k a)) -> grows (bind m k).
Proof.
  intros Hm Hk s b s'. unfold bind.
  destruct (m s) as [[a s1]|] eqn:E; [|discriminate].
  intros H. etrans; [eapply Hm, E|eapply Hk, H].
Qed.

Lemma grows_input (ev : string -> Eval Value) (node : Node) (i : nat) :
  (forall p, grows (ev p)) ->
  grows (bind (inputId node i) (fun p => ev p)).
Proof.
  intros Hev. apply grows_bind; [|exact Hev].
  unfold inputId. destruct (nth_error _ _); [apply grows_ret|apply grows_throw].
Qed.

Lemma evaluateNode_grows (ev : string -> Eval Value)
  (node : Node) (out : Port) :
  (forall p, grows (ev p)) -> grows (evaluateNode host g x y z ev node out).
Proof.
  intros Hev. pose proof (grows_input ev node) as Hin.
  unfold evaluateNode.
  destruct (node_kind node);
    repeat first
      [ apply grows_ret
      | apply grows_throw
      | apply Hev
      | apply grows_bind; [now apply Hin|intros ?]
      | case_match ].
Qed.

Lemma evaluatePort_fuel_grows (fuel : nat) :
  forall p, grows (evaluatePort_fuel host g x y z fuel p).
Proof.
  induction fuel as [|fuel IH]; intros p; cbn [evaluatePort_fuel].
  - apply grows_ret.
  - intros s v s'. case_bool_decide as Hp.
    + intros [= _ <-]. reflexivity.
    + destruct (findOutput (nodes g) p) as [[node out]|].
      * intros H. apply evaluateNode_grows in H; [|exact IH].
        etrans; [|exact H]. clear -Hp. set_solver.
      * destruct (findConnectionTo g p).
        -- intros H. apply IH in H. etrans; [|exact H].
           apply union_subseteq_r.
        -- repeat case_match; intros [= _ <-]; apply union_subseteq_r.
Qed.

(** A port that is no output port stays in [visitedPorts] once it has
    been evaluated. *)
Lemma evaluatePort_fuel_marks (fuel : nat) (p : string) (s s' : gset string)
  (v : Value) :
  findOutput (nodes g) p = None ->
  evaluatePort_fuel host g x y z (S fuel) p s = Some (v, s') ->
  p ∈ s'.
Proof.
  intros Hout. cbn [evaluatePort_fuel]. rewrite Hout.
  case_bool_decide as Hp; [now intros [= _ <-]|].
  assert (Hin : p ∈ {[p]} ∪ s) by (apply elem_of_union_l, elem_of_singleton;
                                    reflexivity).
  destruct (findConnectionTo g p).
  - intros H. apply evaluatePort_fuel_grows in H. now apply H.
  - repeat case_match; now intros [= _ <-].
Qed.

End EvaluatorWalk.

(** X: one walk of the evaluator reads an input port once.  When
    [evaluatePort] has returned for a port that is no output port of a
    node (an input port, or an id no node has), the port is in
    [visitedPorts], and every later call for it with that set returns
    the number 0 -- the answer for a cycle -- whatever is wired to it.
    A node whose output feeds two inputs is evaluated once for each, and
    the second time its inputs read 0. *)
Theorem input_port_is_read_once (host : Host) (g : NodeGraph) (x y z : num)
  (p : string) (visited visited' : gset string) (depth : nat) (v : Value) :
  findOutput (nodes g) p = None ->
  (depth <= MAX_RECURSION_DEPTH)%nat ->
  evaluatePort host g x y z p visited depth = Some (v, visited') ->
  p ∈ visited' /\
  forall depth',
    evaluatePort host g x y z p visited' depth'
    = Some (VNum JS.zero, visited').
Proof.
  unfold evaluatePort. intros Hout Hdepth H.
  replace (S MAX_RECURSION_DEPTH - depth)%nat
    with (S (MAX_RECURSION_DEPTH - depth)) in H by lia.
  apply evaluatePort_fuel_marks in H; [|exact Hout].
  split; [exact H|]. intros depth'.
  destruct (S MAX_RECURSION_DEPTH - depth')%nat; cbn [evaluatePort_fuel];
    [reflexivity|].
  now rewrite bool_decide_eq_true_2.
Qed.

Lemma input_port_is_read_once_witness :
  "2_in" ∈ ({["2_in"]} : gset string) /\
  forall depth',
    evaluatePort idle_host graph_diamond (JS.of_Z 5) JS.zero JS.zero
      "2_in" {["2_in"]} depth'
    = Some (VNum JS.zero, {["2_in"]}).
Proof.
  apply (input_port_is_read_once idle_host graph_diamond
           (JS.of_Z 5) JS.zero JS.zero "2_in" ∅ {["2_in"]} 0
           (VNum (JS.of_Z 5))).
  - reflexivity.
  - unfold MAX_RECURSION_DEPTH. lia.
  - vm_compute. reflexivity.
Defined.

(** In [graph_diamond] the sum of the two inputs of the [add] node is
    |x| + |x|; the evaluator returns |x| + |0|, at every position. *)
Lemma diamond_reads_its_source_once (host : Host) (x y z : num) :
  exists visited,
    evaluatePort host graph_diamond x y z "3_out" ∅ 0
    = Some (VNum (JS.abs x + JS.abs JS.zero)%js, visited).
Proof. eexists. vm_compute. reflexivity. Qed.

(** * Connections to a node that does not exist yet *)

Lemma portId_inj_id (a b : positive) (s s' : string) :
  portId a s = portId b s' -> a = b.
Proof.
  intros H. apply (node_prefix_inj a b (portId a s)).
  - apply startsWith_portId.
  - rewrite H. apply startsWith_portId.
Qed.

Lemma hasNode_next (g : NodeGraph) :
  well_formed g = true -> hasNode g (nextNodeId g) = false.
Proof.
  intros Hwf. destruct (well_formed_parts g Hwf) as (_ & Hlt & _).
  unfold hasNode. destruct (existsb _ _) eqn:E; [|reflexivity].
  apply existsb_exists in E as (n & Hn & Heq). apply Pos.eqb_eq in Heq.
  specialize (Hlt n Hn). lia.
Qed.

Lemma addConnection_dangling (g : NodeGraph) (f t : string) :
  getNodeIdFromPortId g f = None \/ getNodeIdFromPortId g t = None ->
  addConnection g f t
  = (true,
     set_connections g
       (List.filter (fun c => negb (String.eqb (to c) t)) (connections g)
        ++ [{| from := f; to := t |}])).
Proof.
  intros Hnone. rewrite addConnection_eq.
  now rewrite wouldCreateCycle_unresolved
    by now rewrite !getNodeIdFromPortId_set_connections.
Qed.

(** X: the cycle test of [addConnection] looks only at nodes that
    exist.  A connection to or from a port of the node that the next
    [addNode] will make is accepted as it comes; with one such
    connection in each direction, the graph has a cycle as soon as the
    node is added. *)
Theorem addNode_can_close_a_cycle (g : NodeGraph) (a : positive)
  (t : NodeTypeTag) (x y rnd : num) :
  well_formed g = true -> hasNode g a = true ->
  let n := nextNodeId g in
  let first := addConnection g (portId a "out") (portId n "in") in
  let second :=
    addConnection (snd first) (portId n "out") (portId a "in") in
  fst first = true /\ fst second = true /\
  ~ acyclic (snd (addNode t x y rnd (snd second))).
Proof.
  intros Hwf Ha n first second.
  pose proof (hasNode_next g Hwf) as Hn. fold n in Hn.
  assert (Hne : a <> n) by congruence.
  assert (H1 : first = (true, set_connections g
    (List.filter (fun c => negb (String.eqb (to c) (portId n "in")))
       (connections g)
     ++ [{| from := portId a "out"; to := portId n "in" |}]))).
  { apply addConnection_dangling. right.
    now rewrite getNodeIdFromPortId_portId, Hn. }
  assert (H2 : second = (true, set_connections (snd first)
    (List.filter (fun c => negb (String.eqb (to c) (portId a "in")))
       (connections (snd first))
     ++ [{| from := portId n "out"; to := portId a "in" |}]))).
  { apply addConnection_dangling. left. rewrite H1. cbn [snd].
    rewrite getNodeIdFromPortId_set_connections.
    now rewrite getNodeIdFromPortId_portId, Hn. }
  split; [now rewrite H1|]. split; [now rewrite H2|].
  intros Hac. apply (Hac a).
  set (g3 := snd (addNode t x y rnd (snd second))).
  assert (Hcs : forall c,
    c = {| from := portId a "out"; to := portId n "in" |} \/
    c = {| from := portId n "out"; to := portId a "in" |} ->
    In c (connections g3)).
  { intros c Hc. subst g3. rewrite H2, H1.
    cbn [snd addNode connections set_connections].
    apply in_or_app. destruct Hc as [->| ->]; [left|right; now left].
    apply filter_In. split; [apply in_or_app; right; now left|].
    cbn [to]. apply negb_true_iff, String.eqb_neq.
    intros Heq. apply portId_inj_id in Heq. congruence. }
  assert (Hra : forall s, getNodeIdFromPortId g3 (portId a s) = Some a).
  { intros s. rewrite getNodeIdFromPortId_portId.
    assert (hasNode g3 a = true) as ->; [|reflexivity].
    subst g3. rewrite H2, H1. cbn [snd addNode set_connections nodes].
    unfold hasNode in *. cbn [nodes]. now rewrite existsb_app, Ha. }
  assert (Hrn : forall s, getNodeIdFromPortId g3 (portId n s) = Some n).
  { intros s. rewrite getNodeIdFromPortId_portId.
    assert (hasNode g3 n = true) as ->; [|reflexivity].
    subst g3. rewrite H2, H1. cbn [snd addNode set_connections nodes].
    unfold hasNode. cbn [nodes nextNodeId]. rewrite existsb_app.
    cbn [existsb node_id]. fold n. now rewrite Pos.eqb_refl, orb_true_r. }
  apply tc_l with (y := n); [|apply tc_once].
  - eexists. split; [apply Hcs; left; reflexivity|]. cbn [from to]. auto.
  - eexists. split; [apply Hcs; right; reflexivity|]. cbn [from to]. auto.
Qed.

Lemma addNode_can_close_a_cycle_witness :
  fst (addConnection graph_one_abs "1_out" "2_in") = true /\
  fst (addConnection (snd (addConnection graph_one_abs "1_out" "2_in"))
         "2_out" "1_in") = true /\
  ~ acyclic
      (snd (addNode T_abs JS.zero JS.zero JS.zero
              (snd (addConnection
                      (snd (addConnection graph_one_abs "1_out" "2_in"))
                      "2_out" "1_in")))).
Proof.
  apply (addNode_can_close_a_cycle graph_one_abs 1 T_abs); reflexivity.
Defined.
